(** * Relationship discovery and dependency-graph rendering

    A shallow embedding of the relationship discovery of [server/aws.js]
    ([discoverResourceRelationships] and its helpers) and of the data
    preparation done by [ResourceDependencyGraph.tsx], together with the
    properties of the written specification that were checked against them;
    and, around them, of the code that feeds and uses them: the status of a
    service and the loop over the regions of the inventory, the route that
    serves the relationships, the grouping of the dashboard, the component
    [ResourceGroup] that hands a group to the graph, and the handlers of
    the graph.

    Conventions of the embedding:
    - a JavaScript value that may be [undefined] is an [option];
    - truthiness of a string is non-emptiness ([truthy]); arrays and objects
      are always truthy, also when empty;
    - a provider call ([client.send]) that throws is a [None] answer of the
      corresponding [Provider] field; every helper catches it as the
      source does;
    - [relationships.push] inside the discovery loop is explicit state
      passing: an extractor returns the edges it pushed together with a
      [Completion] that tells whether an exception left its [case] body. *)

From Stdlib Require Import ZArith QArith Ascii String List Bool Lia.
From stdpp Require Import base option gmap strings.
Import ListNotations.

Local Open Scope string_scope.
Local Open Scope list_scope.

(* ===================================================================== *)
(** ** JavaScript string primitives used by the source *)
(* ===================================================================== *)

Module JsString.

(** [s ? … : …] on a string: the empty string is falsy. *)
Definition truthy (s : string) : bool :=
  match s with
  | EmptyString => false
  | String _ _ => true
  end.

(** [o && …] where [o] is a possibly-undefined string. *)
Definition truthyOpt (o : option string) : bool :=
  match o with
  | Some s => truthy s
  | None => false
  end.

(** [s.startsWith(p)]. *)
Fixpoint startsWith (s p : string) : bool :=
  match p, s with
  | EmptyString, _ => true
  | String _ _, EmptyString => false
  | String c p', String d s' => Ascii.eqb c d && startsWith s' p'
  end.

(** [s.includes(sub)]. *)
Fixpoint includes (s sub : string) : bool :=
  startsWith s sub ||
  match s with
  | EmptyString => false
  | String _ s' => includes s' sub
  end.

(** [s.endsWith(suf)]. *)
Fixpoint endsWith (s suf : string) : bool :=
  String.eqb s suf ||
  match s with
  | EmptyString => false
  | String _ s' => endsWith s' suf
  end.

(** [s.split(sep)] for a one-character separator: the pieces between the
    separators, at least one piece. *)
Fixpoint split (sep : ascii) (s : string) : list string :=
  match s with
  | EmptyString => [EmptyString]
  | String c s' =>
      if Ascii.eqb c sep then EmptyString :: split sep s'
      else
        match split sep s' with
        | piece :: rest => String c piece :: rest
        | [] => [String c EmptyString]
        end
  end.

(** [s.split(sep).pop()]: the last piece. *)
Definition splitPop (sep : ascii) (s : string) : string :=
  List.last (split sep s) EmptyString.

(** [arr.includes(x)] on an array of strings. *)
Definition arrIncludes (arr : list string) (x : string) : bool :=
  existsb (String.eqb x) arr.

(** The character ['|'] occurs in [s]. *)
Fixpoint hasBar (s : string) : bool :=
  match s with
  | EmptyString => false
  | String c s' => Ascii.eqb c "|" || hasBar s'
  end.

End JsString.
Export JsString.

(* ===================================================================== *)
(** ** Data model ([src/types/aws.ts]) *)
(* ===================================================================== *)

(** [AWSResourceType]. *)
Inductive AWSResourceType :=
| ecs | aurora | aurora_instance | lambda | ec2
| stepfunctions | apigateway | eventbridge | alb | nlb.

(** [RelationshipType], with the string each constant stands for. *)
Inductive RelationshipType :=
| ROUTES_TO | DEPENDS_ON | TRIGGERS | CONNECTS_TO | PART_OF | INSTANCE_OF.

Definition relTypeString (t : RelationshipType) : string :=
  match t with
  | ROUTES_TO => "routes_to"
  | DEPENDS_ON => "depends_on"
  | TRIGGERS => "triggers"
  | CONNECTS_TO => "connects_to"
  | PART_OF => "part_of"
  | INSTANCE_OF => "instance_of"
  end.

(** The [direction] argument of [processSecurityGroupRule]. *)
Inductive Direction := inbound | outbound.

(** The part of [details] the discovery reads: [details.clusterName] and
    [details.networkConfiguration.awsvpcConfiguration.securityGroups]
    ([None] when any link of that chain is missing). *)
Record Details := {
  clusterName : option string;
  networkSecurityGroups : option (list string)
}.

Inductive ResourceStatus := running | stopped | pending | terminated.

Record AWSResource := {
  id : string;
  name : string;
  type : AWSResourceType;
  status : ResourceStatus;
  application : string;
  region : string;
  tags : gmap string string;
  securityGroups : option (list string);
  clusterId : option string;
  details : option Details
}.

Record SecurityGroupRule := {
  protocol : option string;
  fromPort : option Z;
  toPort : option Z;
  securityGroupId : string;
  direction : Direction
}.

(** The [metadata] bag, one constructor per shape the source builds. *)
Inductive Metadata :=
| MdProtocolPort (protocol : option string) (port : option Z)
| MdEventType (eventType : string)
| MdAccessType (accessType : string)
| MdMethodPath (method path : string)
| MdTargetId (targetId : option string)
| MdStateType (stateType : option string)
| MdSecurityGroups (source target : list string) (rules : list SecurityGroupRule).

(** [ResourceRelationship]; [relType] is the source's field [type]. *)
Record ResourceRelationship := {
  sourceId : string;
  targetId : string;
  relType : RelationshipType;
  metadata : option Metadata
}.

#[global] Instance AWSResourceType_eq_dec : EqDecision AWSResourceType.
Proof. solve_decision. Defined.
#[global] Instance RelationshipType_eq_dec : EqDecision RelationshipType.
Proof. solve_decision. Defined.
#[global] Instance Direction_eq_dec : EqDecision Direction.
Proof. solve_decision. Defined.

Definition typeEqb (a b : AWSResourceType) : bool := bool_decide (a = b).

(** [x === y] on two possibly-undefined strings. *)
Definition optStrEqb (a b : option string) : bool :=
  match a, b with
  | Some x, Some y => String.eqb x y
  | None, None => true
  | _, _ => false
  end.

(** [r.tags && r.tags.SecurityGroups]: the tag, when present and truthy. *)
Definition tagSecurityGroups (r : AWSResource) : option string :=
  match tags r !! "SecurityGroups" with
  | Some s => if truthy s then Some s else None
  | None => None
  end.

(** [r.details && … .securityGroups]. *)
Definition detailSecurityGroups (r : AWSResource) : option (list string) :=
  match details r with
  | Some d => networkSecurityGroups d
  | None => None
  end.

(** [r.details?.clusterName]. *)
Definition detailClusterName (r : AWSResource) : option string :=
  match details r with
  | Some d => clusterName d
  | None => None
  end.

(* ===================================================================== *)
(** ** The cloud provider: answers of the remote calls *)
(* ===================================================================== *)

Record TargetGroup := {
  TargetGroupArn : string;
  Protocol : option string
}.

(** A [TargetHealthDescription], flattened to the fields of its [Target]
    that the source reads. *)
Record TargetHealthDescription := {
  Target_Id : string;
  Target_Port : option Z;
  Target_AvailabilityZone : option string
}.

(** A statement of a function's resource policy: [Principal.Service],
    [Condition.ArnLike['AWS:SourceArn']], [Condition.ArnEquals['AWS:SourceArn']]. *)
Record PolicyStatement := {
  Principal_Service : option string;
  ArnLike_SourceArn : option string;
  ArnEquals_SourceArn : option string
}.

(** An item of [GetResources]: its path and, per method in the order of
    [Object.entries], [methodIntegration.uri]. *)
Record ApiResourceItem := {
  itemPath : string;
  resourceMethods : option (list (string * option string))
}.

Record EventTarget := {
  Id : option string;
  Arn : option string
}.

(** An [IpPermission]; [UserIdGroupPairs] lists the [GroupId] of each
    pair. *)
Record IpPermission := {
  IpProtocol : option string;
  FromPort : option Z;
  ToPort : option Z;
  UserIdGroupPairs : option (list string)
}.

Record SecurityGroup := {
  GroupId : string;
  IpPermissions : list IpPermission;
  IpPermissionsEgress : list IpPermission
}.

(** One field per command sent by the helpers; the first argument is the
    region the client was created for.  [None]: the call (or the creation
    of its client, or the parsing of its answer) threw. *)
Record Provider := {
  describeTargetGroups : string -> string -> option (list TargetGroup);
  describeTargetHealth : string -> string -> option (list TargetHealthDescription);
  getPolicy : string -> string -> option (list PolicyStatement);
  getFunction : string -> string -> option (list (string * string));
  getResources : string -> string -> option (list ApiResourceItem);
  listTargetsByRule : string -> string -> option (list EventTarget);
  describeSecurityGroups : string -> list string -> option (list SecurityGroup)
}.

(* ===================================================================== *)
(** ** Helpers of the discovery *)
(* ===================================================================== *)

Record LbTarget := {
  lbTargetId : string;
  lbPort : option Z;
  lbProtocol : option string;
  lbClusterName : option string
}.

Record LambdaTrigger := { sourceArn : string; eventType : string }.
Record LambdaDependency := { targetArn : string; accessType : string }.
Record ApiIntegration := { uri : string; method : string; path : string }.
Record StepTarget := { stepArn : string; stateType : option string }.

Section Helpers.

Variable P : Provider.

(** The two nested loops of [getLoadBalancerTargets]; a throwing
    [DescribeTargetHealth] leaves the [try] block. *)
Fixpoint collectLbTargets (rgn : string) (groups : list TargetGroup)
  : option (list LbTarget) :=
  match groups with
  | [] => Some []
  | tg :: rest =>
      match describeTargetHealth P rgn (TargetGroupArn tg) with
      | None => None
      | Some descriptions =>
          match collectLbTargets rgn rest with
          | None => None
          | Some more =>
              Some (map (fun d => {| lbTargetId := Target_Id d;
                                     lbPort := Target_Port d;
                                     lbProtocol := Protocol tg;
                                     lbClusterName := Target_AvailabilityZone d |})
                        descriptions ++ more)
          end
      end
  end.

Definition getLoadBalancerTargets (loadBalancer : AWSResource) : list LbTarget :=
  match describeTargetGroups P (region loadBalancer) (id loadBalancer) with
  | None => []
  | Some groups =>
      match collectLbTargets (region loadBalancer) groups with
      | None => []
      | Some targets => targets
      end
  end.

(** [a || b] on two possibly-undefined strings. *)
Definition orElse (a b : option string) : option string :=
  if truthyOpt a then a else b.

Definition statementTrigger (st : PolicyStatement) : list LambdaTrigger :=
  match Principal_Service st with
  | Some service =>
      if truthy service then
        match orElse (ArnLike_SourceArn st) (ArnEquals_SourceArn st) with
        | Some arn =>
            if truthy arn then [ {| sourceArn := arn; eventType := service |} ]
            else []
        | None => []
        end
      else []
  | None => []
  end.

Definition getLambdaTriggers (fn : AWSResource) : list LambdaTrigger :=
  match getPolicy P (region fn) (name fn) with
  | None => []
  | Some statements => flat_map statementTrigger statements
  end.

Definition getLambdaDependencies (fn : AWSResource) : list LambdaDependency :=
  match getFunction P (region fn) (name fn) with
  | None => []
  | Some envVars =>
      flat_map (fun kv : string * string =>
                  if includes (snd kv) "arn:aws"
                  then [ {| targetArn := snd kv; accessType := "environment" |} ]
                  else [])
               envVars
  end.

Definition itemIntegrations (item : ApiResourceItem) : list ApiIntegration :=
  flat_map (fun m : string * option string =>
              match snd m with
              | Some u =>
                  if truthy u
                  then [ {| uri := u; method := fst m; path := itemPath item |} ]
                  else []
              | None => []
              end)
           (match resourceMethods item with Some ms => ms | None => [] end).

Definition getApiGatewayIntegrations (api : AWSResource) : list ApiIntegration :=
  match getResources P (region api) (splitPop "/" (id api)) with
  | None => []
  | Some items => flat_map itemIntegrations items
  end.

Definition getEventBridgeTargets (rule : AWSResource) : list EventTarget :=
  match listTargetsByRule P (region rule) (name rule) with
  | None => []
  | Some targets => targets
  end.

Definition getStepFunctionTargets (_ : AWSResource) : list StepTarget := [].

End Helpers.

(* ===================================================================== *)
(** ** Security-group cross-reference resolver *)
(* ===================================================================== *)

Definition mockSecurityGroupId : string := "sg-0123456789abcdef0".
Definition mockSecurityGroupIds : list string := [mockSecurityGroupId].

Definition mkRel (s t : string) (ty : RelationshipType) (md : option Metadata)
  : ResourceRelationship :=
  {| sourceId := s; targetId := t; relType := ty; metadata := md |}.

(** The group ids [getSecurityGroupConnections] resolves for a resource:
    its own field, else the [SecurityGroups] tag, else the network
    configuration of its details, else none. *)
Definition resolvedSecurityGroupIds (resource : AWSResource) : list string :=
  match securityGroups resource with
  | Some ids => ids
  | None =>
      match tagSecurityGroups resource with
      | Some s => split "," s
      | None =>
          match detailSecurityGroups resource with
          | Some ids => ids
          | None => []
          end
      end
  end.

(** The filter of [processSecurityGroupRule]: does [r] use group [g]? *)
Definition usesGroup (g : string) (r : AWSResource) : bool :=
  match securityGroups r with
  | Some ids => arrIncludes ids g
  | None =>
      match tagSecurityGroups r with
      | Some s => arrIncludes (split "," s) g
      | None =>
          match detailSecurityGroups r with
          | Some ids => arrIncludes ids g
          | None => false
          end
      end
  end.

Definition isFixtureDatabase (r : AWSResource) : bool :=
  String.eqb (name r) "database-2-instance-1" && String.eqb (application r) "test-app2".

Definition isFixtureService (r : AWSResource) : bool :=
  String.eqb (name r) "service-test-2" && String.eqb (application r) "test-app2".

(** The edge pushed at the head of [processSecurityGroupRule] for the
    fixture database. *)
Definition mockRuleConnections (sourceResource : AWSResource)
    (allResources : list AWSResource) (sourceGroupId : string)
  : list ResourceRelationship :=
  if isFixtureDatabase sourceResource then
    match List.find (fun r => typeEqb (type r) ecs
                              && String.eqb (application r) "test-app2"
                              && String.eqb (name r) "service-test-2")
                    allResources with
    | Some ecsService =>
        [ mkRel (id ecsService) (id sourceResource) CONNECTS_TO
            (Some (MdSecurityGroups [mockSecurityGroupId] [sourceGroupId]
                     [ {| protocol := Some "tcp"; fromPort := Some 3306%Z;
                          toPort := Some 3306%Z; securityGroupId := sourceGroupId;
                          direction := inbound |} ])) ]
    | None => []
    end
  else [].

(** The group ids a rule refers to: [rule.UserIdGroupPairs || []]. *)
Definition referencedGroups (rule : IpPermission) : list string :=
  match UserIdGroupPairs rule with Some refs => refs | None => [] end.

(** The edge built for one resource that uses the referenced group. *)
Definition ruleConnection (rule : IpPermission) (sourceResource : AWSResource)
    (sourceGroupId : string) (dir : Direction) (refGroupId : string)
    (targetResource : AWSResource) : ResourceRelationship :=
  mkRel (match dir with inbound => id targetResource | outbound => id sourceResource end)
        (match dir with inbound => id sourceResource | outbound => id targetResource end)
        CONNECTS_TO
        (Some (MdSecurityGroups
                 (match dir with inbound => [refGroupId] | outbound => [sourceGroupId] end)
                 (match dir with inbound => [sourceGroupId] | outbound => [refGroupId] end)
                 [ {| protocol := IpProtocol rule; fromPort := FromPort rule;
                      toPort := ToPort rule; securityGroupId := refGroupId;
                      direction := dir |} ])).

(** The loop over the referenced groups. *)
Definition referenceConnections (rule : IpPermission) (sourceResource : AWSResource)
    (allResources : list AWSResource) (sourceGroupId : string) (dir : Direction)
  : list ResourceRelationship :=
  flat_map
    (fun refGroupId =>
       flat_map
         (fun targetResource =>
            if String.eqb (id targetResource) (id sourceResource) then []
            else [ruleConnection rule sourceResource sourceGroupId dir refGroupId targetResource])
         (List.filter (usesGroup refGroupId) allResources))
    (referencedGroups rule).

Definition processSecurityGroupRule (rule : IpPermission) (sourceResource : AWSResource)
    (allResources : list AWSResource) (sourceGroupId : string) (dir : Direction)
  : list ResourceRelationship :=
  mockRuleConnections sourceResource allResources sourceGroupId
  ++ referenceConnections rule sourceResource allResources sourceGroupId dir.

Definition hasMockSecurityGroups (securityGroupIds : list string) : bool :=
  existsb (fun g => arrIncludes mockSecurityGroupIds g) securityGroupIds.

(** The branch taken when one of the resolved ids is the mock id. *)
Definition mockConnections (resource : AWSResource) (allResources : list AWSResource)
  : list ResourceRelationship :=
  if isFixtureDatabase resource then []
  else if isFixtureService resource then
    match List.find (fun r => typeEqb (type r) aurora_instance
                              && String.eqb (name r) "database-2-instance-1")
                    allResources with
    | Some dbInstance =>
        [ mkRel (id resource) (id dbInstance) CONNECTS_TO
            (Some (MdSecurityGroups [mockSecurityGroupId]
                     (match securityGroups dbInstance with Some g => g | None => [] end)
                     [ {| protocol := Some "tcp"; fromPort := Some 3306%Z;
                          toPort := Some 3306%Z; securityGroupId := mockSecurityGroupId;
                          direction := outbound |} ])) ]
    | None => []
    end
  else [].

(** The rules of one described group: inbound rules first, then outbound. *)
Definition groupConnections (resource : AWSResource) (allResources : list AWSResource)
    (sg : SecurityGroup) : list ResourceRelationship :=
  flat_map (fun rule => processSecurityGroupRule rule resource allResources (GroupId sg) inbound)
           (IpPermissions sg)
  ++ flat_map (fun rule => processSecurityGroupRule rule resource allResources (GroupId sg) outbound)
              (IpPermissionsEgress sg).

Definition getSecurityGroupConnections (P : Provider) (resource : AWSResource)
    (allResources : list AWSResource) : list ResourceRelationship :=
  let securityGroupIds := resolvedSecurityGroupIds resource in
  match securityGroupIds with
  | [] => []
  | _ :: _ =>
      if hasMockSecurityGroups securityGroupIds then mockConnections resource allResources
      else
        match describeSecurityGroups P (region resource) securityGroupIds with
        | None => []
        | Some groups => flat_map (groupConnections resource allResources) groups
        end
  end.

(* ===================================================================== *)
(** ** Type-specific extractors and the discovery loop *)
(* ===================================================================== *)

(** How the body of a [case] was left: normally, or by an exception that
    the [catch] of the loop logs and swallows. *)
Inductive Completion := Normal | Thrown.

(** [{ ...resource, securityGroups: ids }]. *)
Definition withSecurityGroups (resource : AWSResource) (ids : list string) : AWSResource :=
  {| id := id resource; name := name resource; type := type resource;
     status := status resource; application := application resource; region := region resource;
     tags := tags resource; securityGroups := Some ids;
     clusterId := clusterId resource; details := details resource |}.

Definition instanceOf (instance cluster : AWSResource) : ResourceRelationship :=
  mkRel (id instance) (id cluster) INSTANCE_OF None.

(** The re-targeting of an instance's connection to its cluster. *)
Definition retarget (instance cluster : AWSResource) (connection : ResourceRelationship)
  : ResourceRelationship :=
  {| sourceId := if String.eqb (sourceId connection) (id instance)
                 then id cluster else sourceId connection;
     targetId := if String.eqb (targetId connection) (id instance)
                 then id cluster else targetId connection;
     relType := relType connection;
     metadata := metadata connection |}.

Definition nonEmpty {A} (l : list A) : bool :=
  match l with [] => false | _ :: _ => true end.

(** The callback of [find] in the [aurora-instance] case: a cluster whose
    id is the declared [clusterId] or ends with [:cluster:<clusterId>]. *)
Definition isParentCluster (cid : string) (r : AWSResource) : bool :=
  typeEqb (type r) aurora
  && (String.eqb (id r) cid || endsWith (id r) (":cluster:" +:+ cid)).

Section Extractors.

Variable P : Provider.
Variable allResources : list AWSResource.

Definition loadBalancerEdges (resource : AWSResource) : list ResourceRelationship :=
  flat_map
    (fun target =>
       match List.find (fun r => (typeEqb (type r) ec2 && String.eqb (id r) (lbTargetId target))
                                 || (typeEqb (type r) ecs
                                     && optStrEqb (detailClusterName r) (lbClusterName target)))
                       allResources with
       | Some targetResource =>
           [ mkRel (id resource) (id targetResource) ROUTES_TO
               (Some (MdProtocolPort (lbProtocol target) (lbPort target))) ]
       | None => []
       end)
    (getLoadBalancerTargets P resource).

Definition lambdaTriggerEdges (resource : AWSResource) : list ResourceRelationship :=
  flat_map
    (fun trigger =>
       match List.find (fun r => String.eqb (id r) (sourceArn trigger)) allResources with
       | Some triggerResource =>
           [ mkRel (id triggerResource) (id resource) TRIGGERS
               (Some (MdEventType (eventType trigger))) ]
       | None => []
       end)
    (getLambdaTriggers P resource).

Definition lambdaDependencyEdges (resource : AWSResource) : list ResourceRelationship :=
  flat_map
    (fun dependency =>
       match List.find (fun r => String.eqb (id r) (targetArn dependency)) allResources with
       | Some dependencyResource =>
           [ mkRel (id resource) (id dependencyResource) DEPENDS_ON
               (Some (MdAccessType (accessType dependency))) ]
       | None => []
       end)
    (getLambdaDependencies P resource).

Definition apiGatewayEdges (resource : AWSResource) : list ResourceRelationship :=
  flat_map
    (fun integration =>
       match List.find (fun r => typeEqb (type r) lambda && includes (uri integration) (id r))
                       allResources with
       | Some targetResource =>
           [ mkRel (id resource) (id targetResource) TRIGGERS
               (Some (MdMethodPath (method integration) (path integration))) ]
       | None => []
       end)
    (getApiGatewayIntegrations P resource).

(** The loop over the targets of a rule.  [target.arn.includes(r.id)] is
    evaluated inside the callback of [find]: with an undefined [arn] it
    throws as soon as the callback runs, that is, unless [allResources] is
    empty.  The edges pushed before stay in [relationships]. *)
Fixpoint eventBridgeLoop (resource : AWSResource) (targets : list EventTarget)
  : list ResourceRelationship * Completion :=
  match targets with
  | [] => ([], Normal)
  | target :: rest =>
      match Arn target with
      | None =>
          match allResources with
          | [] => eventBridgeLoop resource rest
          | _ :: _ => ([], Thrown)
          end
      | Some arn =>
          let pushed :=
            match List.find (fun r => includes arn (id r)) allResources with
            | Some targetResource =>
                [ mkRel (id resource) (id targetResource) TRIGGERS
                    (Some (MdTargetId (Id target))) ]
            | None => []
            end in
          let '(more, completion) := eventBridgeLoop resource rest in
          (pushed ++ more, completion)
      end
  end.

Definition ec2Edges (resource : AWSResource) : list ResourceRelationship :=
  map (fun connection =>
         mkRel (id resource) (targetId connection) CONNECTS_TO
               (Some (MdProtocolPort None None)))
      (getSecurityGroupConnections P resource allResources).

(** [aurora]: the instances that name this cluster by id or by the last
    [':']-separated piece of its id. *)
Definition clusterInstances (resource : AWSResource) : list AWSResource :=
  List.filter (fun r => typeEqb (type r) aurora_instance
                        && (optStrEqb (clusterId r) (Some (id resource))
                            || optStrEqb (clusterId r) (Some (splitPop ":" (id resource)))))
              allResources.

Definition nameBasedInstances (resource : AWSResource) : list AWSResource :=
  List.filter (fun r => typeEqb (type r) aurora_instance
                        && optStrEqb (clusterId r) (Some (name resource)))
              allResources.

Definition auroraInstanceOfEdges (resource : AWSResource) : list ResourceRelationship :=
  map (fun instance => instanceOf instance resource) (clusterInstances resource)
  ++ map (fun instance => instanceOf instance resource)
         (List.filter (fun instance =>
                         negb (existsb (fun ci => String.eqb (id ci) (id instance))
                                       (clusterInstances resource)))
                      (nameBasedInstances resource)).

Definition auroraClusterSecurityGroups (resource : AWSResource) : list string :=
  match securityGroups resource with
  | Some ids => ids
  | None =>
      match tagSecurityGroups resource with
      | Some s => split "," s
      | None => []
      end
  end.

Definition auroraConnectionEdges (resource : AWSResource) : list ResourceRelationship :=
  if nonEmpty (auroraClusterSecurityGroups resource) then
    getSecurityGroupConnections P
      (withSecurityGroups resource (auroraClusterSecurityGroups resource)) allResources
  else
    flat_map
      (fun instance =>
         map (retarget instance resource)
             (getSecurityGroupConnections P instance allResources))
      (List.filter (fun instance =>
                      match securityGroups instance with
                      | Some ids => nonEmpty ids
                      | None => false
                      end)
                   (clusterInstances resource)).

Definition auroraInstanceParentEdges (resource : AWSResource) : list ResourceRelationship :=
  match clusterId resource with
  | Some cid =>
      if truthy cid then
        match List.find (isParentCluster cid) allResources with
        | Some parentCluster => [instanceOf resource parentCluster]
        | None => []
        end
      else []
  | None => []
  end.

Definition ecsSecurityGroups (resource : AWSResource) : list string :=
  match detailSecurityGroups resource with
  | Some ids => ids
  | None =>
      match tagSecurityGroups resource with
      | Some s => split "," s
      | None => []
      end
  end.

Definition ecsEdges (resource : AWSResource) : list ResourceRelationship :=
  if nonEmpty (ecsSecurityGroups resource) then
    getSecurityGroupConnections P
      (withSecurityGroups resource (ecsSecurityGroups resource)) allResources
  else [].

Definition stepFunctionEdges (resource : AWSResource) : list ResourceRelationship :=
  flat_map
    (fun target =>
       match List.find (fun r => includes (stepArn target) (id r)) allResources with
       | Some targetResource =>
           [ mkRel (id resource) (id targetResource) TRIGGERS
               (Some (MdStateType (stateType target))) ]
       | None => []
       end)
    (getStepFunctionTargets resource).

(** The [switch (resource.type)] of the loop body: the edges pushed onto
    [relationships] while [resource] is processed, and how the body ended. *)
Definition extract (resource : AWSResource) : list ResourceRelationship * Completion :=
  match type resource with
  | alb | nlb => (loadBalancerEdges resource, Normal)
  | lambda => (lambdaTriggerEdges resource ++ lambdaDependencyEdges resource, Normal)
  | apigateway => (apiGatewayEdges resource, Normal)
  | eventbridge => eventBridgeLoop resource (getEventBridgeTargets P resource)
  | ec2 => (ec2Edges resource, Normal)
  | aurora => (auroraInstanceOfEdges resource ++ auroraConnectionEdges resource, Normal)
  | aurora_instance =>
      (auroraInstanceParentEdges resource
       ++ getSecurityGroupConnections P resource allResources, Normal)
  | ecs => (ecsEdges resource, Normal)
  | stepfunctions => (stepFunctionEdges resource, Normal)
  end.

(** One iteration of [for (const resource of resourcesOfInterest)]: the
    [try] body pushes, the [catch] only logs. *)
Definition processResource (relationships : list ResourceRelationship)
    (resource : AWSResource) : list ResourceRelationship :=
  match extract resource with
  | (pushed, Normal) => relationships ++ pushed
  | (pushed, Thrown) => relationships ++ pushed
  end.

End Extractors.

(** The key of the deduplication map. *)
Definition relationshipKey (rel : ResourceRelationship) : string :=
  sourceId rel +:+ "|" +:+ targetId rel +:+ "|" +:+ relTypeString (relType rel).

(** The deduplication loop: [relationshipMap] is the [Map] of keys seen so
    far, the result is what is pushed onto [uniqueRelationships]. *)
Fixpoint deduplicate (relationshipMap : gmap string ResourceRelationship)
    (relationships : list ResourceRelationship) : list ResourceRelationship :=
  match relationships with
  | [] => []
  | rel :: rest =>
      match relationshipMap !! relationshipKey rel with
      | Some _ => deduplicate relationshipMap rest
      | None => rel :: deduplicate (<[relationshipKey rel := rel]> relationshipMap) rest
      end
  end.

(** [focusResources || allResources]: an array is truthy also when empty. *)
Definition resourcesOfInterest (allResources : list AWSResource)
    (focusResources : option (list AWSResource)) : list AWSResource :=
  match focusResources with
  | Some focus => focus
  | None => allResources
  end.

(** [relationships] at the end of the discovery loop. *)
Definition discoveredRelationships (P : Provider) (allResources : list AWSResource)
    (focusResources : option (list AWSResource)) : list ResourceRelationship :=
  fold_left (processResource P allResources)
            (resourcesOfInterest allResources focusResources) [].

Definition discoverResourceRelationships (P : Provider) (allResources : list AWSResource)
    (focusResources : option (list AWSResource)) : list ResourceRelationship :=
  deduplicate ∅ (discoveredRelationships P allResources focusResources).

(* ===================================================================== *)
(** ** The renderer: data preparation of [ResourceDependencyGraph] *)
(* ===================================================================== *)

Record GraphProps := {
  resources : list AWSResource;
  relationships : list ResourceRelationship;
  externalResources : list AWSResource;
  showExternalResources : bool
}.

Record D3Node := {
  nodeId : string;
  nodeName : string;
  nodeType : AWSResourceType;
  nodeApplication : string;
  nodeStatus : ResourceStatus;
  isExternal : bool;
  nodeResource : AWSResource
}.

Record D3Link := {
  linkSource : D3Node;
  linkTarget : D3Node;
  linkType : RelationshipType;
  linkRelationship : ResourceRelationship
}.

(** [new Set(resources.map(r => r.id))]. *)
Definition resourceIdSet (rs : list AWSResource) : gset string :=
  list_to_set (map id rs).

Definition hasId (i : string) (r : AWSResource) : bool := String.eqb (id r) i.

(** [externalResources.find(…)] followed by the guarded
    [graphResources.push(externalResource)]. *)
Definition addExternal (externals : list AWSResource) (i : string)
    (graphResources : list AWSResource) : list AWSResource :=
  match List.find (hasId i) externals with
  | Some externalResource =>
      if existsb (hasId (id externalResource)) graphResources then graphResources
      else graphResources ++ [externalResource]
  | None => graphResources
  end.

(** The callback of [relationshipsArray.filter]: it may push onto
    [graphResources] and answers whether the relationship is kept. *)
Definition keepRelationship (props : GraphProps) (resourceIds : gset string)
    (graphResources : list AWSResource) (rel : ResourceRelationship)
  : list AWSResource * bool :=
  let sourceInApp := bool_decide (sourceId rel ∈ resourceIds) in
  let targetInApp := bool_decide (targetId rel ∈ resourceIds) in
  if showExternalResources props then
    if negb sourceInApp && targetInApp then
      (addExternal (externalResources props) (sourceId rel) graphResources, true)
    else if sourceInApp && negb targetInApp then
      (addExternal (externalResources props) (targetId rel) graphResources, true)
    else (graphResources, sourceInApp && targetInApp)
  else (graphResources, sourceInApp && targetInApp).

(** The whole [filter] call, threading [graphResources] through it. *)
Fixpoint filterRelationships (props : GraphProps) (resourceIds : gset string)
    (graphResources : list AWSResource) (rels : list ResourceRelationship)
  : list AWSResource * list ResourceRelationship :=
  match rels with
  | [] => (graphResources, [])
  | rel :: rest =>
      let '(graphResources', keep) := keepRelationship props resourceIds graphResources rel in
      let '(final, kept) := filterRelationships props resourceIds graphResources' rest in
      (final, if keep then rel :: kept else kept)
  end.

Definition graphData (props : GraphProps) : list AWSResource * list ResourceRelationship :=
  filterRelationships props (resourceIdSet (resources props)) (resources props)
                      (relationships props).

Definition graphResources (props : GraphProps) : list AWSResource := fst (graphData props).
Definition relevantRelationships (props : GraphProps) : list ResourceRelationship :=
  snd (graphData props).

Definition makeNode (props : GraphProps) (resource : AWSResource) : D3Node :=
  {| nodeId := id resource; nodeName := name resource; nodeType := type resource;
     nodeApplication := application resource; nodeStatus := status resource;
     isExternal := negb (existsb (hasId (id resource)) (resources props));
     nodeResource := resource |}.

Definition makeNodes (props : GraphProps) : list D3Node :=
  map (makeNode props) (graphResources props).

(** The [map] step of [links]: [null] when an endpoint has no node. *)
Definition makeLink (nodes : list D3Node) (rel : ResourceRelationship) : option D3Link :=
  match List.find (fun n => String.eqb (nodeId n) (sourceId rel)) nodes,
        List.find (fun n => String.eqb (nodeId n) (targetId rel)) nodes with
  | Some source, Some target =>
      Some {| linkSource := source; linkTarget := target;
              linkType := relType rel; linkRelationship := rel |}
  | _, _ => None
  end.

(** [.map(…).filter(link => link !== null)]. *)
Definition makeLinks (nodes : list D3Node) (rels : list ResourceRelationship) : list D3Link :=
  flat_map (fun rel => match makeLink nodes rel with Some l => [l] | None => [] end) rels.

(** What one run of the effect decides, given a mounted container.  The
    drawing itself (the calls into d3 after the nodes and links are built)
    is not part of the embedding; with resources and relationships of the
    declared types nothing before it throws, so the [catch] of the effect
    is not reached. *)
Inductive RenderResult :=
| ShowMessage (message : string)
| DrawGraph (nodes : list D3Node) (links : list D3Link).

Definition renderGraph (props : GraphProps) : RenderResult :=
  match graphResources props with
  | [] => ShowMessage "No resources to display"
  | _ :: _ =>
      match relevantRelationships props with
      | [] => ShowMessage "No relationships found between resources"
      | _ :: _ =>
          DrawGraph (makeNodes props) (makeLinks (makeNodes props) (relevantRelationships props))
      end
  end.

(** The component state is [message]; the container [div] (and with it
    [containerRef.current]) exists exactly when [message] is falsy. *)
Definition containerMounted (message : option string) : bool := negb (truthyOpt message).

(** One run of the effect: nothing happens without a container; otherwise
    the message is set or cleared. *)
Definition runEffect (props : GraphProps) (message : option string) : option string :=
  if containerMounted message then
    match renderGraph props with
    | ShowMessage m => Some m
    | DrawGraph _ _ => None
    end
  else message.

(** First render of the component: [useState(null)], then the effect. *)
Definition mountComponent (props : GraphProps) : option string := runEffect props None.

(** The triple the specification deduplicates on. *)
Definition triple (rel : ResourceRelationship) : string * string * RelationshipType :=
  (sourceId rel, targetId rel, relType rel).

(** ** Predicates used in the statements *)

(** [i] is the id of a resource of the inventory. *)
Definition knownId (allResources : list AWSResource) (i : string) : Prop :=
  In i (map id allResources).

(** The edge has [r] at one of its ends. *)
Definition touches (r : AWSResource) (e : ResourceRelationship) : Prop :=
  sourceId e = id r \/ targetId e = id r.

(** The edge joins [r] to a resource of the inventory. *)
Definition anchored (allResources : list AWSResource) (r : AWSResource)
    (e : ResourceRelationship) : Prop :=
  (sourceId e = id r /\ knownId allResources (targetId e))
  \/ (targetId e = id r /\ knownId allResources (sourceId e)).

(** Each end of the edge is [r] or a resource of the inventory. *)
Definition resolved (allResources : list AWSResource) (r : AWSResource)
    (e : ResourceRelationship) : Prop :=
  (sourceId e = id r \/ knownId allResources (sourceId e))
  /\ (targetId e = id r \/ knownId allResources (targetId e)).

(** The focus subset, when given, is drawn from the full set. *)
Definition focusWithin (allResources : list AWSResource)
    (focusResources : option (list AWSResource)) : Prop :=
  match focusResources with
  | Some focus => incl focus allResources
  | None => True
  end.

(** The deduplication as the specification words it: at most one returned
    edge per triple, and for every emitted edge the first emitted edge with
    its triple is the one, and the only one, returned. *)
Definition firstEmittedWins (P : Provider) (S : list AWSResource)
    (F : option (list AWSResource)) : Prop :=
  List.NoDup (map triple (discoverResourceRelationships P S F))
  /\ forall e, In e (discoveredRelationships P S F) ->
       exists pre e1 post,
         discoveredRelationships P S F = pre ++ e1 :: post
         /\ triple e1 = triple e
         /\ (forall x, In x pre -> triple x <> triple e)
         /\ In e1 (discoverResourceRelationships P S F)
         /\ forall e2, In e2 (discoverResourceRelationships P S F) ->
                       triple e2 = triple e -> e2 = e1.

(** The scoping as the specification words its second half: every edge of
    the whole graph that joins a focus resource to a resource outside the
    focus is returned by the focused discovery. *)
Definition externalEdgesIncluded (P : Provider) (S F : list AWSResource) : Prop :=
  forall e r x,
    In e (discoverResourceRelationships P S None) ->
    In r F -> In x S -> ~ In x F ->
    (sourceId e = id r /\ targetId e = id x) \/ (sourceId e = id x /\ targetId e = id r) ->
    In e (discoverResourceRelationships P S (Some F)).

(** The scoping the code implements.  The focus selects the extractors
    that run, each over the full set, and nothing is filtered afterwards:
    the focused discovery returns the deduplicated edges of the extractors
    of the focus resources, so every returned edge was pushed by one of
    them, and an edge that none of them pushes is not returned, also when
    the extractor of a resource outside the focus pushes it.  What it
    returns are, up to the metadata lost to deduplication, edges of the
    whole graph; each has a focus resource at one end and resources of the
    full set at both; and it holds the key of every edge that the extractor
    of a focus resource pushes. *)
Definition focusScoped (P : Provider) (S F : list AWSResource) : Prop :=
  discoverResourceRelationships P S (Some F)
  = deduplicate ∅ (flat_map (fun r => fst (extract P S r)) F)
  /\ (forall e, In e (discoverResourceRelationships P S (Some F)) ->
        exists r, In r F /\ In e (fst (extract P S r)))
  /\ (forall e, (forall r, In r F -> ~ In e (fst (extract P S r))) ->
        ~ In e (discoverResourceRelationships P S (Some F)))
  /\ (forall e, In e (discoverResourceRelationships P S (Some F)) ->
        exists e', In e' (discoverResourceRelationships P S None)
                   /\ relationshipKey e' = relationshipKey e)
  /\ (forall e, In e (discoverResourceRelationships P S (Some F)) ->
        exists r, In r F /\ touches r e)
  /\ (forall e, In e (discoverResourceRelationships P S (Some F)) ->
        knownId S (sourceId e) /\ knownId S (targetId e))
  /\ (forall r e, In r F -> In e (fst (extract P S r)) ->
        exists e', In e' (discoverResourceRelationships P S (Some F))
                   /\ relationshipKey e' = relationshipKey e).


(** The synthetic edge of the fixture service to the fixture database. *)
Definition serviceToDatabaseEdge (service dbInstance : AWSResource) : ResourceRelationship :=
  mkRel (id service) (id dbInstance) CONNECTS_TO
    (Some (MdSecurityGroups [mockSecurityGroupId]
             (match securityGroups dbInstance with Some g => g | None => [] end)
             [ {| protocol := Some "tcp"; fromPort := Some 3306%Z; toPort := Some 3306%Z;
                  securityGroupId := mockSecurityGroupId; direction := outbound |} ])).

(** The mirrored edge pushed while a rule of group [gid] of the fixture
    database is processed. *)
Definition databaseFromServiceEdge (service dbInstance : AWSResource) (gid : string)
  : ResourceRelationship :=
  mkRel (id service) (id dbInstance) CONNECTS_TO
    (Some (MdSecurityGroups [mockSecurityGroupId] [gid]
             [ {| protocol := Some "tcp"; fromPort := Some 3306%Z; toPort := Some 3306%Z;
                  securityGroupId := gid; direction := inbound |} ])).

(** The remote lookup of the resolver is made for [r] (it has groups, none
    of them the mock group) and answers with [groups]. *)
Definition securityGroupsDescribed (P : Provider) (r : AWSResource)
    (groups : list SecurityGroup) : Prop :=
  resolvedSecurityGroupIds r <> []
  /\ hasMockSecurityGroups (resolvedSecurityGroupIds r) = false
  /\ describeSecurityGroups P (region r) (resolvedSecurityGroupIds r) = Some groups.

(** [rule] is a rule of the group [sg] in the direction [dir]: an ingress
    rule ([IpPermissions]) for inbound, an egress rule
    ([IpPermissionsEgress]) for outbound. *)
Definition ruleOf (sg : SecurityGroup) (rule : IpPermission) (dir : Direction) : Prop :=
  match dir with
  | inbound => In rule (IpPermissions sg)
  | outbound => In rule (IpPermissionsEgress sg)
  end.




(** The hardcoded behaviour for a resource [r] holding the mock group id,
    over the inventory [all]. *)
Definition fixtureBehaviour (r : AWSResource) (all : list AWSResource) : Prop :=
  (* no remote lookup: the answer is the same whatever the provider does *)
  (forall P P', getSecurityGroupConnections P r all = getSecurityGroupConnections P' r all)
  (* the fixture service is connected to the fixture database, if there is one *)
  /\ (name r = "service-test-2" -> application r = "test-app2" ->
      (exists db, In db all /\ type db = aurora_instance
                  /\ name db = "database-2-instance-1") ->
      exists db, In db all /\ type db = aurora_instance
                 /\ name db = "database-2-instance-1"
                 /\ forall P, getSecurityGroupConnections P r all
                              = [serviceToDatabaseEdge r db])
  /\ (name r = "service-test-2" -> application r = "test-app2" ->
      (forall db, In db all -> type db = aurora_instance ->
                  name db <> "database-2-instance-1") ->
      forall P, getSecurityGroupConnections P r all = [])
  (* every other resource holding the mock id gets no connection *)
  /\ (~ (name r = "service-test-2" /\ application r = "test-app2") ->
      forall P, getSecurityGroupConnections P r all = []).

(** The mirrored edge: whenever a rule of the fixture database is
    processed and the fixture service is in the inventory.  Rules are
    processed for the database when it has groups of its own, none of them
    the mock group, and the provider describes them: then every rule of
    every described group, ingress or egress, yields the edge. *)
Definition mirroredFixtureEdge (P : Provider) (r : AWSResource) (all : list AWSResource)
  : Prop :=
  name r = "database-2-instance-1" -> application r = "test-app2" ->
  (exists svc, In svc all /\ type svc = ecs /\ application svc = "test-app2"
               /\ name svc = "service-test-2") ->
  exists svc, In svc all /\ type svc = ecs /\ application svc = "test-app2"
              /\ name svc = "service-test-2"
              /\ (forall rule gid dir,
                    In (databaseFromServiceEdge svc r gid)
                       (processSecurityGroupRule rule r all gid dir))
              /\ (forall groups sg rule dir,
                    securityGroupsDescribed P r groups ->
                    In sg groups -> ruleOf sg rule dir ->
                    In (databaseFromServiceEdge svc r (GroupId sg))
                       (getSecurityGroupConnections P r all)).

(** The extractors that cannot join a resource to itself: those that pair
    the resource with one of another type, and those that only use the
    rule matching of the resolver, which skips self-matches.  A cluster
    qualifies when it has no network-configuration groups of its own, so
    that the connections re-targeted from its instances cannot end at it. *)
Definition selfEdgeFree (r : AWSResource) : bool :=
  match type r with
  | alb | nlb | apigateway | stepfunctions | ecs | aurora_instance => true
  | aurora => match detailSecurityGroups r with None => true | Some _ => false end
  | lambda | eventbridge | ec2 => false
  end.

(** No returned edge joins a resource to itself. *)
Definition noSelfEdges (P : Provider) (S : list AWSResource)
    (F : option (list AWSResource)) : Prop :=
  forall e, In e (discoverResourceRelationships P S F) -> sourceId e <> targetId e.

(** Self-edges, edge by edge: every returned edge was pushed by the
    extractor of a resource under consideration; an edge pushed by an
    extractor that is [selfEdgeFree] never joins a resource to itself,
    whatever the other resources under consideration are; so a returned
    edge that does was pushed by one of the other extractors. *)
Definition noSelfEdgesFromGuarded (P : Provider) (S : list AWSResource)
    (F : option (list AWSResource)) : Prop :=
  (forall e, In e (discoverResourceRelationships P S F) ->
     exists r, In r (resourcesOfInterest S F) /\ In e (fst (extract P S r)))
  /\ (forall r e, In r (resourcesOfInterest S F) -> selfEdgeFree r = true ->
                  In e (fst (extract P S r)) -> sourceId e <> targetId e)
  /\ (forall e, In e (discoverResourceRelationships P S F) ->
        sourceId e = targetId e ->
        exists r, In r (resourcesOfInterest S F) /\ selfEdgeFree r = false
                  /\ In e (fst (extract P S r))).

(** The edge is pushed by the discovery loop, and the returned list holds
    it or an earlier edge with the same deduplication key. *)
Definition emittedAndReturned (P : Provider) (S : list AWSResource)
    (F : option (list AWSResource)) (e : ResourceRelationship) : Prop :=
  In e (discoveredRelationships P S F)
  /\ exists e', In e' (discoverResourceRelationships P S F)
                /\ relationshipKey e' = relationshipKey e.

(** Modelled on the words of the specification, for comparison with
    [isParentCluster]: the owning cluster of an instance is looked up by
    cluster id, then by the trailing segment of the cluster id, then by
    display name, in that order of priority. *)
Definition specParentCluster (S : list AWSResource) (cid : string) : option AWSResource :=
  match List.find (fun c => typeEqb (type c) aurora && String.eqb (id c) cid) S with
  | Some c => Some c
  | None =>
      match List.find (fun c => typeEqb (type c) aurora
                                && String.eqb (splitPop ":" (id c)) cid) S with
      | Some c => Some c
      | None => List.find (fun c => typeEqb (type c) aurora && String.eqb (name c) cid) S
      end
  end.

(** The claim on instances as the specification words it. *)
Definition instanceEdgeByPriority (P : Provider) (S : list AWSResource)
    (F : option (list AWSResource)) : Prop :=
  forall r cid c,
    In r (resourcesOfInterest S F) -> type r = aurora_instance ->
    clusterId r = Some cid -> specParentCluster S cid = Some c ->
    In (instanceOf r c) (discoverResourceRelationships P S F).

(** What the code does for instances and clusters. *)
Definition instanceEdges (P : Provider) (S : list AWSResource)
    (F : option (list AWSResource)) : Prop :=
  (* instance side: the first cluster, in inventory order, matched by id
     or by the suffix [:cluster:<clusterId>] of its id *)
  (forall r cid c,
      In r (resourcesOfInterest S F) -> type r = aurora_instance ->
      clusterId r = Some cid -> truthy cid = true ->
      List.find (isParentCluster cid) S = Some c ->
      emittedAndReturned P S F (instanceOf r c))
  (* cluster side: every instance naming the cluster by its id, by the last
     [':']-separated piece of its id, or by its display name *)
  /\ (forall c i,
        In c (resourcesOfInterest S F) -> type c = aurora ->
        In i S -> type i = aurora_instance ->
        clusterId i = Some (id c) \/ clusterId i = Some (splitPop ":" (id c))
        \/ clusterId i = Some (name c) ->
        emittedAndReturned P S F (instanceOf i c)).

(** The remote lookup of the resolver is made for [r] and throws. *)
Definition securityGroupLookupFails (P : Provider) (r : AWSResource) : Prop :=
  resolvedSecurityGroupIds r <> []
  /\ hasMockSecurityGroups (resolvedSecurityGroupIds r) = false
  /\ describeSecurityGroups P (region r) (resolvedSecurityGroupIds r) = None.

(** The claim on failures as the specification words it, for the lookup
    of the resolver: a failure leaves the resource without any edge. *)
Definition failureSilencesResource (P : Provider) (S : list AWSResource)
    (r : AWSResource) : Prop :=
  securityGroupLookupFails P r -> fst (extract P S r) = [].

(** Every lookup of target health made for the load balancer [r]: one of
    them throws. *)
Definition targetLookupFails (P : Provider) (r : AWSResource) : Prop :=
  describeTargetGroups P (region r) (id r) = None
  \/ exists groups tg,
       describeTargetGroups P (region r) (id r) = Some groups /\ In tg groups
       /\ describeTargetHealth P (region r) (TargetGroupArn tg) = None.

(** The lookups that the extractor of the cluster [r] makes for its
    connections throw: the lookup for its own groups when it has some,
    else the lookup for each of its instances that has groups. *)
Definition clusterLookupsFail (P : Provider) (S : list AWSResource) (r : AWSResource)
  : Prop :=
  match auroraClusterSecurityGroups r with
  | _ :: _ =>
      securityGroupLookupFails P (withSecurityGroups r (auroraClusterSecurityGroups r))
  | [] =>
      forall i g ids, In i (clusterInstances S r) -> securityGroups i = Some (g :: ids) ->
                      securityGroupLookupFails P i
  end.

(** What the code does on failures.  A lookup that throws contributes no
    edge.  For the extractors that have one lookup only, the resource gets
    no edge (a load balancer loses the targets of all its target groups
    when the health of one of them cannot be read).  For the others, the
    edges of the other lookup or of the inventory are pushed all the same:
    a function keeps its dependencies when its policy cannot be read and
    its triggers when its configuration cannot, an instance keeps the edge
    to its cluster and a cluster the edges of its instances when security
    groups cannot be described.  And the loop goes on: every edge pushed
    for a resource under consideration is returned, or an earlier edge
    with its key is, whatever failed for the others or for it. *)
Definition failuresContained (P : Provider) (S : list AWSResource)
    (F : option (list AWSResource)) : Prop :=
  (forall r, type r = alb \/ type r = nlb -> targetLookupFails P r ->
             extract P S r = ([], Normal))
  /\ (forall r, type r = apigateway ->
                getResources P (region r) (splitPop "/" (id r)) = None ->
                extract P S r = ([], Normal))
  /\ (forall r, type r = eventbridge ->
                listTargetsByRule P (region r) (name r) = None ->
                extract P S r = ([], Normal))
  /\ (forall r, type r = ec2 -> securityGroupLookupFails P r ->
                extract P S r = ([], Normal))
  /\ (forall r, type r = ecs ->
                securityGroupLookupFails P (withSecurityGroups r (ecsSecurityGroups r)) ->
                extract P S r = ([], Normal))
  /\ (forall r, type r = lambda -> getPolicy P (region r) (name r) = None ->
                extract P S r = (lambdaDependencyEdges P S r, Normal))
  /\ (forall r, type r = lambda -> getFunction P (region r) (name r) = None ->
                extract P S r = (lambdaTriggerEdges P S r, Normal))
  /\ (forall r, type r = aurora_instance -> securityGroupLookupFails P r ->
                extract P S r = (auroraInstanceParentEdges S r, Normal))
  /\ (forall r, type r = aurora -> clusterLookupsFail P S r ->
                extract P S r = (auroraInstanceOfEdges S r, Normal))
  /\ (forall r e, In r (resourcesOfInterest S F) -> In e (fst (extract P S r)) ->
                  emittedAndReturned P S F e).

(** Resource ids determine resources within the inventory. *)
Definition idsIdentify (allResources : list AWSResource) : Prop :=
  forall a b, In a allResources -> In b allResources -> id a = id b -> a = b.

(** No resource id of the inventory holds the separator of the
    deduplication key. *)
Definition barFreeIds (allResources : list AWSResource) : Prop :=
  forall r, In r allResources -> hasBar (id r) = false.

(* ===================================================================== *)
(** ** Concrete inventories and providers used in the examples *)
(* ===================================================================== *)

Module Fixtures.

(** A resource with nothing but identity: no tags, groups, cluster or details. *)
Definition bare (i n : string) (t : AWSResourceType) (app : string) : AWSResource :=
  {| id := i; name := n; type := t; status := running; application := app;
     region := "us-east-1"; tags := ∅; securityGroups := None;
     clusterId := None; details := None |}.

Definition withCluster (r : AWSResource) (cid : string) : AWSResource :=
  {| id := id r; name := name r; type := type r; status := status r;
     application := application r; region := region r; tags := tags r;
     securityGroups := securityGroups r; clusterId := Some cid; details := details r |}.

(** The provider whose every call throws. *)
Definition failingProvider : Provider :=
  {| describeTargetGroups := fun _ _ => None;
     describeTargetHealth := fun _ _ => None;
     getPolicy := fun _ _ => None;
     getFunction := fun _ _ => None;
     getResources := fun _ _ => None;
     listTargetsByRule := fun _ _ => None;
     describeSecurityGroups := fun _ _ => None |}.

(** The example of the specification: a cluster and its instance. *)
Definition ClusterA : AWSResource := bare "c1" "ClusterA" aurora "app".
Definition InstanceA : AWSResource :=
  withCluster (bare "i1" "InstanceA" aurora_instance "app") "c1".

(** A cluster that its instance names by display name only. *)
Definition ClusterB : AWSResource :=
  bare "arn:aws:rds:us-east-1:1:cluster:foo" "bar" aurora "shared".
Definition InstanceB : AWSResource :=
  withCluster (bare "i2" "InstanceB" aurora_instance "app") "bar".

(** Two instance/cluster pairs whose ids hold the key separator. *)
Definition BarInstance1 : AWSResource :=
  withCluster (bare "a|b" "I1" aurora_instance "app") "c".
Definition BarInstance2 : AWSResource :=
  withCluster (bare "a" "I2" aurora_instance "app") "b|c".
Definition BarCluster1 : AWSResource := bare "c" "C1" aurora "app".
Definition BarCluster2 : AWSResource := bare "b|c" "C2" aurora "app".
Definition barInventory : list AWSResource :=
  [BarInstance1; BarInstance2; BarCluster1; BarCluster2].

(** Two compute resources: the group of [R1] is referenced by an ingress
    rule, port 3306/tcp, of the group of [R2]. *)
Definition R1 : AWSResource := withSecurityGroups (bare "r1" "R1" ec2 "app") ["sg-1"].
Definition R2 : AWSResource := withSecurityGroups (bare "r2" "R2" ec2 "app") ["sg-2"].

Definition ingress3306 : IpPermission :=
  {| IpProtocol := Some "tcp"; FromPort := Some 3306%Z; ToPort := Some 3306%Z;
     UserIdGroupPairs := Some ["sg-1"] |}.

Definition describeGroup (g : string) : list SecurityGroup :=
  if String.eqb g "sg-2" then
    [ {| GroupId := "sg-2"; IpPermissions := [ingress3306]; IpPermissionsEgress := [] |} ]
  else if String.eqb g "sg-1" then
    [ {| GroupId := "sg-1"; IpPermissions := []; IpPermissionsEgress := [] |} ]
  else [].

(** A provider that knows the two groups and fails on everything else. *)
Definition groupProvider : Provider :=
  {| describeTargetGroups := fun _ _ => None;
     describeTargetHealth := fun _ _ => None;
     getPolicy := fun _ _ => None;
     getFunction := fun _ _ => None;
     getResources := fun _ _ => None;
     listTargetsByRule := fun _ _ => None;
     describeSecurityGroups := fun _ ids => Some (flat_map describeGroup ids) |}.

(** The fixture pair of the source: the mock service, holding the mock
    group in its network configuration, and the database instance. *)
Definition ServiceTest2 : AWSResource :=
  {| id := "arn:aws:ecs:us-east-1:058264551148:service/devclust/service-test-2";
     name := "service-test-2"; type := ecs; status := running;
     application := "test-app2"; region := "us-east-1";
     tags := <["app" := "test-app2"]> ∅; securityGroups := None; clusterId := None;
     details := Some {| clusterName := Some "devclust";
                        networkSecurityGroups := Some [mockSecurityGroupId] |} |}.

Definition Database2 : AWSResource :=
  withSecurityGroups
    (bare "arn:aws:rds:us-east-1:058264551148:db:database-2-instance-1"
          "database-2-instance-1" aurora_instance "test-app2")
    ["sg-db"].

(** A function whose environment holds its own ARN. *)
Definition SelfFunction : AWSResource :=
  bare "arn:aws:lambda:us-east-1:1:function:worker" "worker" lambda "app".

Definition environmentProvider : Provider :=
  {| describeTargetGroups := fun _ _ => None;
     describeTargetHealth := fun _ _ => None;
     getPolicy := fun _ _ => None;
     getFunction := fun _ fn =>
       if String.eqb fn "worker"
       then Some [("SELF_ARN", "arn:aws:lambda:us-east-1:1:function:worker")]
       else None;
     getResources := fun _ _ => None;
     listTargetsByRule := fun _ _ => None;
     describeSecurityGroups := fun _ _ => None |}.

(** Two clusters matching the same [clusterId]: the first by the suffix
    of its id, the second by its id. *)
Definition ClusterBySuffix : AWSResource :=
  bare "arn:aws:rds:us-east-1:1:cluster:c1" "ClusterBySuffix" aurora "app".

(** The instance of the example, with a security group whose lookup the
    failing provider refuses. *)
Definition InstanceG : AWSResource := withSecurityGroups InstanceA ["sg-9"].

(** An event rule with two targets, the second without ARN. *)
Definition RuleX : AWSResource :=
  bare "arn:aws:events:us-east-1:1:rule/nightly" "nightly" eventbridge "app".

Definition ruleProvider : Provider :=
  {| describeTargetGroups := fun _ _ => None;
     describeTargetHealth := fun _ _ => None;
     getPolicy := fun _ _ => None;
     getFunction := fun _ _ => None;
     getResources := fun _ _ => None;
     listTargetsByRule := fun _ _ =>
       Some [ {| Id := Some "t1"; Arn := Some "arn:aws:rds:us-east-1:1:cluster:c1" |};
              {| Id := Some "t2"; Arn := None |} ];
     describeSecurityGroups := fun _ _ => None |}.



Definition danglingEdge : GraphProps :=
  {| resources := [InstanceA];
     relationships := [ mkRel "i1" "c1" INSTANCE_OF None ];
     externalResources := [];
     showExternalResources := true |}.

(** Two database instances whose groups refer to each other: the group of
    [D1] allows traffic out to the group of [D2], the group of [D2] allows
    traffic in from the group of [D1]. *)
Definition D1 : AWSResource :=
  withSecurityGroups (bare "d1" "D1" aurora_instance "left") ["sg-a"].
Definition D2 : AWSResource :=
  withSecurityGroups (bare "d2" "D2" aurora_instance "right") ["sg-b"].

(** The view of [D1] with [D2] supplied twice as an external resource
    and reached by two relationships. *)
Definition suppliedTwice : GraphProps :=
  {| resources := [D1];
     relationships := [ mkRel "d1" "d2" CONNECTS_TO None;
                        mkRel "d2" "d1" DEPENDS_ON None ];
     externalResources := [D2; D2];
     showExternalResources := true |}.

Definition describePairedGroup (g : string) : list SecurityGroup :=
  if String.eqb g "sg-a" then
    [ {| GroupId := "sg-a"; IpPermissions := [];
         IpPermissionsEgress :=
           [ {| IpProtocol := Some "tcp"; FromPort := Some 5432%Z; ToPort := Some 5432%Z;
                UserIdGroupPairs := Some ["sg-b"] |} ] |} ]
  else if String.eqb g "sg-b" then
    [ {| GroupId := "sg-b";
         IpPermissions :=
           [ {| IpProtocol := Some "tcp"; FromPort := Some 5432%Z; ToPort := Some 5432%Z;
                UserIdGroupPairs := Some ["sg-a"] |} ];
         IpPermissionsEgress := [] |} ]
  else [].

Definition pairedProvider : Provider :=
  {| describeTargetGroups := fun _ _ => None;
     describeTargetHealth := fun _ _ => None;
     getPolicy := fun _ _ => None;
     getFunction := fun _ _ => None;
     getResources := fun _ _ => None;
     listTargetsByRule := fun _ _ => None;
     describeSecurityGroups := fun _ ids => Some (flat_map describePairedGroup ids) |}.

(** A gateway of one application that invokes a function of another. *)
Definition Gateway : AWSResource := bare "abc123" "public-api" apigateway "edge".
Definition Handler : AWSResource :=
  bare "arn:aws:lambda:us-east-1:1:function:handler" "handler" lambda "app".

Definition gatewayProvider : Provider :=
  {| describeTargetGroups := fun _ _ => None;
     describeTargetHealth := fun _ _ => None;
     getPolicy := fun _ _ => None;
     getFunction := fun _ _ => None;
     getResources := fun _ api =>
       if String.eqb api "abc123"
       then Some [ {| itemPath := "/orders";
                      resourceMethods :=
                        Some [ ("GET",
                                Some ("arn:aws:apigateway:us-east-1:lambda:path/functions/"
                                      +:+ "arn:aws:lambda:us-east-1:1:function:handler"
                                      +:+ "/invocations")) ] |} ]
       else None;
     listTargetsByRule := fun _ _ => None;
     describeSecurityGroups := fun _ _ => None |}.



(** The fixture database with a group of its own, whose one rule lets
    DNS traffic out to the group [sg-dns]; [Resolver] uses that group. *)
Definition Resolver : AWSResource :=
  withSecurityGroups (bare "i-dns" "resolver" ec2 "infra") ["sg-dns"].

Definition egressProvider : Provider :=
  {| describeTargetGroups := fun _ _ => None;
     describeTargetHealth := fun _ _ => None;
     getPolicy := fun _ _ => None;
     getFunction := fun _ _ => None;
     getResources := fun _ _ => None;
     listTargetsByRule := fun _ _ => None;
     describeSecurityGroups := fun _ ids =>
       Some (flat_map
               (fun g => if String.eqb g "sg-db"
                         then [ {| GroupId := "sg-db"; IpPermissions := [];
                                   IpPermissionsEgress :=
                                     [ {| IpProtocol := Some "udp"; FromPort := Some 53%Z;
                                          ToPort := Some 53%Z;
                                          UserIdGroupPairs := Some ["sg-dns"] |} ] |} ]
                         else [])
               ids) |}.

(** Two database instances in one group that allows traffic from
    itself; the provider also answers for the function [SelfFunction]. *)
Definition SharedA : AWSResource :=
  withSecurityGroups (bare "s1" "S1" aurora_instance "app") ["sg-x"].
Definition SharedB : AWSResource :=
  withSecurityGroups (bare "s2" "S2" aurora_instance "app") ["sg-x"].

Definition selfReferencingProvider : Provider :=
  {| describeTargetGroups := fun _ _ => None;
     describeTargetHealth := fun _ _ => None;
     getPolicy := fun _ _ => None;
     getFunction := getFunction environmentProvider;
     getResources := fun _ _ => None;
     listTargetsByRule := fun _ _ => None;
     describeSecurityGroups := fun _ ids =>
       Some (flat_map
               (fun g => if String.eqb g "sg-x"
                         then [ {| GroupId := "sg-x";
                                   IpPermissions :=
                                     [ {| IpProtocol := Some "tcp"; FromPort := Some 5432%Z;
                                          ToPort := Some 5432%Z;
                                          UserIdGroupPairs := Some ["sg-x"] |} ];
                                   IpPermissionsEgress := [] |} ]
                         else [])
               ids) |}.

End Fixtures.
Import Fixtures.


(* ===================================================================== *)
(** ** Further predicates on the discovery *)
(* ===================================================================== *)

(** The character [c] occurs in [s]. *)
Fixpoint occurs (c : ascii) (s : string) : bool :=
  match s with
  | EmptyString => false
  | String d s' => Ascii.eqb d c || occurs c s'
  end.

(** The kinds of resources an edge of each type joins, and where its
    resources are taken from: [S] is the inventory, [roi] the resources
    under consideration. *)
Definition edgeWellTyped (S roi : list AWSResource) (e : ResourceRelationship) : Prop :=
  match relType e with
  | PART_OF => False
  | INSTANCE_OF =>
      metadata e = None
      /\ exists i c, In i S /\ In c S /\ type i = aurora_instance /\ type c = aurora
                     /\ sourceId e = id i /\ targetId e = id c
  | ROUTES_TO =>
      exists lb t, In lb roi /\ (type lb = alb \/ type lb = nlb)
                   /\ In t S /\ (type t = ec2 \/ type t = ecs)
                   /\ sourceId e = id lb /\ targetId e = id t
  | DEPENDS_ON =>
      exists f t, In f roi /\ type f = lambda /\ In t S
                  /\ sourceId e = id f /\ targetId e = id t
                  /\ includes (id t) "arn:aws" = true
                  /\ metadata e = Some (MdAccessType "environment")
  | TRIGGERS =>
      (exists f t, In f roi /\ type f = lambda /\ In t S
                   /\ sourceId e = id t /\ targetId e = id f)
      \/ (exists g t, In g roi /\ type g = apigateway /\ In t S /\ type t = lambda
                      /\ sourceId e = id g /\ targetId e = id t)
      \/ (exists g t, In g roi /\ type g = eventbridge /\ In t S
                      /\ sourceId e = id g /\ targetId e = id t)
  | CONNECTS_TO =>
      exists r, In r roi
                /\ (type r = ec2 \/ type r = aurora \/ type r = aurora_instance \/ type r = ecs)
                /\ touches r e
  end.

(** The metadata an edge may carry: none on an instance_of edge; the
    security groups of the two sides with exactly one rule, or (from the
    extractor of compute instances) a protocol and a port that are both
    undefined, on a connects_to edge. *)
Definition metadataWellFormed (e : ResourceRelationship) : Prop :=
  match metadata e with
  | None => relType e = INSTANCE_OF
  | Some (MdSecurityGroups _ _ rules) =>
      relType e = CONNECTS_TO /\ exists rule, rules = [rule]
  | Some (MdProtocolPort p q) =>
      relType e = ROUTES_TO \/ (relType e = CONNECTS_TO /\ p = None /\ q = None)
  | Some (MdEventType _) => relType e = TRIGGERS
  | Some (MdAccessType a) => relType e = DEPENDS_ON /\ a = "environment"
  | Some (MdMethodPath _ _) => relType e = TRIGGERS
  | Some (MdTargetId _) => relType e = TRIGGERS
  | Some (MdStateType _) => False
  end.

(** Every call to the provider throws. *)
Definition unreachable (P : Provider) : Prop :=
  (forall a b, describeTargetGroups P a b = None)
  /\ (forall a b, describeTargetHealth P a b = None)
  /\ (forall a b, getPolicy P a b = None)
  /\ (forall a b, getFunction P a b = None)
  /\ (forall a b, getResources P a b = None)
  /\ (forall a b, listTargetsByRule P a b = None)
  /\ (forall a b, describeSecurityGroups P a b = None).

(** The keys of the edges of [l1] are keys of edges of [l2]. *)
Definition keysWithin (l1 l2 : list ResourceRelationship) : Prop :=
  forall e, In e l1 -> exists e', In e' l2 /\ relationshipKey e' = relationshipKey e.

(** The inventory holds no aurora-instance named as the fixture database. *)
Definition noFixtureDatabase (S : list AWSResource) : Prop :=
  forall r, In r S -> ~ (type r = aurora_instance /\ name r = "database-2-instance-1").


(** [getClusterNameFromArn]: the last of the pieces between the slashes. *)
Definition getClusterNameFromArn (clusterArn : string) : string :=
  let parts := split "/" clusterArn in
  nth (length parts - 1) parts EmptyString.

(* ===================================================================== *)
(** ** Further predicates on the renderer *)
(* ===================================================================== *)

(** The id is the id of a resource of the current view. *)
Definition inView (props : GraphProps) (i : string) : bool :=
  bool_decide (i ∈ resourceIdSet (resources props)).

(** What the filter of the relationships amounts to: with the external
    resources shown, one end in the view is enough; otherwise both ends
    must be in it. *)
Definition retained (props : GraphProps) (rel : ResourceRelationship) : bool :=
  if showExternalResources props
  then inView props (sourceId rel) || inView props (targetId rel)
  else inView props (sourceId rel) && inView props (targetId rel).

(** A resource added to the nodes of the graph from outside the view. *)
Definition addedFromOutside (props : GraphProps) (a : AWSResource) : Prop :=
  In a (externalResources props)
  /\ ~ In (id a) (map id (resources props))
  /\ isExternal (makeNode props a) = true
  /\ exists rel, In rel (relevantRelationships props) /\ touches a rel.

(** Both ends of the relationship are ids of resources handed to the
    renderer, in the view or as external resources. *)
Definition endsSupplied (props : GraphProps) (rel : ResourceRelationship) : Prop :=
  (In (sourceId rel) (map id (resources props))
   \/ In (sourceId rel) (map id (externalResources props)))
  /\ (In (targetId rel) (map id (resources props))
      \/ In (targetId rel) (map id (externalResources props))).

(** The links drawn for [props]. *)
Definition graphLinks (props : GraphProps) : list D3Link :=
  makeLinks (makeNodes props) (relevantRelationships props).

(* ===================================================================== *)
(** ** The renderer: labels, highlighting, dragging, life of the message *)
(* ===================================================================== *)

(** A JavaScript string as the sequence of its UTF-16 code units, which is
    what [length] counts and [substring] cuts. *)
Definition CodeUnits := list N.

(** A JavaScript number: a finite one is the rational it denotes. *)
Inductive JsNumber :=
| NaN
| PosInfinity
| NegInfinity
| Rational (q : Q).

(** [n > maxLength] for a length [n]: false when [maxLength] is NaN. *)
Definition lengthExceeds (n : nat) (maxLength : JsNumber) : bool :=
  match maxLength with
  | NaN | PosInfinity => false
  | NegInfinity => true
  | Rational q => negb (Qle_bool (inject_Z (Z.of_nat n)) q)
  end.

(** The integer part of a finite number (rounding towards zero). *)
Definition toInteger (q : Q) : Z := Z.quot (Qnum q) (Z.pos (Qden q)).

(** [text.substring(0, finish)]: [finish] is rounded towards zero, NaN
    counts as 0, and the result is clamped to the bounds of [text]. *)
Definition substringFromStart (text : CodeUnits) (finish : JsNumber) : CodeUnits :=
  match finish with
  | NaN | NegInfinity => []
  | PosInfinity => text
  | Rational q => firstn (Z.to_nat (toInteger q)) text
  end.

(** The code units of ['...']. *)
Definition dots : CodeUnits := [46%N; 46%N; 46%N].

(** [truncateText]: [text.length > maxLength ? text.substring(0, maxLength)
    + '...' : text]. *)
Definition truncateText (text : CodeUnits) (maxLength : JsNumber) : CodeUnits :=
  if lengthExceeds (length text) maxLength
  then substringFromStart text maxLength ++ dots
  else text.

(** The limit of the labels of a node: [truncateText(d.name, 15)]. *)
Definition labelLimit : JsNumber := Rational (inject_Z 15).

(** The handler of [mouseover] on the node [d]: one turn of the loop over
    the links, and the ids collected in [connectedNodeIds] at its end. *)
Definition collectConnected (d : D3Node) (connected : gset string) (link : D3Link)
  : gset string :=
  let connected1 :=
    if String.eqb (nodeId (linkSource link)) (nodeId d)
    then connected ∪ {[ nodeId (linkTarget link) ]} else connected in
  if String.eqb (nodeId (linkTarget link)) (nodeId d)
  then connected1 ∪ {[ nodeId (linkSource link) ]} else connected1.

Definition connectedNodeIds (links : list D3Link) (d : D3Node) : gset string :=
  fold_left (collectConnected d) links ∅.

(** The stroke widths set while the pointer is over [d]. *)
Definition nodeStrokeOnHover (links : list D3Link) (d nodeData : D3Node) : Q :=
  if String.eqb (nodeId nodeData) (nodeId d)
     || bool_decide (nodeId nodeData ∈ connectedNodeIds links d)
  then 3 else 1.5.

Definition linkStrokeOnHover (d : D3Node) (linkData : D3Link) : Q :=
  if String.eqb (nodeId (linkSource linkData)) (nodeId d)
     || String.eqb (nodeId (linkTarget linkData)) (nodeId d)
  then 4 else 2.

(** The stroke widths set by the handler of [mouseout]. *)
Definition nodeStrokeAtRest (_ : D3Node) : Q := 1.5.
Definition linkStrokeAtRest (_ : D3Link) : Q := 2.

(** The two nodes are joined by one of the links, in either direction. *)
Definition adjacent (links : list D3Link) (a b : D3Node) : Prop :=
  exists l, In l links
            /\ ((nodeId (linkSource l) = nodeId a /\ nodeId (linkTarget l) = nodeId b)
                \/ (nodeId (linkSource l) = nodeId b /\ nodeId (linkTarget l) = nodeId a)).

(** The component over its life: mounted with [initial], then re-rendered
    with each of [updates] in turn; the state is the message. *)
Definition messageAfter (initial : GraphProps) (updates : list GraphProps) : option string :=
  fold_left (fun message props => runEffect props message) updates (mountComponent initial).

(** The message of the first of the property sets that yields one. *)
Fixpoint firstMessage (history : list GraphProps) : option string :=
  match history with
  | [] => None
  | props :: rest =>
      match mountComponent props with
      | Some m => Some m
      | None => firstMessage rest
      end
  end.

Section Dragging.

(** Coordinates are only copied by the handlers; their type is left open. *)
Variable Coord : Type.

(** The part of a node and of the simulation that the drag handlers touch;
    [None] stands for [null] or [undefined]. *)
Record Pinning := {
  x : option Coord;
  y : option Coord;
  fx : option Coord;
  fy : option Coord
}.

Record Simulation := {
  alphaTarget : Q;
  restarted : bool
}.

(** [event.active] is the number of other gestures in progress. *)
Definition dragstarted (active : nat) (sim : Simulation) (d : Pinning)
  : Simulation * Pinning :=
  (match active with
   | O => {| alphaTarget := 0.3; restarted := true |}
   | _ => sim
   end,
   {| x := x d; y := y d; fx := x d; fy := y d |}).

Definition dragged (eventX eventY : Coord) (d : Pinning) : Pinning :=
  {| x := x d; y := y d; fx := Some eventX; fy := Some eventY |}.

Definition dragended (active : nat) (sim : Simulation) (d : Pinning)
  : Simulation * Pinning :=
  (match active with
   | O => {| alphaTarget := 0; restarted := restarted sim |}
   | _ => sim
   end,
   {| x := x d; y := y d; fx := None; fy := None |}).

(** A whole gesture with no other gesture in progress: press, the pointer
    positions of the moves, release. *)
Definition whileDragging (sim : Simulation) (d : Pinning) (moves : list (Coord * Coord))
  : Simulation * Pinning :=
  let '(sim1, d1) := dragstarted 0 sim d in
  (sim1, fold_left (fun node move => dragged (fst move) (snd move) node) moves d1).

Definition gesture (sim : Simulation) (d : Pinning) (moves : list (Coord * Coord))
  : Simulation * Pinning :=
  let '(sim1, d1) := whileDragging sim d moves in
  dragended 0 sim1 d1.

End Dragging.

Arguments x {Coord}.
Arguments y {Coord}.
Arguments fx {Coord}.
Arguments fy {Coord}.
Arguments dragstarted {Coord}.
Arguments dragged {Coord}.
Arguments dragended {Coord}.
Arguments whileDragging {Coord}.
Arguments gesture {Coord}.

(** Where the pointer was at the last of the moves, if there was one. *)
Definition lastPointer {Coord} (moves : list (Coord * Coord)) : option (Coord * Coord) :=
  list.last moves.

(** The arrow markers, the colours and the legend of the graph. *)
Definition relationshipTypes : list RelationshipType :=
  [ROUTES_TO; DEPENDS_ON; TRIGGERS; CONNECTS_TO; PART_OF; INSTANCE_OF].

Definition legendRelationshipTypes : list (RelationshipType * string) :=
  [ (ROUTES_TO, "Routes To"); (DEPENDS_ON, "Depends On"); (TRIGGERS, "Triggers");
    (CONNECTS_TO, "Connects To"); (INSTANCE_OF, "Instance Of") ].

Definition getRelationshipColor (type : RelationshipType) : string :=
  match type with
  | ROUTES_TO => "#3b82f6"
  | DEPENDS_ON => "#8b5cf6"
  | TRIGGERS => "#ec4899"
  | CONNECTS_TO => "#14b8a6"
  | PART_OF => "#f97316"
  | INSTANCE_OF => "#84cc16"
  end.

(** The attributes [stroke] and [marker-end] of the line drawn for a
    link, and the id of the marker defined for a type. *)
Definition linkStroke (d : D3Link) : string := getRelationshipColor (linkType d).
Definition markerId (type : RelationshipType) : string := "arrow-" +:+ relTypeString type.
Definition linkMarkerEnd (d : D3Link) : string :=
  "url(#arrow-" +:+ relTypeString (linkType d) +:+ ")".

(* ===================================================================== *)
(** ** The inventory: status of a service, the loop over the regions *)
(* ===================================================================== *)

#[global] Instance ResourceStatus_eq_dec : EqDecision ResourceStatus.
Proof. solve_decision. Defined.

(** The fields of a deployment and of a described service that
    [determineECSServiceStatus] reads. *)
Module Deployment.
Record t := {
  status : option string;
  rolloutState : option string
}.
End Deployment.

Module Service.
Record t := {
  status : option string;
  deployments : option (list Deployment.t);
  runningCount : option Z
}.
End Service.

(** The callback of [service.deployments.find]. *)
Definition isPrimary (d : Deployment.t) : bool :=
  optStrEqb (Deployment.status d) (Some "PRIMARY").

(** [['IN_PROGRESS', 'PENDING'].includes(latestDeployment.rolloutState)]. *)
Definition rollingOut (d : Deployment.t) : bool :=
  match Deployment.rolloutState d with
  | Some s => arrIncludes ["IN_PROGRESS"; "PENDING"] s
  | None => false
  end.

(** The tests on the running count, at the end of the function. *)
Definition statusFromCounts (service : Service.t) : ResourceStatus :=
  if bool_decide (Service.runningCount service = Some 0%Z) then stopped
  else if optStrEqb (Service.status service) (Some "ACTIVE")
          && match Service.runningCount service with
             | Some n => (0 <? n)%Z
             | None => false
             end
  then running
  else pending.

(** [determineECSServiceStatus]; [None] is the [TypeError] of
    [service.deployments.find] on a service without deployments. *)
Definition determineECSServiceStatus (service : Service.t) : option ResourceStatus :=
  if optStrEqb (Service.status service) (Some "INACTIVE") then Some stopped
  else
    match Service.deployments service with
    | None => None
    | Some deployments =>
        match List.find isPrimary deployments with
        | Some latestDeployment =>
            if optStrEqb (Deployment.rolloutState latestDeployment) (Some "FAILED")
            then Some stopped
            else if rollingOut latestDeployment then Some pending
            else Some (statusFromCounts service)
        | None => Some (statusFromCounts service)
        end
    end.

(** What the eight fetchers of one region resolve to; the resources of
    [getAuroraResources] are its clusters followed by its instances. *)
Module Region.
Record Fetched := {
  ecs : list AWSResource;
  lambda : list AWSResource;
  auroraClusters : list AWSResource;
  auroraInstances : list AWSResource;
  ec2 : list AWSResource;
  stepFunctions : list AWSResource;
  apiGateway : list AWSResource;
  eventBridge : list AWSResource;
  loadBalancers : list AWSResource
}.

Definition auroraResources (f : Fetched) : list AWSResource :=
  auroraClusters f ++ auroraInstances f.

(** The arguments of [allResources.concat], in their order. *)
Definition concatenated (f : Fetched) : list AWSResource :=
  ecs f ++ lambda f ++ auroraResources f ++ ec2 f ++ stepFunctions f
  ++ apiGateway f ++ eventBridge f ++ loadBalancers f.
End Region.

Definition REGIONS : list string := ["us-east-1"; "us-east-2"].

Definition mockEcsService : AWSResource :=
  {| id := "arn:aws:ecs:us-east-1:058264551148:service/devclust/service-test-2";
     name := "service-test-2"; type := ecs; status := running;
     application := "test-app2"; region := "us-east-1";
     tags := <["app" := "test-app2"]> ∅; securityGroups := None; clusterId := None;
     details := Some {| clusterName := Some "devclust";
                        networkSecurityGroups := Some ["sg-0123456789abcdef0"] |} |}.

(** One turn of the loop over the regions; [fetch region] is [None] when
    one of the fetchers of the region rejects, which the loop catches. *)
Definition addRegion (fetch : string -> option Region.Fetched)
    (allResources : list AWSResource) (region : string) : list AWSResource :=
  match fetch region with
  | Some fetched => allResources ++ Region.concatenated fetched
  | None => allResources
  end.

(** [getAllResources]: the regions in turn, then the mock service.  The
    relationships of [getAuroraResources] are collected by the source but
    not returned. *)
Definition getAllResources (fetch : string -> option Region.Fetched) : list AWSResource :=
  fold_left (addRegion fetch) REGIONS [] ++ [mockEcsService].

(* ===================================================================== *)
(** ** The route [/api/resource-relationships] *)
(* ===================================================================== *)

Module Route.

Record ResponseData := {
  resources : list AWSResource;
  relationships : list ResourceRelationship;
  externalResources : list AWSResource
}.

(** The callback [r => r.application === application]. *)
Definition ofApplication (a : string) (r : AWSResource) : bool :=
  String.eqb (application r) a.

(** [application ? allResources.filter(…) : null], for a query parameter
    that is a string or absent. *)
Definition focusResources (allResources : list AWSResource) (application : option string)
  : option (list AWSResource) :=
  match application with
  | Some a =>
      if truthy a
      then Some (List.filter (ofApplication a) allResources)
      else None
  | None => None
  end.

(** The body of the handler once the inventory is there. *)
Definition respond (P : Provider) (allResources : list AWSResource)
    (application : option string) : ResponseData :=
  let focus := focusResources allResources application in
  {| resources := resourcesOfInterest allResources focus;
     relationships := discoverResourceRelationships P allResources focus;
     externalResources :=
       match focus with
       | Some focusResources =>
           List.filter (fun r => negb (existsb (fun fr => String.eqb (id fr) (id r))
                                          focusResources))
                  allResources
       | None => []
       end |}.

(** The handler: the inventory of [getAllResources], then the answer. *)
Definition handler (P : Provider) (fetch : string -> option Region.Fetched)
    (application : option string) : ResponseData :=
  respond P (getAllResources fetch) application.

End Route.

(* ===================================================================== *)
(** ** The component [ResourceGroup] *)
(* ===================================================================== *)

(** [RegionGroup] and [ResourceGroup] of the type declarations. *)
Module Group.
Record RegionGroup := {
  region : string;
  resources : list AWSResource
}.

Record ResourceGroup := {
  application : string;
  regions : list RegionGroup
}.
End Group.

Inductive HealthStatus := healthy | warning | error.

(** The callbacks [r => r.status === …]. *)
Definition hasStatus (s : ResourceStatus) (r : AWSResource) : bool :=
  bool_decide (status r = s).

(** [calculateHealthStatus] of [RegionSection]: the badge of a region. *)
Definition calculateHealthStatus (resources : list AWSResource) : HealthStatus :=
  let totalResources := length resources in
  let runningResources := length (List.filter (hasStatus running) resources) in
  let stoppedResources := length (List.filter (hasStatus stopped) resources) in
  if (runningResources =? totalResources)%nat then healthy
  else if (stoppedResources =? totalResources)%nat then error
  else warning.

Module ResourceGroup.

(** [group.regions.flatMap(region => region.resources)]. *)
Definition appResources (group : Group.ResourceGroup) : list AWSResource :=
  flat_map Group.resources (Group.regions group).

(** [calculateOverallHealth]: the badge of the group. *)
Definition calculateOverallHealth (regions : list Group.RegionGroup) : HealthStatus :=
  let hasError :=
    existsb (fun region => existsb (hasStatus stopped) (Group.resources region)) regions in
  let hasWarning :=
    existsb (fun region => existsb (hasStatus pending) (Group.resources region)) regions in
  if hasError then error
  else if hasWarning then warning
  else healthy.

(** One turn of [relationships.forEach] in the memo of the external
    resources. *)
Definition noteExternal (appResourceIds externalResourceIds : gset string)
    (rel : ResourceRelationship) : gset string :=
  let afterSource :=
    if negb (bool_decide (sourceId rel ∈ appResourceIds))
       && negb (bool_decide (sourceId rel ∈ externalResourceIds))
    then externalResourceIds ∪ {[ sourceId rel ]}
    else externalResourceIds in
  if negb (bool_decide (targetId rel ∈ appResourceIds))
     && negb (bool_decide (targetId rel ∈ afterSource))
  then afterSource ∪ {[ targetId rel ]}
  else afterSource.

Definition externalResourceIds (appResources : list AWSResource)
    (relationships : list ResourceRelationship) : gset string :=
  fold_left (noteExternal (resourceIdSet appResources)) relationships ∅.

(** The memo [externalResources]. *)
Definition externalResources (group : Group.ResourceGroup)
    (allResources : list AWSResource) (relationships : list ResourceRelationship)
  : list AWSResource :=
  match relationships with
  | [] => []
  | _ :: _ =>
      List.filter (fun r => bool_decide
                         (id r ∈ externalResourceIds (appResources group) relationships))
             allResources
  end.

(** The properties handed to [ResourceDependencyGraph]. *)
Definition graphProps (group : Group.ResourceGroup) (allResources : list AWSResource)
    (relationships : list ResourceRelationship) (showExternalResources : bool)
  : GraphProps :=
  Build_GraphProps (appResources group) relationships
                   (externalResources group allResources relationships)
                   showExternalResources.

End ResourceGroup.

(* ===================================================================== *)
(** ** The groups of the dashboard ([App]) *)
(* ===================================================================== *)

Module App.

(** The names every object inherits from [Object.prototype]: for them
    [acc[name]] is truthy although [acc] holds no group of its own under
    the name. *)
Definition inheritedNames : list string :=
  [ "constructor"; "hasOwnProperty"; "isPrototypeOf"; "propertyIsEnumerable";
    "toLocaleString"; "toString"; "valueOf"; "__proto__";
    "__defineGetter__"; "__defineSetter__"; "__lookupGetter__"; "__lookupSetter__" ].

(** [regions.find(r => r.region === resource.region)], the [push] of a new
    region group when there is none, and [regionGroup.resources.push]. *)
Fixpoint addToRegions (resource : AWSResource) (regions : list Group.RegionGroup)
  : list Group.RegionGroup :=
  match regions with
  | [] => [ {| Group.region := region resource; Group.resources := [resource] |} ]
  | regionGroup :: rest =>
      if String.eqb (Group.region regionGroup) (region resource)
      then {| Group.region := Group.region regionGroup;
              Group.resources := Group.resources regionGroup ++ [resource] |} :: rest
      else regionGroup :: addToRegions resource rest
  end.

(** The callback of [filtered.reduce]; [acc] maps the applications to
    their groups.  [None] is the [TypeError] of [acc[…].regions.find] when
    the application bears an inherited name. *)
Definition addResource (acc : gmap string Group.ResourceGroup) (resource : AWSResource)
  : option (gmap string Group.ResourceGroup) :=
  match acc !! application resource with
  | Some group =>
      Some (<[ application resource :=
                 {| Group.application := Group.application group;
                    Group.regions := addToRegions resource (Group.regions group) |} ]> acc)
  | None =>
      if arrIncludes inheritedNames (application resource) then None
      else
        Some (<[ application resource :=
                   {| Group.application := application resource;
                      Group.regions := addToRegions resource [] |} ]> acc)
  end.

(** The object built by the [reduce] of [groupedResources], whose values
    are the groups of the dashboard (the order of the values is not part
    of the embedding). *)
Definition groupByApplication (filtered : list AWSResource)
  : option (gmap string Group.ResourceGroup) :=
  fold_left (fun acc resource =>
               match acc with
               | Some groups => addResource groups resource
               | None => None
               end)
            filtered (Some ∅).

End App.

(* ===================================================================== *)
(** ** Further predicates on the inventory, the route and the component *)
(* ===================================================================== *)

(** No primary deployment, or one that neither failed nor is rolling out. *)
Definition settled (deployments : list Deployment.t) : Prop :=
  forall d, List.find isPrimary deployments = Some d ->
            Deployment.rolloutState d <> Some "FAILED" /\ rollingOut d = false.

(** The list holds a resource with the given status. *)
Definition holds (s : ResourceStatus) (resources : list AWSResource) : Prop :=
  exists r, In r resources /\ status r = s.

(** The inventory lists a database instance under the name of the
    fixture. *)
Definition fixtureDatabaseListed (S : list AWSResource) : Prop :=
  exists r, In r S /\ type r = aurora_instance /\ name r = "database-2-instance-1".

(** A region that answers with the fixture database alone. *)
Definition fetchDatabase2 (region : string) : option Region.Fetched :=
  if String.eqb region "us-east-1"
  then Some {| Region.ecs := []; Region.lambda := []; Region.auroraClusters := [];
               Region.auroraInstances := [Database2]; Region.ec2 := [];
               Region.stepFunctions := []; Region.apiGateway := [];
               Region.eventBridge := []; Region.loadBalancers := [] |}
  else None.

(** The relationship has a resource of the group at one end, and each of
    its ends is the id of a resource of the group or of the inventory. *)
Definition reachesGroup (group : Group.ResourceGroup) (allResources : list AWSResource)
    (rel : ResourceRelationship) : Prop :=
  (exists a, In a (ResourceGroup.appResources group) /\ touches a rel)
  /\ knownId (ResourceGroup.appResources group ++ allResources) (sourceId rel)
  /\ knownId (ResourceGroup.appResources group ++ allResources) (targetId rel).

(** The group holds the resources that the inventory lists for its
    application. *)
Definition groupOfInventory (group : Group.ResourceGroup) (allResources : list AWSResource)
  : Prop :=
  forall r, In r (ResourceGroup.appResources group)
            <-> In r allResources /\ application r = Group.application group.

(** A group as the inventory of two resources gives it, and an edge
    between the two. *)
Definition groupD : Group.ResourceGroup :=
  {| Group.application := "left";
     Group.regions := [ {| Group.region := "us-east-1"; Group.resources := [D1] |} ] |}.

(** The resources of application [a] in the region named [rn]. *)
Definition inRegion (a rn : string) (r : AWSResource) : bool :=
  String.eqb (application r) a && String.eqb (region r) rn.

(** What a region group of application [a] holds, after the resources [l]:
    the resources of [l] of that application and region, in their order,
    and at least one. *)
Definition regionFilled (a : string) (l : list AWSResource) (rg : Group.RegionGroup)
  : Prop :=
  Group.resources rg <> []
  /\ Group.resources rg = List.filter (inRegion a (Group.region rg)) l.

(** The group [g] is the group of application [a] over the resources
    [l]. *)
Definition groupFilled (a : string) (l : list AWSResource) (g : Group.ResourceGroup)
  : Prop :=
  Group.application g = a
  /\ arrIncludes App.inheritedNames a = false
  /\ Group.regions g <> []
  /\ List.NoDup (map Group.region (Group.regions g))
  /\ (forall rg, In rg (Group.regions g) -> regionFilled a l rg)
  /\ (forall r, In r l -> application r = a ->
                In (region r) (map Group.region (Group.regions g))).

(** The groups [acc] are the groups of the resources [l]. *)
Definition grouped (l : list AWSResource) (acc : gmap string Group.ResourceGroup) : Prop :=
  forall a, match acc !! a with
            | Some g => groupFilled a l g
            | None => forall r, In r l -> application r <> a
            end.

(** [a] is listed before [b] in the inventory. *)
Definition listedBefore (S : list AWSResource) (a b : AWSResource) : Prop :=
  exists pre mid post, S = pre ++ a :: mid ++ b :: post.

(** The resource pushes its edges from ids found inside a longer string:
    a gateway (from the URI of an integration, among the functions) or an
    event rule (from the ARN of a target, among all resources). *)
Definition matchesBySubstring (g candidate : AWSResource) : Prop :=
  (type g = apigateway /\ type candidate = lambda) \/ type g = eventbridge.

(** A second version of the handler, listed after it, and a gateway whose
    one integration invokes the second version. *)
Definition HandlerV2 : AWSResource :=
  bare "arn:aws:lambda:us-east-1:1:function:handler-v2" "handler-v2" lambda "app".

Definition gatewayV2Provider : Provider :=
  {| describeTargetGroups := fun _ _ => None;
     describeTargetHealth := fun _ _ => None;
     getPolicy := fun _ _ => None;
     getFunction := fun _ _ => None;
     getResources := fun _ api =>
       if String.eqb api "abc123"
       then Some [ {| itemPath := "/orders";
                      resourceMethods :=
                        Some [ ("GET",
                                Some ("arn:aws:apigateway:us-east-1:lambda:path/functions/"
                                      +:+ "arn:aws:lambda:us-east-1:1:function:handler-v2"
                                      +:+ "/invocations")) ] |} ]
       else None;
     listTargetsByRule := fun _ _ => None;
     describeSecurityGroups := fun _ _ => None |}.

(** The instance belongs to the cluster, and the connections of the
    cluster are taken from it: the cluster has no security groups of its
    own, the instance has some. *)
Definition lendsItsConnections (S : list AWSResource) (c i : AWSResource) : Prop :=
  type c = aurora
  /\ auroraClusterSecurityGroups c = []
  /\ In i (clusterInstances S c)
  /\ exists g ids, securityGroups i = Some (g :: ids).

(** A cluster without security groups and its instance, which allows
    traffic to the database [D2]. *)
Definition ClusterOfD : AWSResource := bare "cd" "CD" aurora "left".
Definition InstanceOfD : AWSResource :=
  withSecurityGroups (withCluster (bare "d1" "D1" aurora_instance "left") "cd") ["sg-a"].

(* ===================================================================== *)
(** ** The page of the graph component *)
(* ===================================================================== *)

(** What the container [div] holds once the effect has run: the [svg]
    appended at the head of the effect, left empty when the effect returns
    at one of its two tests, or with the graph drawn into it. *)
Inductive Svg :=
| EmptySvg
| GraphSvg (nodes : list D3Node) (links : list D3Link).

(** What the component shows: the message, in place of the container; or
    the container with what it holds (nothing before the effect ran). *)
Inductive Page :=
| MessageShown (message : string)
| ContainerShown (content : option Svg).

(** The JSX of the component, for the state [message] and what the
    container holds. *)
Definition jsx (message : option string) (content : option Svg) : Page :=
  match message with
  | Some m => if truthy m then MessageShown m else ContainerShown content
  | None => ContainerShown content
  end.

(** One run of the effect and the render that follows it.  With the
    message shown there is no container and the effect returns at its
    first line.  Otherwise the container is emptied, a new [svg] is
    appended to it, and the two tests are made: each sets the message and
    returns, leaving the [svg] empty; past them the message is set to
    [null] and the graph is drawn into the [svg]. *)
Definition effectOnPage (props : GraphProps) (page : Page) : Page :=
  match page with
  | MessageShown m => MessageShown m
  | ContainerShown _ =>
      match graphResources props with
      | [] => jsx (Some "No resources to display") (Some EmptySvg)
      | _ :: _ =>
          match relevantRelationships props with
          | [] => jsx (Some "No relationships found between resources") (Some EmptySvg)
          | _ :: _ =>
              jsx None (Some (GraphSvg (makeNodes props)
                                       (makeLinks (makeNodes props)
                                                  (relevantRelationships props))))
          end
      end
  end.

(** The page of the component mounted with [initial] and then rendered
    with each of [updates] in turn. *)
Definition pageAfter (initial : GraphProps) (updates : list GraphProps) : Page :=
  fold_left (fun page props => effectOnPage props page) (initial :: updates)
            (ContainerShown None).

(** The message of a page, if it shows one. *)
Definition pageMessage (page : Page) : option string :=
  match page with
  | MessageShown m => Some m
  | ContainerShown _ => None
  end.




(** The links of the graph join nodes, for kept relationships whose two
    ends have a node; the other kept relationships have no link. *)
Definition linksResolved (props : GraphProps) : Prop :=
  (forall l, In l (graphLinks props) ->
     In (linkRelationship l) (relevantRelationships props)
     /\ In (linkSource l) (makeNodes props) /\ In (linkTarget l) (makeNodes props)
     /\ nodeId (linkSource l) = sourceId (linkRelationship l)
     /\ nodeId (linkTarget l) = targetId (linkRelationship l))
  /\ (forall rel,
        ~ In (sourceId rel) (map nodeId (makeNodes props))
        \/ ~ In (targetId rel) (map nodeId (makeNodes props)) ->
        forall l, In l (graphLinks props) -> linkRelationship l <> rel)
  /\ (forall rel,
        In rel (relevantRelationships props) ->
        In (sourceId rel) (map nodeId (makeNodes props)) ->
        In (targetId rel) (map nodeId (makeNodes props)) ->
        exists l, In l (graphLinks props) /\ linkRelationship l = rel).

(** The graph of the group of [D1], whose one relationship leaves the
    group, with the external dependencies hidden and shown. *)
Definition externalHidden : GraphProps :=
  ResourceGroup.graphProps groupD [D1; D2] [mkRel "d1" "d2" CONNECTS_TO None] false.

Definition externalShown : GraphProps :=
  ResourceGroup.graphProps groupD [D1; D2] [mkRel "d1" "d2" CONNECTS_TO None] true.
(* ===================================================================== *)
(** ** Facts about the string primitives *)
(* ===================================================================== *)

Lemma hasBar_app_inj (s1 s2 r1 r2 : string) :
  hasBar s1 = false -> hasBar s2 = false ->
  s1 +:+ "|" +:+ r1 = s2 +:+ "|" +:+ r2 ->
  s1 = s2 /\ r1 = r2.
Proof.
  revert s2. induction s1 as [|c s1 IH]; intros [|d s2] H1 H2 Heq; simpl in *.
  - injection Heq as Heq. subst. auto.
  - injection Heq as Hc _. subst d. simpl in H2. discriminate.
  - injection Heq as Hc _. subst c. simpl in H1. discriminate.
  - injection Heq as Hc Heq. subst d.
    apply orb_false_iff in H1 as [_ H1]. apply orb_false_iff in H2 as [_ H2].
    destruct (IH s2 H1 H2 Heq) as [Hs Hr]. subst. auto.
Qed.

Lemma relTypeString_inj (a b : RelationshipType) :
  relTypeString a = relTypeString b -> a = b.
Proof. destruct a, b; simpl; intros H; first [reflexivity | discriminate H]. Qed.

Lemma split_nonEmpty (sep : ascii) (s : string) : split sep s <> [].
Proof.
  destruct s as [|c s]; simpl; [discriminate|].
  destruct (Ascii.eqb c sep); [discriminate|].
  destruct (split sep s); discriminate.
Qed.

(* ===================================================================== *)
(** ** The deduplication loop *)
(* ===================================================================== *)

Lemma triple_key (a b : ResourceRelationship) :
  triple a = triple b -> relationshipKey a = relationshipKey b.
Proof. unfold triple, relationshipKey. intros H. injection H as -> -> ->. reflexivity. Qed.

(** Where the endpoints hold no ['|'], the key determines the triple. *)
Lemma key_triple (a b : ResourceRelationship) :
  hasBar (sourceId a) = false -> hasBar (targetId a) = false ->
  hasBar (sourceId b) = false -> hasBar (targetId b) = false ->
  relationshipKey a = relationshipKey b -> triple a = triple b.
Proof.
  unfold relationshipKey, triple. intros Hsa Hta Hsb Htb Hk.
  apply hasBar_app_inj in Hk as [Hs Hk]; try assumption.
  apply hasBar_app_inj in Hk as [Ht Hk]; try assumption.
  apply relTypeString_inj in Hk. congruence.
Qed.

Section Deduplicate.

Implicit Types (m : gmap string ResourceRelationship) (l : list ResourceRelationship).

Lemma deduplicate_In m l e : In e (deduplicate m l) -> In e l.
Proof.
  revert m. induction l as [|x l IH]; intros m; simpl; [tauto|].
  destruct (m !! relationshipKey x); simpl; intros H.
  - right. eauto.
  - destruct H as [->|H]; [now left | right; eauto].
Qed.

Lemma deduplicate_fresh m l e :
  In e (deduplicate m l) -> m !! relationshipKey e = None.
Proof.
  revert m. induction l as [|x l IH]; intros m; simpl; [tauto|].
  destruct (m !! relationshipKey x) eqn:Hx; simpl; intros H.
  - eauto.
  - destruct H as [->|H]; [assumption|].
    apply IH in H.
    destruct (decide (relationshipKey x = relationshipKey e)) as [Heq|Hne].
    + rewrite Heq, lookup_insert_eq in H. discriminate.
    + rewrite lookup_insert_ne in H by assumption. assumption.
Qed.

Lemma deduplicate_NoDup_keys m l :
  List.NoDup (map relationshipKey (deduplicate m l)).
Proof.
  revert m. induction l as [|x l IH]; intros m; simpl; [constructor|].
  destruct (m !! relationshipKey x) eqn:Hx; simpl; [apply IH|].
  constructor; [|apply IH].
  intros Hin. apply in_map_iff in Hin as (e & Hk & Hin).
  apply deduplicate_fresh in Hin. rewrite Hk, lookup_insert_eq in Hin. discriminate.
Qed.

(** The first edge with a fresh key is kept. *)
Lemma deduplicate_first m pre e post :
  m !! relationshipKey e = None ->
  (forall x, In x pre -> relationshipKey x <> relationshipKey e) ->
  In e (deduplicate m (pre ++ e :: post)).
Proof.
  revert m. induction pre as [|x pre IH]; intros m Hm Hpre; simpl.
  - rewrite Hm. now left.
  - destruct (m !! relationshipKey x) eqn:Hx.
    + apply IH; [assumption|]. intros y Hy. apply Hpre. now right.
    + right. apply IH.
      * rewrite lookup_insert_ne; [assumption|]. apply Hpre. now left.
      * intros y Hy. apply Hpre. now right.
Qed.

(** Every kept edge is the first one with its key. *)
Lemma deduplicate_is_first m l e :
  In e (deduplicate m l) ->
  exists pre post, l = pre ++ e :: post
                   /\ forall x, In x pre -> relationshipKey x <> relationshipKey e.
Proof.
  revert m. induction l as [|x l IH]; intros m; simpl; [tauto|].
  destruct (m !! relationshipKey x) eqn:Hx; simpl; intros H.
  - pose proof (deduplicate_fresh _ _ _ H) as Hf.
    destruct (IH _ H) as (pre & post & -> & Hpre).
    exists (x :: pre), post. split; [reflexivity|].
    intros y [<-|Hy]; [|auto]. intros Heq. rewrite Heq in Hx. congruence.
  - destruct H as [->|H].
    + exists [], l. split; [reflexivity|]. intros y [].
    + pose proof (deduplicate_fresh _ _ _ H) as Hf.
      destruct (IH _ H) as (pre & post & -> & Hpre).
      exists (x :: pre), post. split; [reflexivity|].
      intros y [<-|Hy]; [|auto]. intros Heq.
      rewrite Heq, lookup_insert_eq in Hf. discriminate.
Qed.

(** Every fresh key of the input is a key of the output. *)
Lemma deduplicate_covers m l e :
  In e l -> m !! relationshipKey e = None ->
  exists e', In e' (deduplicate m l) /\ relationshipKey e' = relationshipKey e.
Proof.
  revert m. induction l as [|x l IH]; intros m; simpl; [tauto|].
  intros [->|Hin] Hm.
  - rewrite Hm. exists e. split; [now left | reflexivity].
  - destruct (m !! relationshipKey x) eqn:Hx.
    + apply IH; assumption.
    + destruct (decide (relationshipKey x = relationshipKey e)) as [Heq|Hne].
      * exists x. split; [now left | assumption].
      * destruct (IH (<[relationshipKey x := x]> m) Hin) as (e' & He' & Hk).
        { rewrite lookup_insert_ne by assumption. assumption. }
        exists e'. split; [now right | assumption].
Qed.

End Deduplicate.

Lemma NoDup_map_inj {A B} (f : A -> B) (l : list A) (a b : A) :
  List.NoDup (map f l) -> In a l -> In b l -> f a = f b -> a = b.
Proof.
  induction l as [|x l IH]; simpl; [tauto|].
  intros Hnd Ha Hb Hf. inversion Hnd as [|? ? Hnotin Hnd']; subst.
  destruct Ha as [->|Ha], Hb as [->|Hb]; try reflexivity.
  - exfalso. apply Hnotin. rewrite Hf. now apply in_map.
  - exfalso. apply Hnotin. rewrite <- Hf. now apply in_map.
  - auto.
Qed.

(* ===================================================================== *)
(** ** Where the ends of an emitted edge come from *)
(* ===================================================================== *)

Lemma knownId_In all r : In r all -> knownId all (id r).
Proof. intros H. unfold knownId. now apply in_map. Qed.

Lemma anchored_touches all r e : anchored all r e -> touches r e.
Proof. unfold anchored, touches. tauto. Qed.

Lemma anchored_resolved all r e : anchored all r e -> resolved all r e.
Proof. unfold anchored, resolved. tauto. Qed.

Create HintDb disc.
#[local] Hint Resolve knownId_In : disc.

Ltac find_inv H :=
  let Hin := fresh "Hin" in let Hp := fresh "Hp" in
  apply List.find_some in H as [Hin Hp].

Lemma mockRuleConnections_anchored src all gid e :
  In e (mockRuleConnections src all gid) -> anchored all src e.
Proof.
  unfold mockRuleConnections.
  destruct (isFixtureDatabase src); [|intros []].
  destruct (List.find _ all) as [svc|] eqn:Hf; [|intros []].
  find_inv Hf. intros [<-|[]]. right. simpl. auto with disc.
Qed.

(** The edges of the reference loop are exactly the [ruleConnection]s of
    the pairs (referenced group, other resource using it). *)
Lemma referenceConnections_spec rule src all gid dir e :
  In e (referenceConnections rule src all gid dir) <->
  exists ref t,
    In ref (referencedGroups rule)
    /\ In t all /\ usesGroup ref t = true /\ id t <> id src
    /\ e = ruleConnection rule src gid dir ref t.
Proof.
  unfold referenceConnections. rewrite in_flat_map. split.
  - intros (ref & Href & Hin). apply in_flat_map in Hin as (t & Ht & Hin).
    apply filter_In in Ht as [Ht Hu].
    destruct (String.eqb (id t) (id src)) eqn:Heq; [destruct Hin|].
    destruct Hin as [<-|[]]. apply String.eqb_neq in Heq.
    exists ref, t. auto.
  - intros (ref & t & Href & Ht & Hu & Hne & ->).
    exists ref. split; [assumption|]. apply in_flat_map. exists t. split.
    + apply filter_In. auto.
    + apply String.eqb_neq in Hne. rewrite Hne. now left.
Qed.

Lemma referenceConnections_anchored rule src all gid dir e :
  In e (referenceConnections rule src all gid dir) -> anchored all src e.
Proof.
  rewrite referenceConnections_spec. intros (ref & t & _ & Ht & _ & _ & ->).
  destruct dir; [right | left]; simpl; auto with disc.
Qed.

Lemma referenceConnections_no_self rule src all gid dir e :
  In e (referenceConnections rule src all gid dir) -> sourceId e <> targetId e.
Proof.
  rewrite referenceConnections_spec. intros (ref & t & _ & _ & _ & Hne & ->).
  destruct dir; simpl; congruence.
Qed.

Lemma processSecurityGroupRule_anchored rule src all gid dir e :
  In e (processSecurityGroupRule rule src all gid dir) -> anchored all src e.
Proof.
  unfold processSecurityGroupRule. rewrite in_app_iff.
  intros [H|H]; eauto using mockRuleConnections_anchored, referenceConnections_anchored.
Qed.

Lemma mockConnections_anchored r all e :
  In e (mockConnections r all) -> anchored all r e.
Proof.
  unfold mockConnections.
  destruct (isFixtureDatabase r); [intros []|].
  destruct (isFixtureService r); [|intros []].
  destruct (List.find _ all) as [db|] eqn:Hf; [|intros []].
  find_inv Hf. intros [<-|[]]. left. simpl. auto with disc.
Qed.

(** An edge of [getSecurityGroupConnections], traced back to the branch
    that built it. *)
Lemma getSecurityGroupConnections_cases P r all e :
  In e (getSecurityGroupConnections P r all) ->
  In e (mockConnections r all)
  \/ exists gid, In e (mockRuleConnections r all gid)
  \/ exists rule dir, In e (referenceConnections rule r all gid dir).
Proof.
  unfold getSecurityGroupConnections.
  destruct (resolvedSecurityGroupIds r) as [|g ids]; [intros []|].
  destruct (hasMockSecurityGroups (g :: ids)); [now left|].
  destruct (describeSecurityGroups P (region r) (g :: ids)) as [groups|]; [|intros []].
  intros H. right. apply in_flat_map in H as (sg & _ & H).
  exists (GroupId sg). unfold groupConnections in H.
  apply in_app_iff in H as [H|H]; apply in_flat_map in H as (rule & _ & H);
    unfold processSecurityGroupRule in H; apply in_app_iff in H as [H|H]; eauto.
Qed.

Lemma getSecurityGroupConnections_anchored P r all e :
  In e (getSecurityGroupConnections P r all) -> anchored all r e.
Proof.
  intros H. apply getSecurityGroupConnections_cases in H as [H|(gid & [H|(rule & dir & H)])];
    eauto using mockConnections_anchored, mockRuleConnections_anchored,
                referenceConnections_anchored.
Qed.

Lemma withSecurityGroups_id r ids : id (withSecurityGroups r ids) = id r.
Proof. reflexivity. Qed.

Lemma retarget_sound all instance cluster c :
  In instance all -> anchored all instance c ->
  touches cluster (retarget instance cluster c)
  /\ resolved all cluster (retarget instance cluster c).
Proof.
  intros Hi [[Hs Ht]|[Ht Hs]]; unfold touches, resolved, retarget; simpl.
  - rewrite Hs, String.eqb_refl.
    destruct (String.eqb (targetId c) (id instance)); auto.
  - rewrite Ht, String.eqb_refl.
    destruct (String.eqb (sourceId c) (id instance)); auto.
Qed.

Lemma eventBridgeLoop_sound all r targets e :
  In e (fst (eventBridgeLoop all r targets)) -> anchored all r e.
Proof.
  induction targets as [|t targets IH]; simpl; [intros []|].
  destruct (Arn t) as [arn|].
  - destruct (eventBridgeLoop all r targets) as [more completion]. simpl in *.
    rewrite in_app_iff. intros [H|H]; [|auto].
    destruct (List.find _ all) as [tr|] eqn:Hf; [|destruct H].
    find_inv Hf. destruct H as [<-|[]]. left. simpl. auto with disc.
  - destruct all; [assumption | intros []].
Qed.

Lemma clusterInstances_In all r i : In i (clusterInstances all r) -> In i all.
Proof. unfold clusterInstances. rewrite filter_In. tauto. Qed.

Lemma nameBasedInstances_In all r i : In i (nameBasedInstances all r) -> In i all.
Proof. unfold nameBasedInstances. rewrite filter_In. tauto. Qed.

(** Every edge pushed while [r] is processed has [r] at one end, and each
    of its ends is [r] or a resource of the inventory. *)
Lemma extract_sound P all r e :
  In e (fst (extract P all r)) -> touches r e /\ resolved all r e.
Proof.
  assert (Hanch : forall e, anchored all r e -> touches r e /\ resolved all r e).
  { eauto using anchored_touches, anchored_resolved. }
  unfold extract. destruct (type r); simpl.
  - (* ecs *)
    unfold ecsEdges. destruct (nonEmpty _); [|intros []].
    intros H. apply getSecurityGroupConnections_anchored in H. auto.
  - (* aurora *)
    rewrite in_app_iff. intros [H|H].
    + unfold auroraInstanceOfEdges in H. apply in_app_iff in H as [H|H];
        apply in_map_iff in H as (i & <- & H).
      * apply clusterInstances_In in H. apply Hanch. right. simpl. auto with disc.
      * apply filter_In in H as [H _]. apply nameBasedInstances_In in H.
        apply Hanch. right. simpl. auto with disc.
    + unfold auroraConnectionEdges in H. destruct (nonEmpty _).
      * apply getSecurityGroupConnections_anchored in H. auto.
      * apply in_flat_map in H as (i & Hi & H). apply filter_In in Hi as [Hi _].
        apply clusterInstances_In in Hi. apply in_map_iff in H as (c & <- & H).
        apply getSecurityGroupConnections_anchored in H.
        now apply retarget_sound.
  - (* aurora-instance *)
    rewrite in_app_iff. intros [H|H].
    + unfold auroraInstanceParentEdges in H.
      destruct (clusterId r) as [cid|]; [|destruct H].
      destruct (truthy cid); [|destruct H].
      destruct (List.find _ all) as [c|] eqn:Hf; [|destruct H].
      find_inv Hf. destruct H as [<-|[]]. apply Hanch. left. simpl. auto with disc.
    + apply getSecurityGroupConnections_anchored in H. auto.
  - (* lambda *)
    rewrite in_app_iff. intros [H|H]; apply in_flat_map in H as (x & _ & H);
      destruct (List.find _ all) as [t|] eqn:Hf; try destruct H as [<-|[]]; try destruct H;
      find_inv Hf; apply Hanch; [right | left]; simpl; auto with disc.
  - (* ec2 *)
    unfold ec2Edges. intros H. apply in_map_iff in H as (c & <- & H).
    apply getSecurityGroupConnections_anchored in H.
    unfold touches, resolved; simpl. split; [now left|]. split; [now left|].
    destruct H as [[_ H]|[H _]]; auto.
  - (* stepfunctions *)
    unfold stepFunctionEdges. simpl. intros [].
  - (* apigateway *)
    intros H. apply in_flat_map in H as (x & _ & H).
    destruct (List.find _ all) as [t|] eqn:Hf; [|destruct H].
    find_inv Hf. destruct H as [<-|[]]. apply Hanch. left. simpl. auto with disc.
  - (* eventbridge *)
    intros H. apply eventBridgeLoop_sound in H. auto.
  - (* alb *)
    intros H. apply in_flat_map in H as (x & _ & H).
    destruct (List.find _ all) as [t|] eqn:Hf; [|destruct H].
    find_inv Hf. destruct H as [<-|[]]. apply Hanch. left. simpl. auto with disc.
  - (* nlb *)
    intros H. apply in_flat_map in H as (x & _ & H).
    destruct (List.find _ all) as [t|] eqn:Hf; [|destruct H].
    find_inv Hf. destruct H as [<-|[]]. apply Hanch. left. simpl. auto with disc.
Qed.

(** The list built by the discovery loop is the concatenation of what
    each resource of interest pushed. *)
Lemma fold_processResource P all rs acc :
  fold_left (processResource P all) rs acc
  = acc ++ flat_map (fun r => fst (extract P all r)) rs.
Proof.
  revert acc. induction rs as [|r rs IH]; intros acc; simpl.
  - now rewrite app_nil_r.
  - rewrite IH. unfold processResource.
    destruct (extract P all r) as [pushed []]; simpl; now rewrite app_assoc.
Qed.

Lemma discoveredRelationships_In P all focus e :
  In e (discoveredRelationships P all focus) <->
  exists r, In r (resourcesOfInterest all focus) /\ In e (fst (extract P all r)).
Proof.
  unfold discoveredRelationships. rewrite fold_processResource. simpl.
  apply in_flat_map.
Qed.

Lemma resourcesOfInterest_incl all focus :
  focusWithin all focus -> incl (resourcesOfInterest all focus) all.
Proof. destruct focus; simpl; [auto | intros _; apply incl_refl]. Qed.

Lemma discovered_resolved P all focus e :
  focusWithin all focus -> In e (discoveredRelationships P all focus) ->
  knownId all (sourceId e) /\ knownId all (targetId e).
Proof.
  intros Hf H. apply discoveredRelationships_In in H as (r & Hr & H).
  apply resourcesOfInterest_incl in Hr; [|assumption].
  apply extract_sound in H as [_ [Hs Ht]].
  split; [destruct Hs as [->|]|destruct Ht as [->|]]; auto with disc.
Qed.

(* ===================================================================== *)
(** ** Endpoints of the returned edges (C5) *)
(* ===================================================================== *)

(** C5. For every resource set [S] and focus subset drawn from it, both
    ends of every edge returned by [discoverResourceRelationships] are ids
    of resources of [S]: an edge is only built from resources that were
    found, so no end is left unresolved. *)
Theorem C5_endpoints_in_resource_set P S F e :
  focusWithin S F ->
  In e (discoverResourceRelationships P S F) ->
  (exists r, In r S /\ sourceId e = id r) /\ (exists r, In r S /\ targetId e = id r).
Proof.
  intros Hf H. apply deduplicate_In in H.
  destruct (discovered_resolved P S F e Hf H) as [Hs Ht].
  unfold knownId in *. rewrite in_map_iff in Hs, Ht.
  destruct Hs as (a & Ha & Hina), Ht as (b & Hb & Hinb).
  split; [exists a | exists b]; auto.
Qed.

Lemma C5_endpoints_witness :
  focusWithin [ClusterA; InstanceA] (Some [InstanceA])
  /\ In (instanceOf InstanceA ClusterA)
        (discoverResourceRelationships failingProvider [ClusterA; InstanceA] (Some [InstanceA]))
  /\ ((exists r, In r [ClusterA; InstanceA] /\ "i1" = id r)
      /\ (exists r, In r [ClusterA; InstanceA] /\ "c1" = id r)).
Proof.
  assert (H1 : focusWithin [ClusterA; InstanceA] (Some [InstanceA])).
  { simpl. intros r [<-|[]]. right. now left. }
  assert (H2 : In (instanceOf InstanceA ClusterA)
                  (discoverResourceRelationships failingProvider [ClusterA; InstanceA]
                                                 (Some [InstanceA]))).
  { vm_compute. left. reflexivity. }
  split; [exact H1|]. split; [exact H2|].
  exact (C5_endpoints_in_resource_set failingProvider [ClusterA; InstanceA]
           (Some [InstanceA]) (instanceOf InstanceA ClusterA) H1 H2).
Defined.

(* ===================================================================== *)
(** ** Deduplication (C2) *)
(* ===================================================================== *)

Lemma NoDup_map_coarser {A B C} (f : A -> B) (g : A -> C) (l : list A) :
  (forall a b, f a = f b -> g a = g b) ->
  List.NoDup (map g l) -> List.NoDup (map f l).
Proof.
  intros Hfg. induction l as [|x l IH]; simpl; intros Hnd; [constructor|].
  inversion Hnd as [|? ? Hnotin Hnd']; subst. constructor; [|auto].
  intros Hin. apply Hnotin. apply in_map_iff in Hin as (y & Hy & Hin).
  apply in_map_iff. exists y. split; [apply Hfg; assumption | assumption].
Qed.

(** At most one returned edge per triple, whatever the input. *)
Lemma returned_triples_unique P S F :
  List.NoDup (map triple (discoverResourceRelationships P S F)).
Proof.
  apply NoDup_map_coarser with (g := relationshipKey); [apply triple_key|].
  apply deduplicate_NoDup_keys.
Qed.

Lemma first_occurrence {A} (p : A -> bool) (l : list A) (e : A) :
  In e l -> p e = true ->
  exists pre e1 post, l = pre ++ e1 :: post /\ p e1 = true
                      /\ forall x, In x pre -> p x = false.
Proof.
  induction l as [|x l IH]; simpl; [tauto|]. intros Hin Hp.
  destruct (p x) eqn:Hx.
  - exists [], x, l. split; [reflexivity|]. split; [assumption|]. intros y [].
  - destruct Hin as [->|Hin]; [congruence|].
    destruct (IH Hin Hp) as (pre & e1 & post & -> & Hp1 & Hpre).
    exists (x :: pre), e1, post. split; [reflexivity|]. split; [assumption|].
    intros y [<-|Hy]; auto.
Qed.

Lemma discovered_barFree P S F e :
  focusWithin S F -> barFreeIds S -> In e (discoveredRelationships P S F) ->
  hasBar (sourceId e) = false /\ hasBar (targetId e) = false.
Proof.
  intros Hf Hb H. destruct (discovered_resolved P S F e Hf H) as [Hs Ht].
  unfold knownId in *. rewrite in_map_iff in Hs, Ht.
  destruct Hs as (a & <- & Ha), Ht as (b & <- & Hb'). auto.
Qed.

(** C2 (amended). For a resource set whose ids do not hold the character
    ['|'] that separates the parts of the deduplication key, the returned
    list has at most one edge per (sourceId, targetId, type) triple, and
    for every emitted edge it keeps exactly the first emitted edge with
    that triple: that edge (with its metadata) is in the output and is the
    only output edge with the triple. *)
Theorem C2_first_emitted_edge_wins P S F :
  focusWithin S F -> barFreeIds S -> firstEmittedWins P S F.
Proof.
  intros Hf Hb. split; [apply returned_triples_unique|].
  intros e He.
  destruct (first_occurrence
              (fun x => bool_decide (relationshipKey x = relationshipKey e))
              _ e He) as (pre & e1 & post & Heq & Hk1 & Hpre).
  { now apply bool_decide_eq_true. }
  apply bool_decide_eq_true in Hk1.
  assert (He1 : In e1 (discoveredRelationships P S F)).
  { rewrite Heq. apply in_or_app. right. now left. }
  destruct (discovered_barFree P S F e Hf Hb He) as [Hse Hte].
  destruct (discovered_barFree P S F e1 Hf Hb He1) as [Hs1 Ht1].
  assert (Hin1 : In e1 (discoverResourceRelationships P S F)).
  { unfold discoverResourceRelationships. rewrite Heq.
    apply deduplicate_first; [apply lookup_empty|].
    intros x Hx Hkx. specialize (Hpre x Hx).
    apply bool_decide_eq_false in Hpre. apply Hpre. congruence. }
  exists pre, e1, post. split; [assumption|].
  split; [now apply key_triple|].
  split.
  - intros x Hx Htx. specialize (Hpre x Hx).
    apply bool_decide_eq_false in Hpre. apply Hpre. now apply triple_key.
  - split; [assumption|]. intros e2 He2 Ht2.
    apply (NoDup_map_inj relationshipKey (discoverResourceRelationships P S F));
      [apply deduplicate_NoDup_keys | assumption | assumption |].
    rewrite Hk1. now apply triple_key.
Qed.

Lemma C2_first_emitted_edge_wins_witness :
  focusWithin [ClusterA; InstanceA] None
  /\ barFreeIds [ClusterA; InstanceA]
  /\ firstEmittedWins failingProvider [ClusterA; InstanceA] None.
Proof.
  assert (H1 : focusWithin [ClusterA; InstanceA] None) by exact I.
  assert (H2 : barFreeIds [ClusterA; InstanceA]).
  { intros r [<-|[<-|[]]]; reflexivity. }
  split; [exact H1|]. split; [exact H2|].
  exact (C2_first_emitted_edge_wins failingProvider [ClusterA; InstanceA] None H1 H2).
Defined.

(** C2 as stated fails where ids hold ['|']: the instances ["a|b"] of
    cluster ["c"] and ["a"] of cluster ["b|c"] give two different triples
    with the one key ["a|b|c|instance_of"], and the second edge is dropped
    although no edge with its triple was kept. *)
Lemma C2_key_collision_counterexample :
  ~ firstEmittedWins failingProvider barInventory None.
Proof.
  intros [_ H].
  destruct (H (instanceOf BarInstance2 BarCluster2))
    as (pre & e1 & post & _ & Ht & _ & Hin & _).
  { vm_compute. right. left. reflexivity. }
  vm_compute in Hin. destruct Hin as [<-|[]].
  vm_compute in Ht. discriminate Ht.
Qed.

(* ===================================================================== *)
(** ** Scoping to a focus subset (C1) *)
(* ===================================================================== *)

Lemma returned_from_extractor P S F e :
  In e (discoverResourceRelationships P S F) ->
  exists r, In r (resourcesOfInterest S F) /\ In e (fst (extract P S r)).
Proof. intros H. apply deduplicate_In in H. now apply discoveredRelationships_In. Qed.

Lemma extractor_key_returned P S F r e :
  In r (resourcesOfInterest S F) -> In e (fst (extract P S r)) ->
  exists e', In e' (discoverResourceRelationships P S F)
             /\ relationshipKey e' = relationshipKey e.
Proof.
  intros Hr He. apply deduplicate_covers; [|apply lookup_empty].
  apply discoveredRelationships_In. eauto.
Qed.

(** C1 (amended). For every full set [S] and focus subset [F] of it, the
    focused discovery runs the extractors of the resources of [F] only,
    each over the whole of [S], and filters nothing afterwards: it returns
    the deduplicated edges of these extractors, so every returned edge was
    pushed by the extractor of a resource of [F], and an edge that only the
    extractor of a resource outside [F] pushes is not returned.  What it
    returns are, up to metadata, edges of the unfocused discovery; every
    returned edge has a resource of [F] at one end and resources of [S] at
    both; and every edge pushed by the extractor of a focus resource is
    returned (under its key), also when its far end lies outside [F]. *)
Theorem C1_focus_scoping P S F : incl F S -> focusScoped P S F.
Proof.
  intros Hincl. unfold focusScoped.
  split; [|split; [|split; [|split; [|split; [|split]]]]].
  - unfold discoverResourceRelationships, discoveredRelationships.
    now rewrite fold_processResource.
  - intros e He. now apply returned_from_extractor in He.
  - intros e Hnone He. apply returned_from_extractor in He as (r & Hr & He).
    exact (Hnone r Hr He).
  - intros e He. apply returned_from_extractor in He as (r & Hr & He). simpl in Hr.
    apply extractor_key_returned with (r := r); [simpl; auto | assumption].
  - intros e He. apply returned_from_extractor in He as (r & Hr & He).
    exists r. split; [assumption|]. now apply extract_sound in He.
  - intros e He. apply deduplicate_In in He.
    now apply (discovered_resolved P S (Some F)).
  - intros r e Hr He. now apply extractor_key_returned with (r := r).
Qed.

Lemma C1_focus_scoping_witness :
  incl [InstanceA] [ClusterA; InstanceA]
  /\ focusScoped failingProvider [ClusterA; InstanceA] [InstanceA].
Proof.
  assert (H : incl [InstanceA] [ClusterA; InstanceA]).
  { intros r [<-|[]]. right. now left. }
  split; [exact H|].
  exact (C1_focus_scoping failingProvider [ClusterA; InstanceA] [InstanceA] H).
Defined.

(** The trigger of a function by a gateway is found by the extractor of
    the gateway: the discovery focused on the function does not return it. *)
Example focused_discovery_misses_inbound_trigger :
  discoverResourceRelationships gatewayProvider [Gateway; Handler] None
  = [ mkRel "abc123" (id Handler) TRIGGERS (Some (MdMethodPath "GET" "/orders")) ]
  /\ discoverResourceRelationships gatewayProvider [Gateway; Handler] (Some [Handler]) = [].
Proof. split; reflexivity. Qed.

(** The same connection seen from its two ends: the whole graph keeps the
    edge pushed first, for the outbound rule of [D1]; the discovery focused
    on [D2] returns the edge of the inbound rule of [D2].  Same triple,
    other metadata: the focused result is a subset of the whole graph by
    key only. *)
Example focused_edge_metadata_differs :
  discoverResourceRelationships pairedProvider [D1; D2] None
  = [ mkRel "d1" "d2" CONNECTS_TO
        (Some (MdSecurityGroups ["sg-a"] ["sg-b"]
                 [ {| protocol := Some "tcp"; fromPort := Some 5432%Z;
                      toPort := Some 5432%Z; securityGroupId := "sg-b";
                      direction := outbound |} ])) ]
  /\ discoverResourceRelationships pairedProvider [D1; D2] (Some [D2])
     = [ mkRel "d1" "d2" CONNECTS_TO
           (Some (MdSecurityGroups ["sg-a"] ["sg-b"]
                    [ {| protocol := Some "tcp"; fromPort := Some 5432%Z;
                         toPort := Some 5432%Z; securityGroupId := "sg-a";
                         direction := inbound |} ])) ].
Proof. split; reflexivity. Qed.

(** C1 as stated fails: the instance [InstanceB] names its cluster by
    display name, a match that only the extractor of the cluster makes.
    The whole graph holds the edge, the discovery focused on the instance
    does not, although the cluster is in the full set. *)
Lemma C1_external_edge_counterexample :
  ~ externalEdgesIncluded failingProvider [ClusterB; InstanceB] [InstanceB].
Proof.
  intros H.
  specialize (H (instanceOf InstanceB ClusterB) InstanceB ClusterB).
  assert (Hin : In (instanceOf InstanceB ClusterB)
                   (discoverResourceRelationships failingProvider [ClusterB; InstanceB]
                                                  (Some [InstanceB]))).
  { apply H.
    - vm_compute. left. reflexivity.
    - now left.
    - now left.
    - intros [Heq|[]]. apply (f_equal id) in Heq. vm_compute in Heq. discriminate Heq.
    - left. split; reflexivity. }
  vm_compute in Hin. exact Hin.
Qed.

(* ===================================================================== *)
(** ** Direction convention of the security-group resolver (C3) *)
(* ===================================================================== *)



Lemma getSecurityGroupConnections_described P r all groups :
  securityGroupsDescribed P r groups ->
  getSecurityGroupConnections P r all = flat_map (groupConnections r all) groups.
Proof.
  intros (Hne & Hmock & Hd). unfold getSecurityGroupConnections.
  destruct (resolvedSecurityGroupIds r) as [|g ids]; [contradiction|].
  now rewrite Hmock, Hd.
Qed.

Lemma groupConnections_In r all sg e :
  In e (groupConnections r all sg)
  <-> exists rule dir, ruleOf sg rule dir
                       /\ In e (processSecurityGroupRule rule r all (GroupId sg) dir).
Proof.
  unfold groupConnections. rewrite in_app_iff, !in_flat_map. split.
  - intros [(rule & Hr & He)|(rule & Hr & He)];
      [exists rule, inbound | exists rule, outbound]; auto.
  - intros (rule & [|] & Hr & He); [left | right]; exists rule; auto.
Qed.





(** What the resolver returns for the fixture database of the
    counterexample: the synthetic edge, then the edge of the rule. *)
Example fixture_database_connections :
  getSecurityGroupConnections egressProvider Database2 [ServiceTest2; Database2; Resolver]
  = [ databaseFromServiceEdge ServiceTest2 Database2 "sg-db";
      mkRel (id Database2) "i-dns" CONNECTS_TO
        (Some (MdSecurityGroups ["sg-db"] ["sg-dns"]
                 [ {| protocol := Some "udp"; fromPort := Some 53%Z;
                      toPort := Some 53%Z; securityGroupId := "sg-dns";
                      direction := outbound |} ])) ].
Proof. reflexivity. Qed.

Example processSecurityGroupRule_example :
  processSecurityGroupRule ingress3306 R2 [R1; R2] "sg-2" inbound
  = [ mkRel "r1" "r2" CONNECTS_TO
        (Some (MdSecurityGroups ["sg-1"] ["sg-2"]
                 [ {| protocol := Some "tcp"; fromPort := Some 3306%Z;
                      toPort := Some 3306%Z; securityGroupId := "sg-1";
                      direction := inbound |} ])) ].
Proof. reflexivity. Qed.

(* ===================================================================== *)
(** ** The hardcoded fixture of the resolver (C10) *)
(* ===================================================================== *)

Lemma getSecurityGroupConnections_mock P r all :
  hasMockSecurityGroups (resolvedSecurityGroupIds r) = true ->
  getSecurityGroupConnections P r all = mockConnections r all.
Proof.
  unfold getSecurityGroupConnections. intros H.
  destruct (resolvedSecurityGroupIds r) as [|g ids]; [discriminate H|].
  now rewrite H.
Qed.

Lemma isFixtureService_true r :
  isFixtureService r = true <-> name r = "service-test-2" /\ application r = "test-app2".
Proof.
  unfold isFixtureService. rewrite andb_true_iff, !String.eqb_eq. tauto.
Qed.

Lemma isFixtureDatabase_true r :
  isFixtureDatabase r = true <->
  name r = "database-2-instance-1" /\ application r = "test-app2".
Proof.
  unfold isFixtureDatabase. rewrite andb_true_iff, !String.eqb_eq. tauto.
Qed.

Lemma fixtureService_not_database r :
  isFixtureService r = true -> isFixtureDatabase r = false.
Proof.
  rewrite isFixtureService_true. intros [Hn _].
  unfold isFixtureDatabase. rewrite Hn. reflexivity.
Qed.

Lemma typeEqb_true a b : typeEqb a b = true <-> a = b.
Proof. unfold typeEqb. apply bool_decide_eq_true. Qed.

(** C10. Whenever the resolved group list of a resource holds the literal
    id 'sg-0123456789abcdef0', [getSecurityGroupConnections] makes no
    remote lookup (its answer does not depend on the provider): for the
    resource named 'service-test-2' of application 'test-app2' it returns
    the one synthetic connects_to edge (tcp, port 3306) to the resource of
    type 'aurora-instance' named 'database-2-instance-1', when the
    inventory has one, and nothing otherwise; for every other resource it
    returns nothing.  And whenever a rule of 'database-2-instance-1' of
    application 'test-app2' is processed, the mirrored edge from the ECS
    service 'service-test-2' is emitted: by every call of
    [processSecurityGroupRule], and so by the resolver for every rule,
    ingress or egress, of every group that the provider describes for the
    database (which then has groups of its own, none of them the mock
    group). *)
Theorem C10_mock_group_fixture P r all :
  (hasMockSecurityGroups (resolvedSecurityGroupIds r) = true -> fixtureBehaviour r all)
  /\ mirroredFixtureEdge P r all.
Proof.
  split.
  - intros Hmock.
    assert (Hm : forall P, getSecurityGroupConnections P r all = mockConnections r all).
    { intros P0. now apply getSecurityGroupConnections_mock. }
    unfold fixtureBehaviour. repeat split.
    + intros P1 P2. now rewrite !Hm.
    + intros Hn Ha (db0 & Hin0 & Hty0 & Hnm0).
      assert (Hs : isFixtureService r = true) by (apply isFixtureService_true; auto).
      destruct (List.find (fun x => typeEqb (type x) aurora_instance
                                    && String.eqb (name x) "database-2-instance-1") all)
        as [db|] eqn:Hf.
      * pose proof Hf as Hf'. find_inv Hf'.
        apply andb_true_iff in Hp as [Hty Hnm].
        apply typeEqb_true in Hty. apply String.eqb_eq in Hnm.
        exists db. repeat split; try assumption.
        intros P0. rewrite Hm. unfold mockConnections.
        rewrite (fixtureService_not_database r Hs), Hs, Hf. reflexivity.
      * exfalso. apply (List.find_none _ _ Hf) in Hin0.
        rewrite Hty0, Hnm0 in Hin0. discriminate Hin0.
    + intros Hn Ha Hnone P0. rewrite Hm. unfold mockConnections.
      destruct (isFixtureDatabase r); [reflexivity|].
      destruct (isFixtureService r); [|reflexivity].
      destruct (List.find _ all) as [db|] eqn:Hf; [|reflexivity].
      find_inv Hf. apply andb_true_iff in Hp as [Hty Hnm].
      apply typeEqb_true in Hty. apply String.eqb_eq in Hnm.
      exfalso. exact (Hnone db Hin Hty Hnm).
    + intros Hnot P0. rewrite Hm. unfold mockConnections.
      destruct (isFixtureDatabase r); [reflexivity|].
      destruct (isFixtureService r) eqn:Hs; [|reflexivity].
      apply isFixtureService_true in Hs. contradiction.
  - intros Hn Ha (svc0 & Hin0 & Hty0 & Hap0 & Hnm0).
    assert (Hd : isFixtureDatabase r = true) by (apply isFixtureDatabase_true; auto).
    destruct (List.find (fun x => typeEqb (type x) ecs
                                  && String.eqb (application x) "test-app2"
                                  && String.eqb (name x) "service-test-2") all)
      as [svc|] eqn:Hf.
    + pose proof Hf as Hf'. find_inv Hf'.
      apply andb_true_iff in Hp as [Hp Hnm]. apply andb_true_iff in Hp as [Hty Hap].
      apply typeEqb_true in Hty. apply String.eqb_eq in Hnm, Hap.
      assert (Hrule : forall rule gid dir,
                In (databaseFromServiceEdge svc r gid)
                   (processSecurityGroupRule rule r all gid dir)).
      { intros rule gid dir. unfold processSecurityGroupRule. apply in_or_app. left.
        unfold mockRuleConnections. rewrite Hd, Hf. now left. }
      exists svc. repeat split; try assumption.
      intros groups sg rule dir Hdesc Hsg Hr.
      rewrite (getSecurityGroupConnections_described P r all groups Hdesc).
      apply in_flat_map. exists sg. split; [assumption|].
      apply groupConnections_In. exists rule, dir. auto.
    + exfalso. apply (List.find_none _ _ Hf) in Hin0.
      rewrite Hty0, Hap0, Hnm0 in Hin0. discriminate Hin0.
Qed.

(** The two halves on the fixture pair: the service, which holds the mock
    group, and the database with a group of its own, whose egress rule is
    processed. *)
Lemma C10_mock_group_fixture_witness :
  hasMockSecurityGroups (resolvedSecurityGroupIds ServiceTest2) = true
  /\ fixtureBehaviour ServiceTest2 [ServiceTest2; Database2; Resolver]
  /\ mirroredFixtureEdge egressProvider Database2 [ServiceTest2; Database2; Resolver]
  /\ In (databaseFromServiceEdge ServiceTest2 Database2 "sg-db")
        (getSecurityGroupConnections egressProvider Database2
           [ServiceTest2; Database2; Resolver]).
Proof.
  assert (H : hasMockSecurityGroups (resolvedSecurityGroupIds ServiceTest2) = true)
    by reflexivity.
  split; [exact H|]. split; [|split].
  - exact (proj1 (C10_mock_group_fixture egressProvider ServiceTest2
                    [ServiceTest2; Database2; Resolver]) H).
  - exact (proj2 (C10_mock_group_fixture egressProvider Database2
                    [ServiceTest2; Database2; Resolver])).
  - vm_compute. left. reflexivity.
Defined.

Example fixture_service_edge P :
  discoverResourceRelationships P [ServiceTest2; Database2] (Some [ServiceTest2])
  = [serviceToDatabaseEdge ServiceTest2 Database2].
Proof. reflexivity. Qed.

(* ===================================================================== *)
(** ** Self-edges (C4) *)
(* ===================================================================== *)

(** The far end of a connection of the resolver. *)
Lemma getSecurityGroupConnections_far_end P r all e :
  In e (getSecurityGroupConnections P r all) ->
  exists y, In y all
    /\ ((sourceId e = id r /\ targetId e = id y) \/ (sourceId e = id y /\ targetId e = id r))
    /\ ((id y <> id r /\ exists ref, usesGroup ref y = true)
        \/ (type y = ecs /\ name y = "service-test-2"
            /\ name r = "database-2-instance-1")
        \/ (type y = aurora_instance /\ name y = "database-2-instance-1"
            /\ name r = "service-test-2")).
Proof.
  intros H. apply getSecurityGroupConnections_cases in H as [H|(gid & [H|(rule & dir & H)])].
  - unfold mockConnections in H.
    destruct (isFixtureDatabase r); [destruct H|].
    destruct (isFixtureService r) eqn:Hs; [|destruct H].
    destruct (List.find _ all) as [db|] eqn:Hf; [|destruct H].
    find_inv Hf. destruct H as [<-|[]].
    apply andb_true_iff in Hp as [Hty Hnm].
    apply typeEqb_true in Hty. apply String.eqb_eq in Hnm.
    apply isFixtureService_true in Hs as [Hn _].
    exists db. split; [assumption|]. split; [left; auto|]. right. right. auto.
  - unfold mockRuleConnections in H.
    destruct (isFixtureDatabase r) eqn:Hd; [|destruct H].
    destruct (List.find _ all) as [svc|] eqn:Hf; [|destruct H].
    find_inv Hf. destruct H as [<-|[]].
    apply andb_true_iff in Hp as [Hp Hnm]. apply andb_true_iff in Hp as [Hty _].
    apply typeEqb_true in Hty. apply String.eqb_eq in Hnm.
    apply isFixtureDatabase_true in Hd as [Hn _].
    exists svc. split; [assumption|]. split; [right; auto|]. right. left. auto.
  - apply referenceConnections_spec in H as (ref & t & _ & Ht & Hu & Hne & ->).
    exists t. split; [assumption|]. split; [destruct dir; simpl; auto|]. left. eauto.
Qed.

(** No connection of the resolver joins a resource of the inventory to
    itself; [r'] stands for [r] or its copy with the groups filled in. *)
Lemma getSecurityGroupConnections_no_self P r r' all e :
  idsIdentify all -> In r all -> id r' = id r -> name r' = name r ->
  In e (getSecurityGroupConnections P r' all) -> sourceId e <> targetId e.
Proof.
  intros Hids Hr Hid Hname H.
  apply getSecurityGroupConnections_far_end in H as (y & Hy & Hends & Hkind).
  assert (Hne : id y <> id r').
  { destruct Hkind as [[Hne _]|[(_ & Hny & Hnr)|(_ & Hny & Hnr)]]; [assumption| |];
      intros Heq; rewrite Hid in Heq; apply (Hids y r Hy Hr) in Heq; subst y;
      rewrite Hname in Hnr; rewrite Hny in Hnr; discriminate Hnr. }
  destruct Hends as [[-> ->]|[-> ->]]; congruence.
Qed.

Lemma find_type_differs (all : list AWSResource) (p : AWSResource -> bool)
    (r t : AWSResource) :
  idsIdentify all -> In r all -> List.find p all = Some t ->
  (forall x, p x = true -> type x <> type r) -> id r <> id t.
Proof.
  intros Hids Hr Hf Hp Heq. find_inv Hf.
  apply (Hids r t Hr Hin) in Heq. subst t. now apply (Hp r).
Qed.

Lemma usesGroup_no_groups g r :
  auroraClusterSecurityGroups r = [] -> detailSecurityGroups r = None ->
  usesGroup g r = false.
Proof.
  unfold auroraClusterSecurityGroups, usesGroup. intros Hc Hd.
  destruct (securityGroups r) as [ids|]; [now subst ids|].
  destruct (tagSecurityGroups r) as [s|]; [now apply split_nonEmpty in Hc|].
  now rewrite Hd.
Qed.

Lemma nonEmpty_false {A} (l : list A) : nonEmpty l = false -> l = [].
Proof. destruct l; [reflexivity | discriminate]. Qed.

(** The extractor of a resource that is [selfEdgeFree] pushes no edge from
    the resource to itself. *)
Lemma extract_no_self P all r e :
  idsIdentify all -> In r all -> selfEdgeFree r = true ->
  In e (fst (extract P all r)) -> sourceId e <> targetId e.
Proof.
  intros Hids Hr Hsafe.
  assert (Hfind : forall (p : AWSResource -> bool) t,
             List.find p all = Some t ->
             (forall x, p x = true -> type x <> type r) -> id r <> id t).
  { intros p t Hf Hp. eapply find_type_differs; eauto. }
  unfold selfEdgeFree in Hsafe. unfold extract.
  destruct (type r) eqn:Hty; try discriminate Hsafe; simpl.
  - (* ecs *)
    unfold ecsEdges. destruct (nonEmpty _); [|intros []].
    now apply getSecurityGroupConnections_no_self with (r := r).
  - (* aurora *)
    destruct (detailSecurityGroups r) eqn:Hdet; [discriminate Hsafe|].
    rewrite in_app_iff. intros [H|H].
    + assert (Hi : exists i, In i all /\ type i = aurora_instance /\ e = instanceOf i r).
      { unfold auroraInstanceOfEdges in H.
        apply in_app_iff in H as [H|H]; apply in_map_iff in H as (i & <- & H).
        - unfold clusterInstances in H. apply filter_In in H as [H Hp].
          apply andb_true_iff in Hp as [Hp _]. apply typeEqb_true in Hp. eauto.
        - apply filter_In in H as [H _]. unfold nameBasedInstances in H.
          apply filter_In in H as [H Hp].
          apply andb_true_iff in Hp as [Hp _]. apply typeEqb_true in Hp. eauto. }
      destruct Hi as (i & Hi & Hti & ->). simpl. intros Heq.
      apply (Hids i r Hi Hr) in Heq. subst i. congruence.
    + unfold auroraConnectionEdges in H.
      destruct (nonEmpty (auroraClusterSecurityGroups r)) eqn:Hne.
      * now apply getSecurityGroupConnections_no_self with (r := r) in H.
      * apply nonEmpty_false in Hne.
        apply in_flat_map in H as (i & Hi & H). apply filter_In in Hi as [Hi _].
        unfold clusterInstances in Hi. apply filter_In in Hi as [Hi Hp].
        apply andb_true_iff in Hp as [Hti _]. apply typeEqb_true in Hti.
        apply in_map_iff in H as (c & <- & H).
        pose proof (getSecurityGroupConnections_no_self P i i all c Hids Hi
                      eq_refl eq_refl H) as Hself.
        apply getSecurityGroupConnections_far_end in H as (y & Hy & Hends & Hkind).
        assert (Hyr : id y <> id r).
        { intros Heq. apply (Hids y r Hy Hr) in Heq. subst y.
          destruct Hkind as [[_ [ref Hu]]|[(Hty' & _)|(Hty' & _)]]; try congruence.
          rewrite (usesGroup_no_groups ref r Hne Hdet) in Hu. discriminate Hu. }
        assert (Hyi : id y <> id i).
        { destruct Hends as [[Hs Ht]|[Hs Ht]]; congruence. }
        apply String.eqb_neq in Hyi.
        unfold retarget; simpl.
        destruct Hends as [[-> ->]|[-> ->]]; rewrite String.eqb_refl, Hyi; congruence.
  - (* aurora-instance *)
    rewrite in_app_iff. intros [H|H].
    + unfold auroraInstanceParentEdges in H.
      destruct (clusterId r) as [cid|]; [|destruct H].
      destruct (truthy cid); [|destruct H].
      destruct (List.find _ all) as [c|] eqn:Hf; [|destruct H].
      destruct H as [<-|[]]. simpl. apply (Hfind _ _ Hf).
      intros x Hp. apply andb_true_iff in Hp as [Hp _]. apply typeEqb_true in Hp.
      congruence.
    + now apply getSecurityGroupConnections_no_self with (r := r) in H.
  - (* stepfunctions *)
    unfold stepFunctionEdges. simpl. intros [].
  - (* apigateway *)
    intros H. apply in_flat_map in H as (x & _ & H).
    destruct (List.find _ all) as [t|] eqn:Hf; [|destruct H].
    destruct H as [<-|[]]. simpl. apply (Hfind _ _ Hf).
    intros y Hp. apply andb_true_iff in Hp as [Hp _]. apply typeEqb_true in Hp.
    congruence.
  - (* alb *)
    intros H. apply in_flat_map in H as (x & _ & H).
    destruct (List.find _ all) as [t|] eqn:Hf; [|destruct H].
    destruct H as [<-|[]]. simpl. apply (Hfind _ _ Hf).
    intros y Hp. apply orb_true_iff in Hp as [Hp|Hp];
      apply andb_true_iff in Hp as [Hp _]; apply typeEqb_true in Hp; congruence.
  - (* nlb *)
    intros H. apply in_flat_map in H as (x & _ & H).
    destruct (List.find _ all) as [t|] eqn:Hf; [|destruct H].
    destruct H as [<-|[]]. simpl. apply (Hfind _ _ Hf).
    intros y Hp. apply orb_true_iff in Hp as [Hp|Hp];
      apply andb_true_iff in Hp as [Hp _]; apply typeEqb_true in Hp; congruence.
Qed.

(** C4 (amended). For a resource set whose ids identify its resources and
    a focus subset of it, every returned edge was pushed by the extractor
    of a resource under consideration, and every edge pushed by an
    extractor that pairs its resource with a resource of another type or
    relies on the rule matching of the resolver, which discards
    self-matches (types alb, nlb, apigateway, stepfunctions, ecs,
    aurora-instance, and aurora clusters without network-configuration
    groups of their own) has sourceId different from targetId, whatever
    other resources are under consideration.  So a returned edge from a
    resource to itself was pushed by one of the other extractors; those of
    functions and of event rules make no such check. *)
Theorem C4_no_self_edges_for_guarded_extractors P S F :
  focusWithin S F -> idsIdentify S -> noSelfEdgesFromGuarded P S F.
Proof.
  intros Hf Hids.
  assert (Hguard : forall r e, In r (resourcesOfInterest S F) -> selfEdgeFree r = true ->
                     In e (fst (extract P S r)) -> sourceId e <> targetId e).
  { intros r e Hr Hsafe He.
    apply extract_no_self with (P := P) (all := S) (r := r); auto.
    now apply (resourcesOfInterest_incl S F Hf). }
  split; [|split].
  - intros e He. now apply returned_from_extractor in He.
  - exact Hguard.
  - intros e He Hself. apply returned_from_extractor in He as (r & Hr & He).
    exists r. split; [assumption|]. split; [|assumption].
    destruct (selfEdgeFree r) eqn:Hsafe; [|reflexivity].
    exfalso. exact (Hguard r e Hr Hsafe He Hself).
Qed.

(** Two instances in one group that allows traffic from itself, beside a
    function that names itself: the rule matching of the resolver finds
    each instance among the users of its own group and skips it, so the
    instances are joined to each other only; the one self-edge returned is
    the edge of the function. *)
Lemma C4_no_self_edges_witness :
  focusWithin [SharedA; SharedB; SelfFunction] None
  /\ idsIdentify [SharedA; SharedB; SelfFunction]
  /\ noSelfEdgesFromGuarded selfReferencingProvider
       [SharedA; SharedB; SelfFunction] None
  /\ map triple (discoverResourceRelationships selfReferencingProvider
                   [SharedA; SharedB; SelfFunction] None)
     = [ ("s2", "s1", CONNECTS_TO); ("s1", "s2", CONNECTS_TO);
         (id SelfFunction, id SelfFunction, DEPENDS_ON) ].
Proof.
  assert (H1 : focusWithin [SharedA; SharedB; SelfFunction] None) by exact I.
  assert (H2 : idsIdentify [SharedA; SharedB; SelfFunction]).
  { intros a b [<-|[<-|[<-|[]]]] [<-|[<-|[<-|[]]]] H; try reflexivity; vm_compute in H;
      discriminate H. }
  split; [exact H1|]. split; [exact H2|]. split; [|reflexivity].
  exact (C4_no_self_edges_for_guarded_extractors selfReferencingProvider
           [SharedA; SharedB; SelfFunction] None H1 H2).
Defined.

(** C4 as stated fails outside the resolver: a function whose environment
    holds its own ARN is returned as depending on itself. *)
Lemma C4_self_dependency_counterexample :
  ~ noSelfEdges environmentProvider [SelfFunction] None.
Proof.
  intros H.
  apply (H (mkRel (id SelfFunction) (id SelfFunction) DEPENDS_ON
              (Some (MdAccessType "environment")))).
  - vm_compute. left. reflexivity.
  - reflexivity.
Qed.

(** The extractor of compute instances rebuilds each connection of the
    resolver from the instance to [connection.targetId]; for an inbound
    rule that target is the instance itself.  On the example of the
    specification (the group of [R1] referenced by an ingress rule of
    [R2]) the edge returned is from [R2] to [R2], without the rule. *)
Example ec2_inbound_rule_example :
  discoverResourceRelationships groupProvider [R1; R2] None
  = [ mkRel "r2" "r2" CONNECTS_TO (Some (MdProtocolPort None None)) ].
Proof. reflexivity. Qed.

(* ===================================================================== *)
(** ** Instances and their clusters (C6) *)
(* ===================================================================== *)

Lemma emitted_is_returned P S F r e :
  In r (resourcesOfInterest S F) -> In e (fst (extract P S r)) ->
  emittedAndReturned P S F e.
Proof.
  intros Hr He. split.
  - apply discoveredRelationships_In. eauto.
  - now apply extractor_key_returned with (r := r).
Qed.

Lemma optStrEqb_Some_refl s : optStrEqb (Some s) (Some s) = true.
Proof. simpl. apply String.eqb_refl. Qed.

(** C6 (amended). For every database instance under consideration that
    carries a non-empty clusterId, discovery emits an instance_of edge from
    the instance to the first cluster of the inventory whose id equals the
    clusterId or ends with [:cluster:<clusterId>]; and for every cluster
    under consideration it emits an instance_of edge from every instance
    whose clusterId equals the id of the cluster, the last [':']-separated
    piece of that id, or the display name of the cluster.  The returned
    list holds each such edge (or an earlier edge with the same key). *)
Theorem C6_instance_of_edges P S F : instanceEdges P S F.
Proof.
  split.
  - intros r cid c Hr Hty Hcid Htruthy Hf.
    apply emitted_is_returned with (r := r); [assumption|].
    unfold extract. rewrite Hty. simpl. apply in_or_app. left.
    unfold auroraInstanceParentEdges. rewrite Hcid, Htruthy, Hf. now left.
  - intros c i Hc Hty Hi Hti Hmatch.
    apply emitted_is_returned with (r := c); [assumption|].
    unfold extract. rewrite Hty. simpl. apply in_or_app. left.
    unfold auroraInstanceOfEdges.
    destruct (existsb (fun ci => String.eqb (id ci) (id i)) (clusterInstances S c))
      eqn:Hex.
    + (* an instance with the same id is among the id-matched ones *)
      apply existsb_exists in Hex as (ci & Hci & Heq). apply String.eqb_eq in Heq.
      apply in_or_app. left. apply in_map_iff. exists ci. split; [|assumption].
      unfold instanceOf. now rewrite Heq.
    + destruct Hmatch as [Hm|[Hm|Hm]].
      * exfalso. apply Bool.not_true_iff_false in Hex. apply Hex.
        apply existsb_exists. exists i. split; [|apply String.eqb_refl].
        unfold clusterInstances. apply filter_In. split; [assumption|].
        rewrite Hti, Hm, optStrEqb_Some_refl. reflexivity.
      * exfalso. apply Bool.not_true_iff_false in Hex. apply Hex.
        apply existsb_exists. exists i. split; [|apply String.eqb_refl].
        unfold clusterInstances. apply filter_In. split; [assumption|].
        rewrite Hti, Hm, optStrEqb_Some_refl. cbn. now rewrite orb_true_r.
      * apply in_or_app. right. apply in_map_iff. exists i. split; [reflexivity|].
        apply filter_In. split; [|now rewrite Hex].
        unfold nameBasedInstances. apply filter_In. split; [assumption|].
        rewrite Hti, Hm, optStrEqb_Some_refl. reflexivity.
Qed.

Lemma C6_instance_of_edges_witness :
  emittedAndReturned failingProvider [ClusterA; InstanceA] (Some [InstanceA])
    (instanceOf InstanceA ClusterA).
Proof.
  apply (proj1 (C6_instance_of_edges failingProvider [ClusterA; InstanceA]
                  (Some [InstanceA])) InstanceA "c1" ClusterA);
    first [now left | reflexivity].
Defined.

(** The example of the specification, for every provider: the discovery
    focused on the instance returns its edge to the cluster, which lies
    outside the focus. *)
Example instance_of_example P :
  discoverResourceRelationships P [ClusterA; InstanceA] (Some [InstanceA])
  = [ mkRel "i1" "c1" INSTANCE_OF None ].
Proof. reflexivity. Qed.

(** C6 as stated fails: the match by display name is not made on the
    instance side, so the discovery focused on [InstanceB] returns no edge
    to the cluster that it names by display name. *)
Lemma C6_display_name_counterexample :
  ~ instanceEdgeByPriority failingProvider [ClusterB; InstanceB] (Some [InstanceB]).
Proof.
  intros H.
  specialize (H InstanceB "bar" ClusterB).
  assert (Hin : In (instanceOf InstanceB ClusterB)
                   (discoverResourceRelationships failingProvider [ClusterB; InstanceB]
                                                  (Some [InstanceB]))).
  { apply H; [now left | reflexivity | reflexivity | reflexivity]. }
  vm_compute in Hin. exact Hin.
Qed.

(** Nor is there a priority among the strategies of the instance side: the
    first cluster in inventory order wins, here the one matched by suffix
    although a later cluster has the clusterId as its id. *)
Example instance_side_takes_first_match :
  specParentCluster [ClusterBySuffix; ClusterA; InstanceA] "c1" = Some ClusterA
  /\ discoverResourceRelationships failingProvider [ClusterBySuffix; ClusterA; InstanceA]
       (Some [InstanceA])
     = [ instanceOf InstanceA ClusterBySuffix ].
Proof. split; reflexivity. Qed.

(* ===================================================================== *)
(** ** Failures of the provider (C7) *)
(* ===================================================================== *)

Lemma collectLbTargets_failure P rgn groups tg :
  In tg groups -> describeTargetHealth P rgn (TargetGroupArn tg) = None ->
  collectLbTargets P rgn groups = None.
Proof.
  induction groups as [|g groups IH]; simpl; [tauto|].
  intros [->|Hin] Hfail.
  - now rewrite Hfail.
  - destruct (describeTargetHealth P rgn (TargetGroupArn g)); [|reflexivity].
    now rewrite (IH Hin Hfail).
Qed.

Lemma getSecurityGroupConnections_failure P r all :
  securityGroupLookupFails P r -> getSecurityGroupConnections P r all = [].
Proof.
  intros (Hne & Hmock & Hfail). unfold getSecurityGroupConnections.
  destruct (resolvedSecurityGroupIds r) as [|g ids]; [reflexivity|].
  now rewrite Hmock, Hfail.
Qed.

Lemma flat_map_all_nil {A B} (f : A -> list B) (l : list A) :
  (forall a, In a l -> f a = []) -> flat_map f l = [].
Proof.
  induction l as [|a l IH]; simpl; intros H; [reflexivity|].
  rewrite (H a) by now left. apply IH. intros b Hb. apply H. now right.
Qed.

Lemma getLoadBalancerTargets_failure P r :
  targetLookupFails P r -> getLoadBalancerTargets P r = [].
Proof.
  unfold getLoadBalancerTargets. intros [H|(groups & tg & Hg & Hin & Hfail)].
  - now rewrite H.
  - rewrite Hg. now rewrite (collectLbTargets_failure P (region r) groups tg Hin Hfail).
Qed.

Lemma auroraConnectionEdges_failure P S r :
  clusterLookupsFail P S r -> auroraConnectionEdges P S r = [].
Proof.
  unfold clusterLookupsFail, auroraConnectionEdges.
  destruct (auroraClusterSecurityGroups r) as [|g ids]; simpl.
  - intros H. apply flat_map_all_nil. intros i Hi. apply filter_In in Hi as [Hi Hsg].
    destruct (securityGroups i) as [[|g ids]|] eqn:Hgroups; try discriminate Hsg.
    now rewrite (getSecurityGroupConnections_failure P i S (H i g ids Hi Hgroups)).
  - apply getSecurityGroupConnections_failure.
Qed.

(** C7 (amended). A remote lookup that throws contributes no edge.  The
    extractors with a single lookup then push nothing for the resource
    (load balancers, gateways, event rules, compute instances, container
    services).  The extractors with more than one source push the edges of
    the others all the same: a function keeps its dependencies when its
    policy cannot be read and its triggers when its configuration cannot,
    an instance keeps the instance_of edge to its cluster and a cluster the
    instance_of edges of its instances when the security groups cannot be
    described.  No failure aborts the batch: whatever the provider answers,
    every edge pushed for a resource under consideration is returned, or
    an earlier edge with its key is. *)
Theorem C7_failures_are_contained P S F : failuresContained P S F.
Proof.
  unfold failuresContained.
  split; [|split; [|split; [|split; [|split; [|split; [|split; [|split; [|split]]]]]]]].
  - intros r Hty Hfail. unfold extract, loadBalancerEdges.
    rewrite (getLoadBalancerTargets_failure P r Hfail).
    destruct Hty as [-> | ->]; reflexivity.
  - intros r Hty Hfail. unfold extract, apiGatewayEdges, getApiGatewayIntegrations.
    now rewrite Hty, Hfail.
  - intros r Hty Hfail. unfold extract, getEventBridgeTargets.
    now rewrite Hty, Hfail.
  - intros r Hty Hfail. unfold extract, ec2Edges.
    now rewrite Hty, (getSecurityGroupConnections_failure P r S Hfail).
  - intros r Hty Hfail. unfold extract, ecsEdges. rewrite Hty.
    rewrite (getSecurityGroupConnections_failure P _ S Hfail).
    now destruct (nonEmpty _).
  - intros r Hty Hfail. unfold extract, lambdaTriggerEdges, getLambdaTriggers.
    now rewrite Hty, Hfail.
  - intros r Hty Hfail. unfold extract. rewrite Hty.
    unfold lambdaDependencyEdges at 1. unfold getLambdaDependencies.
    rewrite Hfail. simpl. now rewrite app_nil_r.
  - intros r Hty Hfail. unfold extract.
    rewrite Hty, (getSecurityGroupConnections_failure P r S Hfail).
    now rewrite app_nil_r.
  - intros r Hty Hfail. unfold extract.
    rewrite Hty, (auroraConnectionEdges_failure P S r Hfail). now rewrite app_nil_r.
  - intros r e Hr He. split.
    + apply discoveredRelationships_In. eauto.
    + now apply extractor_key_returned with (r := r).
Qed.

(** The lookup of the security groups of [InstanceG] throws: the instance
    keeps the edge to its cluster, and the batch returns it. *)
Lemma C7_failures_are_contained_witness :
  securityGroupLookupFails failingProvider InstanceG
  /\ extract failingProvider [ClusterA; InstanceG] InstanceG
     = ([instanceOf InstanceG ClusterA], Normal)
  /\ emittedAndReturned failingProvider [ClusterA; InstanceG] None
       (instanceOf InstanceG ClusterA).
Proof.
  assert (H : securityGroupLookupFails failingProvider InstanceG).
  { split; [discriminate|]. split; reflexivity. }
  pose proof (C7_failures_are_contained failingProvider [ClusterA; InstanceG] None)
    as (_ & _ & _ & _ & _ & _ & _ & Hinstance & _ & Hbatch).
  split; [exact H|]. split; [exact (Hinstance InstanceG eq_refl H)|].
  apply (Hbatch InstanceG); [right; now left|].
  rewrite (Hinstance InstanceG eq_refl H). now left.
Defined.

(** C7 as stated fails: the lookup of the security groups of [InstanceG]
    throws, and the instance still gets its instance_of edge. *)
Lemma C7_failed_lookup_counterexample :
  ~ failureSilencesResource failingProvider [ClusterA; InstanceG] InstanceG.
Proof.
  intros H.
  assert (Hfail : securityGroupLookupFails failingProvider InstanceG).
  { split; [discriminate|]. split; reflexivity. }
  apply H in Hfail. vm_compute in Hfail. discriminate Hfail.
Qed.

Example failed_lookup_keeps_other_edges :
  discoverResourceRelationships failingProvider [ClusterA; InstanceG] (Some [InstanceG])
  = [ mkRel "i1" "c1" INSTANCE_OF None ].
Proof. reflexivity. Qed.

(** An exception that leaves the body of a [case] (here the missing ARN of
    the second target of [RuleX]) is swallowed by the loop: the edge pushed
    before it stays, and the resources after it are processed. *)
Example thrown_extractor_does_not_abort :
  extract ruleProvider [RuleX; ClusterA; InstanceA] RuleX
  = ([ mkRel (id RuleX) "c1" TRIGGERS (Some (MdTargetId (Some "t1"))) ], Thrown)
  /\ discoverResourceRelationships ruleProvider [RuleX; ClusterA; InstanceA] None
     = [ mkRel (id RuleX) "c1" TRIGGERS (Some (MdTargetId (Some "t1")));
         mkRel "i1" "c1" INSTANCE_OF None ].
Proof. split; reflexivity. Qed.

(* ===================================================================== *)
(** ** The renderer (C8, C9) *)
(* ===================================================================== *)

Lemma addExternal_extends externals i g : exists more, addExternal externals i g = g ++ more.
Proof.
  unfold addExternal. destruct (List.find _ externals) as [x|].
  - destruct (existsb _ g); [exists []; now rewrite app_nil_r | eauto].
  - exists []. now rewrite app_nil_r.
Qed.

Lemma keepRelationship_extends props ids g rel :
  exists more, fst (keepRelationship props ids g rel) = g ++ more.
Proof.
  unfold keepRelationship.
  destruct (showExternalResources props); simpl;
    [|exists []; now rewrite app_nil_r].
  destruct (negb _ && _); simpl; [apply addExternal_extends|].
  destruct (_ && negb _); simpl; [apply addExternal_extends|].
  exists []. now rewrite app_nil_r.
Qed.

(** The filter only ever appends to [graphResources]. *)
Lemma filterRelationships_extends props ids g rels :
  exists more, fst (filterRelationships props ids g rels) = g ++ more.
Proof.
  revert g. induction rels as [|rel rels IH]; intros g; simpl.
  - exists []. now rewrite app_nil_r.
  - destruct (keepRelationship_extends props ids g rel) as (m1 & H1).
    destruct (keepRelationship props ids g rel) as [g' keep]. simpl in H1. subst g'.
    destruct (IH (g ++ m1)) as (m2 & H2).
    destruct (filterRelationships props ids (g ++ m1) rels) as [final kept].
    simpl in *. exists (m1 ++ m2). now rewrite app_assoc.
Qed.

Lemma keepRelationship_no_resources props rel :
  keepRelationship props ∅ [] rel = ([], false).
Proof.
  unfold keepRelationship.
  rewrite !bool_decide_eq_false_2 by apply not_elem_of_empty.
  destruct (showExternalResources props); reflexivity.
Qed.

(** Without resources no relationship has an end in the view: nothing is
    retained and no external resource is added. *)
Lemma filterRelationships_no_resources props rels :
  filterRelationships props ∅ [] rels = ([], []).
Proof.
  induction rels as [|rel rels IH]; simpl; [reflexivity|].
  now rewrite keepRelationship_no_resources, IH.
Qed.

Lemma graphResources_empty_iff props :
  resources props = [] <-> graphResources props = [].
Proof.
  unfold graphResources, graphData. split.
  - intros Hr. rewrite Hr. change (resourceIdSet []) with (∅ : gset string).
    now rewrite filterRelationships_no_resources.
  - destruct (filterRelationships_extends props (resourceIdSet (resources props))
                (resources props) (relationships props)) as (more & H).
    rewrite H. intros Happ. now apply app_eq_nil in Happ.
Qed.

Lemma mountComponent_unfold props :
  mountComponent props
  = match renderGraph props with
    | ShowMessage m => Some m
    | DrawGraph _ _ => None
    end.
Proof. reflexivity. Qed.



Lemma find_nodeId_Some nodes i n :
  List.find (fun x => String.eqb (nodeId x) i) nodes = Some n ->
  In n nodes /\ nodeId n = i.
Proof. intros H. find_inv H. apply String.eqb_eq in Hp. auto. Qed.

Lemma find_nodeId_In nodes i :
  In i (map nodeId nodes) ->
  exists n, List.find (fun x => String.eqb (nodeId x) i) nodes = Some n.
Proof.
  intros H. apply in_map_iff in H as (n & Hn & Hin).
  destruct (List.find _ nodes) as [m|] eqn:Hf; [eauto|].
  apply (List.find_none _ _ Hf) in Hin. rewrite Hn, String.eqb_refl in Hin.
  discriminate Hin.
Qed.

Lemma makeLink_Some nodes rel l :
  makeLink nodes rel = Some l ->
  linkRelationship l = rel
  /\ In (linkSource l) nodes /\ In (linkTarget l) nodes
  /\ nodeId (linkSource l) = sourceId rel /\ nodeId (linkTarget l) = targetId rel.
Proof.
  unfold makeLink.
  destruct (List.find _ nodes) as [s|] eqn:Hs; [|discriminate].
  destruct (List.find (fun n => String.eqb (nodeId n) (targetId rel)) nodes)
    as [t|] eqn:Ht; [|discriminate].
  intros H. injection H as <-. simpl.
  apply find_nodeId_Some in Hs as [? ?]. apply find_nodeId_Some in Ht as [? ?]. auto.
Qed.

Lemma makeLinks_In nodes rels l :
  In l (makeLinks nodes rels) <-> exists rel, In rel rels /\ makeLink nodes rel = Some l.
Proof.
  unfold makeLinks. rewrite in_flat_map. split.
  - intros (rel & Hin & H). exists rel. split; [assumption|].
    destruct (makeLink nodes rel); [|destruct H]. destruct H as [->|[]]. reflexivity.
  - intros (rel & Hin & H). exists rel. split; [assumption|]. rewrite H. now left.
Qed.

(** C9. A message can stand in place of the canvas although neither set
    is empty.  The graph of a group whose one relationship leaves the
    group is drawn, with two nodes and one link, when it is mounted with
    the external dependencies shown; once they are hidden the message "No
    relationships found between resources" is shown, and it stays when
    they are shown again; likewise when the graph is mounted with them
    hidden and they are then shown. *)
Theorem C9_message_stays_over_a_drawable_graph :
  pageAfter externalShown []
  = ContainerShown (Some (GraphSvg (makeNodes externalShown) (graphLinks externalShown)))
  /\ map nodeId (makeNodes externalShown) = ["d1"; "d2"]
  /\ map linkRelationship (graphLinks externalShown) = [mkRel "d1" "d2" CONNECTS_TO None]
  /\ pageAfter externalShown [externalHidden]
     = MessageShown "No relationships found between resources"
  /\ pageAfter externalShown [externalHidden; externalShown]
     = MessageShown "No relationships found between resources"
  /\ pageAfter externalHidden [externalShown]
     = MessageShown "No relationships found between resources".
Proof. repeat split; reflexivity. Qed.

(** The relationship to the resource that was not supplied is retained by
    the filter and dropped from the links: the graph is drawn with its one
    node and no link, and no message. *)
Example dangling_edge_example :
  relevantRelationships danglingEdge = [ mkRel "i1" "c1" INSTANCE_OF None ]
  /\ map nodeId (makeNodes danglingEdge) = ["i1"]
  /\ makeLinks (makeNodes danglingEdge) (relevantRelationships danglingEdge) = []
  /\ mountComponent danglingEdge = None.
Proof. repeat split; vm_compute; reflexivity. Qed.

(** While the canvas is shown, an update runs the effect as the first
    render does. *)
Lemma runEffect_with_container props message :
  containerMounted message = true -> runEffect props message = mountComponent props.
Proof. intros H. unfold mountComponent, runEffect. now rewrite H. Qed.

(** Once a message is displayed the container is not rendered, the effect
    returns at its first line, and the message stays whatever the new
    properties are. *)
Remark displayed_message_is_kept props m :
  truthy m = true -> runEffect props (Some m) = Some m.
Proof. intros H. unfold runEffect, containerMounted. simpl. now rewrite H. Qed.

(* ===================================================================== *)
(** ** Further properties of the discovery *)
(* ===================================================================== *)

Lemma deduplicate_sublist m l : sublist (deduplicate m l) l.
Proof.
  revert m. induction l as [|x l IH]; intros m; simpl; [constructor|].
  destruct (m !! relationshipKey x).
  - apply sublist_cons, IH.
  - apply sublist_skip, IH.
Qed.

(** A list without repeated keys, all of them fresh, is left as it is. *)
Lemma deduplicate_fixed m l :
  List.NoDup (map relationshipKey l) ->
  (forall e, In e l -> m !! relationshipKey e = None) ->
  deduplicate m l = l.
Proof.
  revert m. induction l as [|x l IH]; intros m Hnd Hfresh; simpl; [reflexivity|].
  inversion Hnd as [|? ? Hnotin Hnd']; subst.
  rewrite (Hfresh x) by now left. f_equal. apply IH; [assumption|].
  intros e He.
  rewrite lookup_insert_ne.
  - apply Hfresh. now right.
  - intros Heq. apply Hnotin. rewrite Heq. now apply in_map.
Qed.

(** X5. The returned list keeps the order in which the edges were pushed, and
    deduplicating it once more changes nothing. *)
Theorem deduplication_keeps_order_and_is_idempotent P S F :
  sublist (discoverResourceRelationships P S F) (discoveredRelationships P S F)
  /\ deduplicate ∅ (discoverResourceRelationships P S F)
     = discoverResourceRelationships P S F
  /\ length (discoverResourceRelationships P S F)
     <= length (discoveredRelationships P S F).
Proof.
  split; [apply deduplicate_sublist|]. split.
  - apply deduplicate_fixed; [apply deduplicate_NoDup_keys|].
    intros e _. apply lookup_empty.
  - apply sublist_length, deduplicate_sublist.
Qed.

(** X6. Widening the focus never loses a key: the keys returned for a focus
    list are returned for every focus list that holds its resources, in
    whatever order. *)
Theorem wider_focus_keeps_keys P S F F' :
  incl F F' ->
  keysWithin (discoverResourceRelationships P S (Some F))
             (discoverResourceRelationships P S (Some F')).
Proof.
  intros Hincl e He. apply returned_from_extractor in He as (r & Hr & He).
  apply extractor_key_returned with (r := r); [simpl in *; auto | assumption].
Qed.

Lemma wider_focus_keeps_keys_witness :
  incl [InstanceA] [ClusterA; InstanceA]
  /\ keysWithin (discoverResourceRelationships failingProvider [ClusterA; InstanceA]
                   (Some [InstanceA]))
                (discoverResourceRelationships failingProvider [ClusterA; InstanceA]
                   (Some [ClusterA; InstanceA])).
Proof.
  assert (H : incl [InstanceA] [ClusterA; InstanceA]).
  { intros r [<-|[]]. right. now left. }
  split; [exact H|].
  exact (wider_focus_keeps_keys failingProvider [ClusterA; InstanceA]
           [InstanceA] [ClusterA; InstanceA] H).
Defined.

Lemma getSecurityGroupConnections_shape P r all e :
  In e (getSecurityGroupConnections P r all) ->
  relType e = CONNECTS_TO
  /\ exists s t rule, metadata e = Some (MdSecurityGroups s t [rule]).
Proof.
  intros H. apply getSecurityGroupConnections_cases in H as [H|(gid & [H|(rule & dir & H)])].
  - unfold mockConnections in H.
    destruct (isFixtureDatabase r); [destruct H|].
    destruct (isFixtureService r); [|destruct H].
    destruct (List.find _ all); [|destruct H].
    destruct H as [<-|[]]. simpl. eauto.
  - unfold mockRuleConnections in H.
    destruct (isFixtureDatabase r); [|destruct H].
    destruct (List.find _ all); [|destruct H].
    destruct H as [<-|[]]. simpl. eauto.
  - apply referenceConnections_spec in H as (ref & t & _ & _ & _ & _ & ->).
    simpl. eauto.
Qed.

Lemma wellTyped_connection S roi r e :
  In r roi ->
  type r = ec2 \/ type r = aurora \/ type r = aurora_instance \/ type r = ecs ->
  relType e = CONNECTS_TO -> touches r e -> edgeWellTyped S roi e.
Proof. intros Hr Hty Hrel Ht. unfold edgeWellTyped. rewrite Hrel. eauto. Qed.

Lemma eventBridgeLoop_typed all r targets e :
  In e (fst (eventBridgeLoop all r targets)) ->
  relType e = TRIGGERS /\ sourceId e = id r
  /\ (exists t, In t all /\ targetId e = id t)
  /\ exists i, metadata e = Some (MdTargetId i).
Proof.
  induction targets as [|t targets IH]; simpl; [intros []|].
  destruct (Arn t) as [arn|].
  - destruct (eventBridgeLoop all r targets) as [more completion]. simpl in *.
    rewrite in_app_iff. intros [H|H]; [|auto].
    destruct (List.find _ all) as [tr|] eqn:Hf; [|destruct H].
    find_inv Hf. destruct H as [<-|[]]. simpl. eauto 8.
  - destruct all; [assumption | intros []].
Qed.

(** The shape of the edges pushed for one resource: the kinds of resources
    they join and the metadata they carry. *)
Lemma extract_wellTyped P S S' roi r e :
  incl S S' -> In r roi -> In r S' -> In e (fst (extract P S r)) ->
  edgeWellTyped S' roi e /\ metadataWellFormed e.
Proof.
  intros Hup Hroi HS He. unfold incl in Hup.
  pose proof (extract_sound P S r e He) as [Htouch _].
  assert (Hsg : forall r' x, In x (getSecurityGroupConnections P r' S) ->
                relType x = CONNECTS_TO /\ metadataWellFormed x).
  { intros r' x Hx. apply getSecurityGroupConnections_shape in Hx as (Hrel & s & t & rule & Hm).
    split; [assumption|]. unfold metadataWellFormed. rewrite Hm. eauto. }
  unfold extract in He. destruct (type r) eqn:Hty; simpl in He.
  - (* ecs *)
    unfold ecsEdges in He. destruct (nonEmpty _); [|destruct He].
    apply Hsg in He as [Hrel Hm]. split; [|assumption].
    apply wellTyped_connection with (r := r); auto.
  - (* aurora *)
    apply in_app_iff in He as [He|He].
    + assert (Hi : exists i, In i S /\ type i = aurora_instance /\ e = instanceOf i r).
      { unfold auroraInstanceOfEdges in He.
        apply in_app_iff in He as [He|He]; apply in_map_iff in He as (i & <- & He).
        - unfold clusterInstances in He. apply filter_In in He as [He Hp].
          apply andb_true_iff in Hp as [Hp _]. apply typeEqb_true in Hp. eauto.
        - apply filter_In in He as [He _]. unfold nameBasedInstances in He.
          apply filter_In in He as [He Hp].
          apply andb_true_iff in Hp as [Hp _]. apply typeEqb_true in Hp. eauto. }
      destruct Hi as (i & Hi & Hti & ->). apply Hup in Hi.
      split; [|reflexivity]. unfold edgeWellTyped. simpl.
      split; [reflexivity|]. exists i, r. auto 8.
    + assert (Hc : relType e = CONNECTS_TO /\ metadataWellFormed e).
      { unfold auroraConnectionEdges in He. destruct (nonEmpty _).
        - now apply Hsg in He.
        - apply in_flat_map in He as (i & _ & He). apply in_map_iff in He as (c & <- & He).
          apply Hsg in He. exact He. }
      destruct Hc as [Hrel Hm]. split; [|assumption].
      apply wellTyped_connection with (r := r); auto.
  - (* aurora-instance *)
    apply in_app_iff in He as [He|He].
    + unfold auroraInstanceParentEdges in He.
      destruct (clusterId r) as [cid|]; [|destruct He].
      destruct (truthy cid); [|destruct He].
      destruct (List.find _ S) as [c|] eqn:Hf; [|destruct He].
      find_inv Hf. apply Hup in Hin. destruct He as [<-|[]].
      apply andb_true_iff in Hp as [Hp _]. apply typeEqb_true in Hp.
      split; [|reflexivity]. unfold edgeWellTyped. simpl.
      split; [reflexivity|]. exists r, c. auto 8.
    + apply Hsg in He as [Hrel Hm]. split; [|assumption].
      apply wellTyped_connection with (r := r); auto.
  - (* lambda *)
    apply in_app_iff in He as [He|He]; apply in_flat_map in He as (x & Hx & He);
      destruct (List.find _ S) as [t|] eqn:Hf; try destruct He as [<-|[]];
      try destruct He; find_inv Hf; apply String.eqb_eq in Hp.
    + split; [|reflexivity]. unfold edgeWellTyped. simpl. left. exists r, t. auto 8.
    + unfold getLambdaDependencies in Hx.
      destruct (getFunction P (region r) (name r)) as [env|]; [|destruct Hx].
      apply in_flat_map in Hx as (kv & _ & Hx).
      destruct (includes (snd kv) "arn:aws") eqn:Hinc; [|destruct Hx].
      destruct Hx as [<-|[]]. simpl in *.
      split; [|split; reflexivity]. unfold edgeWellTyped. simpl.
      exists r, t. rewrite Hp. auto 10.
  - (* ec2 *)
    unfold ec2Edges in He. apply in_map_iff in He as (c & <- & He).
    split.
    + apply wellTyped_connection with (r := r); auto; now left.
    + unfold metadataWellFormed. simpl. auto.
  - (* stepfunctions *)
    destruct He.
  - (* apigateway *)
    apply in_flat_map in He as (x & _ & He).
    destruct (List.find _ S) as [t|] eqn:Hf; [|destruct He].
    find_inv Hf. apply Hup in Hin. destruct He as [<-|[]].
    apply andb_true_iff in Hp as [Hp _]. apply typeEqb_true in Hp.
    split; [|reflexivity]. unfold edgeWellTyped. simpl. right. left. exists r, t. auto 8.
  - (* eventbridge *)
    apply eventBridgeLoop_typed in He as (Hrel & Hs & (t & Ht & Htid) & (i & Hm)).
    apply Hup in Ht.
    split.
    + unfold edgeWellTyped. rewrite Hrel. right. right. exists r, t. auto 8.
    + unfold metadataWellFormed. now rewrite Hm.
  - (* alb *)
    apply in_flat_map in He as (x & _ & He).
    destruct (List.find _ S) as [t|] eqn:Hf; [|destruct He].
    find_inv Hf. apply Hup in Hin. destruct He as [<-|[]].
    split; [|left; reflexivity]. unfold edgeWellTyped. simpl. exists r, t.
    repeat split; auto.
    apply orb_true_iff in Hp as [Hp|Hp]; apply andb_true_iff in Hp as [Hp _];
      apply typeEqb_true in Hp; auto.
  - (* nlb *)
    apply in_flat_map in He as (x & _ & He).
    destruct (List.find _ S) as [t|] eqn:Hf; [|destruct He].
    find_inv Hf. apply Hup in Hin. destruct He as [<-|[]].
    split; [|left; reflexivity]. unfold edgeWellTyped. simpl. exists r, t.
    repeat split; auto.
    apply orb_true_iff in Hp as [Hp|Hp]; apply andb_true_iff in Hp as [Hp _];
      apply typeEqb_true in Hp; auto.
Qed.

(** X7. Every returned edge joins resources of the kinds that its type
    announces: instance_of an aurora-instance to an aurora cluster,
    routes_to a load balancer to a compute instance or a container service,
    depends_on a function to a resource whose id holds ["arn:aws"],
    triggers into a function or out of a gateway or an event rule,
    connects_to at a compute instance, a database or a container service.
    No part_of edge is ever returned, and no edge is built for a workflow. *)
Theorem returned_edges_are_well_typed P S F e :
  focusWithin S F -> In e (discoverResourceRelationships P S F) ->
  edgeWellTyped S (resourcesOfInterest S F) e.
Proof.
  intros Hf He. apply returned_from_extractor in He as (r & Hr & He).
  apply (extract_wellTyped P S S (resourcesOfInterest S F) r e);
    [apply incl_refl | assumption | | assumption].
  now apply (resourcesOfInterest_incl S F Hf).
Qed.

Lemma returned_edges_are_well_typed_witness :
  focusWithin [ClusterA; InstanceA] (Some [InstanceA])
  /\ In (instanceOf InstanceA ClusterA)
        (discoverResourceRelationships failingProvider [ClusterA; InstanceA] (Some [InstanceA]))
  /\ edgeWellTyped [ClusterA; InstanceA] [InstanceA] (instanceOf InstanceA ClusterA).
Proof.
  assert (H1 : focusWithin [ClusterA; InstanceA] (Some [InstanceA])).
  { simpl. intros r [<-|[]]. right. now left. }
  assert (H2 : In (instanceOf InstanceA ClusterA)
                  (discoverResourceRelationships failingProvider [ClusterA; InstanceA]
                                                 (Some [InstanceA]))).
  { vm_compute. left. reflexivity. }
  split; [exact H1|]. split; [exact H2|].
  exact (returned_edges_are_well_typed failingProvider [ClusterA; InstanceA]
           (Some [InstanceA]) (instanceOf InstanceA ClusterA) H1 H2).
Defined.

(** X8. The metadata of a returned edge goes with its type: none on an
    instance_of edge; on a connects_to edge the security groups with
    exactly one rule, or, for the edges of compute instances, a protocol
    and a port that are both undefined. *)
Theorem returned_metadata_is_well_formed P S F e :
  In e (discoverResourceRelationships P S F) -> metadataWellFormed e.
Proof.
  intros He. apply returned_from_extractor in He as (r & Hr & He).
  apply (extract_wellTyped P S (r :: S) [r] r e);
    [apply incl_tl, incl_refl | now left | now left | assumption].
Qed.

Lemma returned_metadata_is_well_formed_witness :
  In (mkRel "r2" "r2" CONNECTS_TO (Some (MdProtocolPort None None)))
     (discoverResourceRelationships groupProvider [R1; R2] None)
  /\ metadataWellFormed (mkRel "r2" "r2" CONNECTS_TO (Some (MdProtocolPort None None))).
Proof.
  assert (H : In (mkRel "r2" "r2" CONNECTS_TO (Some (MdProtocolPort None None)))
                 (discoverResourceRelationships groupProvider [R1; R2] None)).
  { vm_compute. left. reflexivity. }
  split; [exact H|].
  exact (returned_metadata_is_well_formed groupProvider [R1; R2] None _ H).
Defined.

Lemma getSecurityGroupConnections_unreachable P r all :
  unreachable P -> noFixtureDatabase all -> getSecurityGroupConnections P r all = [].
Proof.
  intros (_ & _ & _ & _ & _ & _ & Hsg) Hno. unfold getSecurityGroupConnections.
  destruct (resolvedSecurityGroupIds r) as [|g ids]; [reflexivity|].
  rewrite Hsg. destruct (hasMockSecurityGroups _); [|reflexivity].
  unfold mockConnections. destruct (isFixtureDatabase r); [reflexivity|].
  destruct (isFixtureService r); [|reflexivity].
  destruct (List.find _ all) as [db|] eqn:Hf; [|reflexivity].
  find_inv Hf. apply andb_true_iff in Hp as [Hty Hnm].
  apply typeEqb_true in Hty. apply String.eqb_eq in Hnm.
  exfalso. apply (Hno db Hin). auto.
Qed.

Lemma flat_map_nil {A B} (f : A -> list B) (l : list A) :
  (forall x, In x l -> f x = []) -> flat_map f l = [].
Proof.
  induction l as [|x l IH]; simpl; intros H; [reflexivity|].
  rewrite (H x) by now left. apply IH. intros y Hy. apply H. now right.
Qed.

(** X9. With the provider out of reach (every call throws) and no fixture
    database in the inventory, the discovery still answers, and what it
    returns are the instance_of edges that the inventory alone gives. *)
Theorem unreachable_provider_leaves_instance_edges P S F e :
  unreachable P -> noFixtureDatabase S ->
  In e (discoverResourceRelationships P S F) -> relType e = INSTANCE_OF.
Proof.
  intros Hun Hno He. apply returned_from_extractor in He as (r & _ & He).
  pose proof (fun r' => getSecurityGroupConnections_unreachable P r' S Hun Hno) as Hsg.
  destruct Hun as (Htg & _ & Hpol & Hfn & Hres & Hrule & _).
  unfold extract in He. destruct (type r); simpl in He.
  - unfold ecsEdges in He. destruct (nonEmpty _); [|destruct He].
    rewrite Hsg in He. destruct He.
  - apply in_app_iff in He as [He|He].
    + unfold auroraInstanceOfEdges in He.
      apply in_app_iff in He as [He|He]; apply in_map_iff in He as (i & <- & _);
        reflexivity.
    + unfold auroraConnectionEdges in He. destruct (nonEmpty _).
      * rewrite Hsg in He. destruct He.
      * rewrite flat_map_nil in He; [destruct He|].
        intros i _. now rewrite Hsg.
  - apply in_app_iff in He as [He|He].
    + unfold auroraInstanceParentEdges in He.
      destruct (clusterId r) as [cid|]; [|destruct He].
      destruct (truthy cid); [|destruct He].
      destruct (List.find _ S); [|destruct He]. destruct He as [<-|[]]. reflexivity.
    + rewrite Hsg in He. destruct He.
  - unfold lambdaTriggerEdges, lambdaDependencyEdges, getLambdaTriggers,
      getLambdaDependencies in He.
    rewrite Hpol, Hfn in He. destruct He.
  - unfold ec2Edges in He. rewrite Hsg in He. destruct He.
  - destruct He.
  - unfold apiGatewayEdges, getApiGatewayIntegrations in He. rewrite Hres in He.
    destruct He.
  - unfold getEventBridgeTargets in He. rewrite Hrule in He. destruct He.
  - unfold loadBalancerEdges, getLoadBalancerTargets in He. rewrite Htg in He.
    destruct He.
  - unfold loadBalancerEdges, getLoadBalancerTargets in He. rewrite Htg in He.
    destruct He.
Qed.

Lemma unreachable_provider_witness :
  unreachable failingProvider
  /\ noFixtureDatabase [ClusterA; InstanceG]
  /\ In (instanceOf InstanceA ClusterA)
        (discoverResourceRelationships failingProvider [ClusterA; InstanceG] None)
  /\ relType (instanceOf InstanceA ClusterA) = INSTANCE_OF.
Proof.
  assert (H1 : unreachable failingProvider) by (repeat split).
  assert (H2 : noFixtureDatabase [ClusterA; InstanceG]).
  { intros r [<-|[<-|[]]] [_ H]; discriminate H. }
  assert (H3 : In (instanceOf InstanceA ClusterA)
                  (discoverResourceRelationships failingProvider [ClusterA; InstanceG] None)).
  { vm_compute. left. reflexivity. }
  split; [exact H1|]. split; [exact H2|]. split; [exact H3|].
  exact (unreachable_provider_leaves_instance_edges failingProvider
           [ClusterA; InstanceG] None _ H1 H2 H3).
Defined.

(* ===================================================================== *)
(** ** Identifiers shaped as the inventory shapes them *)
(* ===================================================================== *)



Lemma append_assoc_string (a b c : string) : (a +:+ b) +:+ c = a +:+ (b +:+ c).
Proof.
  induction a as [|x a IH]; [reflexivity|].
  change (String x ((a +:+ b) +:+ c) = String x (a +:+ (b +:+ c))). now f_equal.
Qed.

Lemma split_without_separator sep n : occurs sep n = false -> split sep n = [n].
Proof.
  induction n as [|c n IH]; simpl; [reflexivity|].
  intros H. apply orb_false_iff in H as [Hc Hn]. rewrite Hc, (IH Hn). reflexivity.
Qed.

Lemma split_app sep p n :
  exists l, l <> [] /\ split sep (p +:+ String sep n) = l ++ split sep n.
Proof.
  induction p as [|c p (l & Hl & IH)]; simpl.
  - rewrite Ascii.eqb_refl. exists [EmptyString]. split; [discriminate | reflexivity].
  - destruct (Ascii.eqb c sep).
    + exists (EmptyString :: l). split; [discriminate|]. now rewrite IH.
    + rewrite IH. destruct l as [|x l]; [contradiction|].
      exists (String c x :: l). split; [discriminate | reflexivity].
Qed.

Lemma last_app_nonEmpty {A} (l m : list A) d : m <> [] -> List.last (l ++ m) d = List.last m d.
Proof.
  intros Hm. induction l as [|x l IH]; simpl; [reflexivity|].
  destruct (l ++ m) eqn:Heq; [|assumption].
  apply app_eq_nil in Heq as [_ ->]. contradiction.
Qed.

(** The piece after the last separator. *)
Lemma splitPop_app sep p n :
  occurs sep n = false -> splitPop sep (p +:+ String sep n) = n.
Proof.
  intros Hn. unfold splitPop. destruct (split_app sep p n) as (l & _ & ->).
  rewrite last_app_nonEmpty by apply split_nonEmpty.
  now rewrite split_without_separator.
Qed.

Lemma split_pieces sep s : Forall (fun piece => occurs sep piece = false) (split sep s).
Proof.
  induction s as [|c s IH]; simpl; [repeat constructor|].
  destruct (Ascii.eqb c sep) eqn:Hc; [constructor; [reflexivity | assumption]|].
  destruct (split sep s) as [|x l]; [repeat constructor; simpl; now rewrite Hc|].
  inversion IH; subst. constructor; [simpl; now rewrite Hc | assumption].
Qed.

Lemma nth_last {A} (l : list A) d : nth (length l - 1) l d = List.last l d.
Proof.
  induction l as [|x l IH]; [reflexivity|].
  destruct l as [|y l]; [reflexivity|].
  simpl in *. now rewrite Nat.sub_0_r in IH.
Qed.

Lemma getClusterNameFromArn_splitPop arn : getClusterNameFromArn arn = splitPop "/" arn.
Proof. unfold getClusterNameFromArn, splitPop. apply nth_last. Qed.

(** X2. [getClusterNameFromArn] returns what follows the last slash of its
    argument: the name [n] for [prefix/n] when [n] holds no slash, the whole
    argument when that holds none; the result never holds a slash. *)
Theorem getClusterNameFromArn_last_segment :
  (forall prefix n, occurs "/" n = false ->
                    getClusterNameFromArn (prefix +:+ "/" +:+ n) = n)
  /\ (forall arn, occurs "/" arn = false -> getClusterNameFromArn arn = arn)
  /\ (forall arn, occurs "/" (getClusterNameFromArn arn) = false).
Proof.
  repeat split.
  - intros prefix n Hn. rewrite getClusterNameFromArn_splitPop.
    now apply (splitPop_app "/").
  - intros arn Hn. rewrite getClusterNameFromArn_splitPop. unfold splitPop.
    now rewrite split_without_separator.
  - intros arn. rewrite getClusterNameFromArn_splitPop. unfold splitPop.
    pose proof (split_pieces "/" arn) as Hall.
    pose proof (split_nonEmpty "/" arn) as Hne.
    rewrite List.Forall_forall in Hall. apply Hall.
    destruct (split "/" arn) as [|x l]; [contradiction|].
    apply (@exists_last _ (x :: l)) in Hne as (l' & a & Heq).
    rewrite Heq, last_last. apply in_or_app. right. now left.
Qed.




(* ===================================================================== *)
(** ** Further properties of the renderer *)
(* ===================================================================== *)

Lemma resourceIdSet_In rs i : i ∈ resourceIdSet rs <-> In i (map id rs).
Proof. unfold resourceIdSet. rewrite elem_of_list_to_set. apply list_elem_of_In. Qed.

Lemma inView_true props i : inView props i = true <-> In i (map id (resources props)).
Proof. unfold inView. rewrite bool_decide_eq_true. apply resourceIdSet_In. Qed.

Lemma existsb_hasId g i : existsb (hasId i) g = true <-> In i (map id g).
Proof.
  rewrite existsb_exists, in_map_iff. unfold hasId.
  split; intros (x & H1 & H2).
  - apply String.eqb_eq in H2. eauto.
  - exists x. split; [assumption|]. now apply String.eqb_eq.
Qed.

Lemma keepRelationship_decision props g rel :
  snd (keepRelationship props (resourceIdSet (resources props)) g rel) = retained props rel.
Proof.
  unfold keepRelationship, retained, inView.
  destruct (showExternalResources props); [|reflexivity].
  destruct (bool_decide (sourceId rel ∈ _)), (bool_decide (targetId rel ∈ _)); reflexivity.
Qed.

Lemma filterRelationships_kept props g rels :
  snd (filterRelationships props (resourceIdSet (resources props)) g rels)
  = List.filter (retained props) rels.
Proof.
  revert g. induction rels as [|rel rels IH]; intros g; simpl; [reflexivity|].
  pose proof (keepRelationship_decision props g rel) as Hk.
  destruct (keepRelationship props _ g rel) as [g' keep]. simpl in Hk. subst keep.
  specialize (IH g').
  destruct (filterRelationships props _ g' rels) as [final kept]. simpl in *. subst kept.
  reflexivity.
Qed.

(** X14. The relationships kept for the graph are a plain filter of the ones
    given, whatever external resources are supplied: with the external
    resources shown, those with at least one end in the view; otherwise
    those with both ends in it.  A relationship between two resources
    outside the view is never kept. *)
Theorem retained_relationships_are_a_filter props :
  relevantRelationships props = List.filter (retained props) (relationships props)
  /\ (forall rel, In rel (relevantRelationships props) ->
        In (sourceId rel) (map id (resources props))
        \/ In (targetId rel) (map id (resources props)))
  /\ (showExternalResources props = false ->
      forall rel, In rel (relevantRelationships props) ->
        In (sourceId rel) (map id (resources props))
        /\ In (targetId rel) (map id (resources props))).
Proof.
  assert (Heq : relevantRelationships props
                = List.filter (retained props) (relationships props)).
  { unfold relevantRelationships, graphData. apply filterRelationships_kept. }
  split; [exact Heq|]. rewrite Heq. split.
  - intros rel Hin. apply filter_In in Hin as [_ Hret]. unfold retained in Hret.
    destruct (showExternalResources props).
    + apply orb_true_iff in Hret as [H|H]; apply inView_true in H; auto.
    + apply andb_true_iff in Hret as [H _]. apply inView_true in H. auto.
  - intros Hshow rel Hin. apply filter_In in Hin as [_ Hret]. unfold retained in Hret.
    rewrite Hshow in Hret. apply andb_true_iff in Hret as [H1 H2].
    apply inView_true in H1, H2. auto.
Qed.

Lemma addExternal_cases externals i g :
  addExternal externals i g = g
  \/ exists ext, In ext externals /\ id ext = i /\ ~ In i (map id g)
                 /\ addExternal externals i g = g ++ [ext].
Proof.
  unfold addExternal. destruct (List.find (hasId i) externals) as [ext|] eqn:Hf; [|now left].
  find_inv Hf. unfold hasId in Hp. apply String.eqb_eq in Hp. rewrite Hp.
  destruct (existsb (hasId i) g) eqn:Hex; [now left|].
  right. exists ext. repeat split; try assumption.
  intros Hmem. apply existsb_hasId in Hmem. congruence.
Qed.

Lemma addExternal_covers externals i g :
  In i (map id externals) -> In i (map id (addExternal externals i g)).
Proof.
  intros Hmem. unfold addExternal.
  destruct (List.find (hasId i) externals) as [ext|] eqn:Hf.
  - find_inv Hf. unfold hasId in Hp. apply String.eqb_eq in Hp. rewrite Hp.
    destruct (existsb (hasId i) g) eqn:Hex.
    + now apply existsb_hasId.
    + rewrite map_app. apply in_or_app. right. simpl. auto.
  - apply in_map_iff in Hmem as (x & Hx & Hxin).
    apply (List.find_none _ _ Hf) in Hxin. unfold hasId in Hxin.
    rewrite Hx, String.eqb_refl in Hxin. discriminate Hxin.
Qed.

(** What one step of the filter adds to the nodes. *)
Lemma keepRelationship_added props g rel :
  fst (keepRelationship props (resourceIdSet (resources props)) g rel) = g
  \/ exists ext,
       fst (keepRelationship props (resourceIdSet (resources props)) g rel) = g ++ [ext]
       /\ showExternalResources props = true
       /\ In ext (externalResources props)
       /\ ~ In (id ext) (map id g)
       /\ ~ In (id ext) (map id (resources props))
       /\ retained props rel = true /\ touches ext rel.
Proof.
  pose proof (keepRelationship_decision props g rel) as Hdec.
  unfold keepRelationship in *. unfold retained, inView in *.
  destruct (showExternalResources props) eqn:Hshow; [|now left].
  destruct (bool_decide (sourceId rel ∈ resourceIdSet (resources props))) eqn:Hs,
           (bool_decide (targetId rel ∈ resourceIdSet (resources props))) eqn:Ht;
    simpl in *; try (now left).
  - destruct (addExternal_cases (externalResources props) (targetId rel) g)
      as [->|(ext & Hin & Hid & Hnot & ->)]; [now left|].
    right. exists ext. rewrite Hid. repeat split; auto.
    + apply bool_decide_eq_false in Ht. intros H. apply Ht. now apply resourceIdSet_In.
    + right. now rewrite Hid.
  - destruct (addExternal_cases (externalResources props) (sourceId rel) g)
      as [->|(ext & Hin & Hid & Hnot & ->)]; [now left|].
    right. exists ext. rewrite Hid. repeat split; auto.
    + apply bool_decide_eq_false in Hs. intros H. apply Hs. now apply resourceIdSet_In.
    + left. now rewrite Hid.
Qed.

Lemma NoDup_snoc {A} (l : list A) (x : A) :
  List.NoDup l -> ~ In x l -> List.NoDup (l ++ [x]).
Proof.
  induction l as [|y l IH]; simpl; intros Hnd Hx.
  - constructor; [intros [] | constructor].
  - inversion Hnd as [|? ? Hy Hl]; subst. constructor.
    + rewrite in_app_iff. intros [H|[H|[]]]; [contradiction | subst; apply Hx; now left].
    + apply IH; [assumption | intros H; apply Hx; now right].
Qed.

Lemma filterRelationships_added props g rels :
  exists added,
    fst (filterRelationships props (resourceIdSet (resources props)) g rels) = g ++ added
    /\ (List.NoDup (map id g) -> List.NoDup (map id (g ++ added)))
    /\ (showExternalResources props = false -> added = [])
    /\ Forall (fun a => In a (externalResources props)
                        /\ ~ In (id a) (map id (resources props))
                        /\ exists rel, In rel (List.filter (retained props) rels)
                                       /\ touches a rel) added.
Proof.
  revert g. induction rels as [|rel rels IH]; intros g; simpl.
  - exists []. rewrite app_nil_r. repeat split; auto.
  - pose proof (keepRelationship_added props g rel) as Hstep.
    destruct (keepRelationship props _ g rel) as [g' keep]. simpl in Hstep.
    destruct (IH g') as (added & Hfst & Hnd & Hshow & Hall).
    destruct (filterRelationships props _ g' rels) as [final kept]. simpl in *.
    assert (Hweak : Forall (fun a => In a (externalResources props)
                        /\ ~ In (id a) (map id (resources props))
                        /\ exists r, In r (if retained props rel
                                           then rel :: List.filter (retained props) rels
                                           else List.filter (retained props) rels)
                                     /\ touches a r) added).
    { eapply List.Forall_impl; [|exact Hall]. intros a (H1 & H2 & r & Hr & Ht).
      repeat split; try assumption. exists r. split; [|assumption].
      destruct (retained props rel); [now right | assumption]. }
    destruct Hstep as [->|(ext & -> & Hs & Hin & Hnotg & Hnotr & Hret & Htouch)].
    + exists added. repeat split; assumption.
    + exists (ext :: added). rewrite <- app_assoc in Hfst. simpl in Hfst.
      repeat split.
      * assumption.
      * intros Hg. rewrite <- app_assoc in Hnd. simpl in Hnd. apply Hnd.
        rewrite map_app. simpl. now apply NoDup_snoc.
      * intros Hfalse. congruence.
      * constructor; [|assumption]. repeat split; try assumption.
        exists rel. rewrite Hret. split; [now left | assumption].
Qed.

Lemma makeNode_isExternal props a :
  isExternal (makeNode props a) = true <-> ~ In (id a) (map id (resources props)).
Proof.
  unfold makeNode. simpl. rewrite negb_true_iff, <- Bool.not_true_iff_false.
  now rewrite existsb_hasId.
Qed.

(** X15. The nodes of the graph are the resources of the view, in their order
    and not flagged external, followed by resources taken from the external
    resources supplied: each of these is flagged external, has an id that
    is not in the view, and is an end of a relationship that is kept.
    Nothing is added when external resources are not to be shown. *)
Theorem graph_nodes_are_the_view_plus_externals props :
  exists added,
    graphResources props = resources props ++ added
    /\ Forall (fun r => isExternal (makeNode props r) = false) (resources props)
    /\ Forall (addedFromOutside props) added
    /\ (showExternalResources props = false -> added = []).
Proof.
  destruct (filterRelationships_added props (resources props) (relationships props))
    as (added & Hfst & _ & Hshow & Hall).
  exists added. split; [exact Hfst|]. split; [|split; [|exact Hshow]].
  - apply List.Forall_forall. intros r Hr. unfold makeNode. simpl.
    apply negb_false_iff, existsb_hasId. now apply in_map.
  - eapply List.Forall_impl; [|exact Hall]. intros a (H1 & H2 & rel & Hrel & Ht).
    unfold addedFromOutside. repeat split; try assumption.
    + now apply makeNode_isExternal.
    + exists rel. split; [|assumption].
      unfold relevantRelationships, graphData. now rewrite filterRelationships_kept.
Qed.

Lemma makeNodes_ids props : map nodeId (makeNodes props) = map id (graphResources props).
Proof. unfold makeNodes. rewrite map_map. reflexivity. Qed.

(** X16. When the resources of the view have pairwise distinct ids, so have the
    nodes of the graph: an external resource is added once, also when
    several relationships reach it. *)
Theorem graph_node_ids_are_distinct props :
  List.NoDup (map id (resources props)) ->
  List.NoDup (map nodeId (makeNodes props)).
Proof.
  intros Hnd. rewrite makeNodes_ids.
  destruct (filterRelationships_added props (resources props) (relationships props))
    as (added & Hfst & Hkeep & _).
  unfold graphResources, graphData. rewrite Hfst. now apply Hkeep.
Qed.

Lemma keepRelationship_covers props g rel x :
  (forall i, In i (map id (resources props)) -> In i (map id g)) ->
  retained props rel = true -> x = sourceId rel \/ x = targetId rel ->
  In x (map id (resources props)) \/ In x (map id (externalResources props)) ->
  In x (map id (fst (keepRelationship props (resourceIdSet (resources props)) g rel))).
Proof.
  intros Hg Hret Hx Hsup.
  destruct (keepRelationship_extends props (resourceIdSet (resources props)) g rel)
    as (more & Hext).
  destruct (inView props x) eqn:Hview.
  { rewrite Hext, map_app. apply in_or_app. left. apply Hg. now apply inView_true. }
  assert (HE : In x (map id (externalResources props))).
  { destruct Hsup as [H|H]; [|assumption]. apply inView_true in H. congruence. }
  clear Hext more. unfold keepRelationship. unfold retained in Hret.
  fold (inView props (sourceId rel)). fold (inView props (targetId rel)).
  destruct (showExternalResources props).
  - destruct Hx as [->| ->]; rewrite Hview in *; simpl in *.
    + rewrite Hret. simpl. now apply addExternal_covers.
    + rewrite orb_false_r in Hret. rewrite Hret. simpl. now apply addExternal_covers.
  - apply andb_true_iff in Hret as [H1 H2]. destruct Hx as [->| ->]; congruence.
Qed.

Lemma filterRelationships_covers props g rels rel x :
  (forall i, In i (map id (resources props)) -> In i (map id g)) ->
  In rel (List.filter (retained props) rels) ->
  x = sourceId rel \/ x = targetId rel ->
  In x (map id (resources props)) \/ In x (map id (externalResources props)) ->
  In x (map id (fst (filterRelationships props (resourceIdSet (resources props)) g rels))).
Proof.
  revert g. induction rels as [|rel0 rels IH]; intros g Hg Hin Hx Hsup; simpl in *;
    [destruct Hin|].
  pose proof (keepRelationship_covers props g rel0 x Hg) as Hhead.
  destruct (keepRelationship_extends props (resourceIdSet (resources props)) g rel0)
    as (m1 & H1).
  destruct (keepRelationship props _ g rel0) as [g' keep]. simpl in *.
  assert (Hg' : forall i, In i (map id (resources props)) -> In i (map id g')).
  { intros i Hi. rewrite H1, map_app. apply in_or_app. left. auto. }
  pose proof (IH g' Hg') as IH'.
  destruct (filterRelationships_extends props (resourceIdSet (resources props)) g' rels)
    as (m2 & H2).
  destruct (filterRelationships props _ g' rels) as [final kept]. simpl in *.
  destruct (retained props rel0) eqn:Hret.
  - destruct Hin as [->|Hin]; [|auto].
    rewrite H2, map_app. apply in_or_app. left. auto.
  - auto.
Qed.

Lemma makeLinks_length nodes rels :
  (forall rel, In rel rels -> exists l, makeLink nodes rel = Some l) ->
  length (makeLinks nodes rels) = length rels.
Proof.
  induction rels as [|rel rels IH]; simpl; intros H; [reflexivity|].
  destruct (H rel) as (l & ->); [now left|]. simpl. f_equal. apply IH.
  intros r Hr. apply H. now right.
Qed.

Lemma supplied_ends_make_link props rel :
  In rel (relevantRelationships props) -> endsSupplied props rel ->
  exists l, makeLink (makeNodes props) rel = Some l /\ linkRelationship l = rel.
Proof.
  intros Hin [Hs Ht].
  assert (Hcov : forall x, x = sourceId rel \/ x = targetId rel ->
                   In x (map id (resources props))
                   \/ In x (map id (externalResources props)) ->
                   In x (map nodeId (makeNodes props))).
  { intros x Hx Hsup. rewrite makeNodes_ids. unfold graphResources, graphData.
    apply filterRelationships_covers with (rel := rel); auto.
    unfold relevantRelationships, graphData in Hin.
    now rewrite filterRelationships_kept in Hin. }
  destruct (find_nodeId_In _ _ (Hcov (sourceId rel) (or_introl eq_refl) Hs)) as (s & Hfs).
  destruct (find_nodeId_In _ _ (Hcov (targetId rel) (or_intror eq_refl) Ht)) as (t & Hft).
  eexists. unfold makeLink. rewrite Hfs, Hft. split; reflexivity.
Qed.

(** X17. A relationship that is kept gets a link as soon as its two ends are
    among the resources handed to the renderer, in the view or external;
    so a kept relationship is dropped from the links only when its far end
    was not supplied.  When all kept relationships have their ends
    supplied, there are as many links as kept relationships. *)
Theorem supplied_ends_give_links props :
  (forall rel, In rel (relevantRelationships props) -> endsSupplied props rel ->
               exists l, In l (graphLinks props) /\ linkRelationship l = rel)
  /\ ((forall rel, In rel (relevantRelationships props) -> endsSupplied props rel) ->
      length (graphLinks props) = length (relevantRelationships props)).
Proof.
  split.
  - intros rel Hin Hsup. destruct (supplied_ends_make_link props rel Hin Hsup) as (l & Hl & Hrel).
    exists l. split; [|assumption]. apply makeLinks_In. eauto.
  - intros Hall. apply makeLinks_length. intros rel Hin.
    destruct (supplied_ends_make_link props rel Hin (Hall rel Hin)) as (l & Hl & _). eauto.
Qed.

(** The external resource supplied twice and reached by two
    relationships gets one node. *)
Lemma graph_node_ids_are_distinct_witness :
  List.NoDup (map id (resources suppliedTwice))
  /\ List.NoDup (map nodeId (makeNodes suppliedTwice))
  /\ map nodeId (makeNodes suppliedTwice) = ["d1"; "d2"]
  /\ length (relevantRelationships suppliedTwice) = 2%nat
  /\ map id (externalResources suppliedTwice) = ["d2"; "d2"].
Proof.
  assert (H : List.NoDup (map id (resources suppliedTwice))).
  { simpl. constructor; [intros [] | constructor]. }
  split; [exact H|]. split; [exact (graph_node_ids_are_distinct suppliedTwice H)|].
  repeat split; reflexivity.
Defined.

Lemma lengthExceeds_false n q :
  (inject_Z (Z.of_nat n) <= q)%Q -> lengthExceeds n (Rational q) = false.
Proof. intros H. apply Qle_bool_iff in H. simpl. now rewrite H. Qed.

Lemma lengthExceeds_true n q :
  (q < inject_Z (Z.of_nat n))%Q -> lengthExceeds n (Rational q) = true.
Proof.
  intros H. simpl. destruct (Qle_bool (inject_Z (Z.of_nat n)) q) eqn:Hle; [|reflexivity].
  apply Qle_bool_iff in Hle. exfalso. exact (Qlt_not_le _ _ H Hle).
Qed.

Lemma toInteger_le q : (0 <= q)%Q -> (0 <= toInteger q)%Z /\ (inject_Z (toInteger q) <= q)%Q.
Proof.
  destruct q as [n d]. unfold Qle, toInteger. simpl. intros H.
  assert (Hn : (0 <= n)%Z) by lia.
  rewrite Z.quot_div_nonneg by lia. split.
  - apply Z.div_pos; lia.
  - pose proof (Z.mul_div_le n (Z.pos d) ltac:(lia)). lia.
Qed.

Lemma toInteger_negative q : (q < 0)%Q -> (toInteger q <= 0)%Z.
Proof.
  destruct q as [n d]. unfold Qlt, toInteger. simpl. intros H.
  assert (Hn : (0 <= - n)%Z) by lia.
  pose proof (Z.quot_pos (- n) (Z.pos d) Hn ltac:(lia)) as Hq.
  rewrite Z.quot_opp_l in Hq by lia. lia.
Qed.

Lemma toInteger_inject z : toInteger (inject_Z z) = z.
Proof. unfold toInteger. simpl. apply Z.quot_1_r. Qed.

Lemma truncated_length (text : CodeUnits) k :
  (k <= length text)%nat -> length (firstn k text ++ dots) = (k + 3)%nat.
Proof. intros H. rewrite length_app, firstn_length_le by assumption. reflexivity. Qed.

(** X21. A label is never longer than the limit plus the three dots, in
    UTF-16 code units.  For a finite limit: a text whose length is within
    the limit is shown as it is; a longer one is cut at the integer part of
    the limit and the dots are added; for a limit below zero only the dots
    remain, so that there the length, 3, is above the limit plus 3.  A
    limit that is not a number, or infinite, leaves the text, and minus
    infinity leaves the dots.  For a whole limit [n], as the 15 of the node
    labels, the label has at most [n + 3] code units, and exactly that many
    when the text is longer than [n]. *)
Theorem truncateText_is_bounded (text : CodeUnits) :
  (forall q, (inject_Z (Z.of_nat (length text)) <= q)%Q ->
     truncateText text (Rational q) = text)
  /\ (forall q, (0 <= q)%Q -> (q < inject_Z (Z.of_nat (length text)))%Q ->
       truncateText text (Rational q) = firstn (Z.to_nat (toInteger q)) text ++ dots
       /\ length (truncateText text (Rational q)) = (Z.to_nat (toInteger q) + 3)%nat)
  /\ (forall q, (0 <= q)%Q ->
       (inject_Z (Z.of_nat (length (truncateText text (Rational q)))) <= q + 3)%Q)
  /\ (forall q, (q < 0)%Q -> truncateText text (Rational q) = dots)
  /\ truncateText text NaN = text
  /\ truncateText text PosInfinity = text
  /\ truncateText text NegInfinity = dots
  /\ (forall n : nat,
       (length (truncateText text (Rational (inject_Z (Z.of_nat n)))) <= n + 3)%nat
       /\ ((length text <= n)%nat ->
           truncateText text (Rational (inject_Z (Z.of_nat n))) = text)
       /\ ((n < length text)%nat ->
           truncateText text (Rational (inject_Z (Z.of_nat n))) = firstn n text ++ dots
           /\ length (truncateText text (Rational (inject_Z (Z.of_nat n)))) = (n + 3)%nat))
  /\ (length (truncateText text labelLimit) <= 18)%nat.
Proof.
  assert (Hwithin : forall q, (inject_Z (Z.of_nat (length text)) <= q)%Q ->
                      truncateText text (Rational q) = text).
  { intros q H. unfold truncateText. now rewrite lengthExceeds_false. }
  assert (Hcut : forall q, (0 <= q)%Q -> (q < inject_Z (Z.of_nat (length text)))%Q ->
            truncateText text (Rational q) = firstn (Z.to_nat (toInteger q)) text ++ dots
            /\ length (truncateText text (Rational q)) = (Z.to_nat (toInteger q) + 3)%nat).
  { intros q H0 Hlt. unfold truncateText. rewrite lengthExceeds_true by assumption.
    split; [reflexivity|]. apply truncated_length.
    destruct (toInteger_le q H0) as [Hpos Hle].
    assert (Hq : (inject_Z (toInteger q) < inject_Z (Z.of_nat (length text)))%Q)
      by (eapply Qle_lt_trans; eassumption).
    rewrite <- Zlt_Qlt in Hq. lia. }
  assert (Hwhole : forall n : nat,
            (length (truncateText text (Rational (inject_Z (Z.of_nat n)))) <= n + 3)%nat
            /\ ((length text <= n)%nat ->
                truncateText text (Rational (inject_Z (Z.of_nat n))) = text)
            /\ ((n < length text)%nat ->
                truncateText text (Rational (inject_Z (Z.of_nat n)))
                = firstn n text ++ dots
                /\ length (truncateText text (Rational (inject_Z (Z.of_nat n))))
                   = (n + 3)%nat)).
  { intros n.
    assert (Hle : (length text <= n)%nat ->
                  truncateText text (Rational (inject_Z (Z.of_nat n))) = text).
    { intros H. apply Hwithin. rewrite <- Zle_Qle. lia. }
    assert (Hlt : (n < length text)%nat ->
                  truncateText text (Rational (inject_Z (Z.of_nat n)))
                  = firstn n text ++ dots
                  /\ length (truncateText text (Rational (inject_Z (Z.of_nat n))))
                     = (n + 3)%nat).
    { intros H.
      destruct (Hcut (inject_Z (Z.of_nat n))) as [Heq Hlen].
      - change 0%Q with (inject_Z 0). rewrite <- Zle_Qle. lia.
      - rewrite <- Zlt_Qlt. lia.
      - rewrite toInteger_inject, Nat2Z.id in Heq, Hlen. split; assumption. }
    split; [|split; assumption].
    destruct (Nat.le_gt_cases (length text) n) as [H|H].
    - rewrite (Hle H). lia.
    - destruct (Hlt H) as [_ ->]. lia. }
  split; [exact Hwithin|]. split; [exact Hcut|]. split.
  { intros q H0.
    destruct (Qlt_le_dec q (inject_Z (Z.of_nat (length text)))) as [Hlt|Hle].
    - destruct (Hcut q H0 Hlt) as [_ ->]. destruct (toInteger_le q H0) as [Hpos Hq].
      rewrite Nat2Z.inj_add, Z2Nat.id by assumption. rewrite inject_Z_plus.
      apply Qplus_le_compat; [assumption|]. apply Qle_refl.
    - rewrite (Hwithin q Hle). eapply Qle_trans; [exact Hle|].
      rewrite <- (Qplus_0_r q) at 1. apply Qplus_le_compat; [apply Qle_refl|]. easy. }
  split.
  { intros q Hneg. unfold truncateText. rewrite lengthExceeds_true.
    - simpl. pose proof (toInteger_negative q Hneg) as H.
      replace (Z.to_nat (toInteger q)) with 0%nat by lia. reflexivity.
    - eapply Qlt_le_trans; [exact Hneg|].
      change 0%Q with (inject_Z 0). rewrite <- Zle_Qle. lia. }
  split; [reflexivity|]. split; [reflexivity|]. split; [reflexivity|].
  split; [exact Hwhole|].
  exact (proj1 (Hwhole 15%nat)).
Qed.

Lemma collectConnected_elem d acc l i :
  i ∈ collectConnected d acc l
  <-> i ∈ acc
      \/ (nodeId (linkSource l) = nodeId d /\ i = nodeId (linkTarget l))
      \/ (nodeId (linkTarget l) = nodeId d /\ i = nodeId (linkSource l)).
Proof.
  unfold collectConnected.
  destruct (String.eqb_spec (nodeId (linkSource l)) (nodeId d)) as [Hs|Hs],
           (String.eqb_spec (nodeId (linkTarget l)) (nodeId d)) as [Ht|Ht];
    rewrite ?elem_of_union, ?elem_of_singleton; tauto.
Qed.

Lemma connectedNodeIds_fold links d acc i :
  i ∈ fold_left (collectConnected d) links acc
  <-> i ∈ acc
      \/ exists l, In l links
           /\ ((nodeId (linkSource l) = nodeId d /\ i = nodeId (linkTarget l))
               \/ (nodeId (linkTarget l) = nodeId d /\ i = nodeId (linkSource l))).
Proof.
  revert acc. induction links as [|l links IH]; intros acc; simpl.
  - split; [auto | intros [H|(l & [] & _)]; assumption].
  - rewrite IH, collectConnected_elem. split.
    + intros [[H|H]|(l' & Hin & H)]; [now left | right; exists l; auto | ].
      right. exists l'. auto.
    + intros [H|(l' & [<-|Hin] & H)]; [left; now left | left; now right | ].
      right. exists l'. auto.
Qed.

Lemma connectedNodeIds_adjacent links d n :
  nodeId n ∈ connectedNodeIds links d <-> adjacent links d n.
Proof.
  unfold connectedNodeIds, adjacent. rewrite connectedNodeIds_fold. split.
  - intros [H|(l & Hin & H)]; [now apply not_elem_of_empty in H|].
    exists l. split; [assumption|].
    destruct H as [[H1 H2]|[H1 H2]]; [left | right]; split; congruence.
  - intros (l & Hin & H). right. exists l. split; [assumption|].
    destruct H as [[H1 H2]|[H1 H2]]; [left | right]; split; congruence.
Qed.

Lemma adjacent_sym links a b : adjacent links a b -> adjacent links b a.
Proof. intros (l & Hin & H). exists l. split; [assumption | tauto]. Qed.

Lemma nodeStrokeOnHover_thick links d n :
  nodeStrokeOnHover links d n = 3%Q <-> nodeId n = nodeId d \/ adjacent links d n.
Proof.
  unfold nodeStrokeOnHover.
  destruct (String.eqb_spec (nodeId n) (nodeId d)) as [Heq|Hne]; simpl.
  - split; auto.
  - destruct (bool_decide (nodeId n ∈ connectedNodeIds links d)) eqn:Hb.
    + apply bool_decide_eq_true in Hb. apply connectedNodeIds_adjacent in Hb.
      split; auto.
    + apply bool_decide_eq_false in Hb. rewrite connectedNodeIds_adjacent in Hb.
      split; [discriminate | intros [H|H]; contradiction].
Qed.

(** X19. While the pointer is over a node, the nodes drawn thick are that node
    and the nodes that a link joins to it, in either direction; the
    relation is symmetric (hovering one of two nodes thickens the other
    exactly when hovering the other thickens the first); and every link
    drawn thick has both its ends drawn thick. *)
Theorem hover_highlights_the_neighbourhood links d :
  (forall n, nodeStrokeOnHover links d n = 3%Q
             <-> nodeId n = nodeId d \/ adjacent links d n)
  /\ (forall n, nodeStrokeOnHover links d n = 3%Q <-> nodeStrokeOnHover links n d = 3%Q)
  /\ (forall l, In l links -> linkStrokeOnHover d l = 4%Q ->
                nodeStrokeOnHover links d (linkSource l) = 3%Q
                /\ nodeStrokeOnHover links d (linkTarget l) = 3%Q).
Proof.
  split; [intros n; apply nodeStrokeOnHover_thick|]. split.
  - intros n. rewrite !nodeStrokeOnHover_thick. split.
    + intros [H|H]; [left; now symmetry | right; now apply adjacent_sym].
    + intros [H|H]; [left; now symmetry | right; now apply adjacent_sym].
  - intros l Hin Hthick. unfold linkStrokeOnHover in Hthick.
    rewrite !nodeStrokeOnHover_thick.
    destruct (String.eqb_spec (nodeId (linkSource l)) (nodeId d)) as [Hs|Hs];
      simpl in Hthick.
    + split; [now left|]. right. exists l. auto.
    + destruct (String.eqb_spec (nodeId (linkTarget l)) (nodeId d)) as [Ht|Ht];
        [|discriminate Hthick].
      split; [|now left]. right. exists l. auto.
Qed.

Lemma runEffect_message props m message :
  runEffect props message = Some m -> truthy m = true.
Proof.
  unfold runEffect, containerMounted.
  destruct message as [m0|]; simpl.
  - destruct (truthy m0) eqn:Hm0; simpl.
    + intros H. injection H as <-. assumption.
    + unfold renderGraph. destruct (graphResources props); [intros H; now injection H as <-|].
      destruct (relevantRelationships props); intros H; [now injection H as <-|discriminate].
  - unfold renderGraph. destruct (graphResources props); [intros H; now injection H as <-|].
    destruct (relevantRelationships props); intros H; [now injection H as <-|discriminate].
Qed.

Lemma messageAfter_shown updates m :
  truthy m = true ->
  fold_left (fun message props => runEffect props message) updates (Some m) = Some m.
Proof.
  intros Hm. induction updates as [|p updates IH]; simpl; [reflexivity|].
  now rewrite displayed_message_is_kept.
Qed.

Lemma messageAfter_cons initial p updates :
  messageAfter initial (p :: updates)
  = match mountComponent initial with
    | Some m => Some m
    | None => messageAfter p updates
    end.
Proof.
  unfold messageAfter. simpl.
  destruct (mountComponent initial) as [m|] eqn:Hm.
  - pose proof (runEffect_message initial m None Hm) as Ht.
    rewrite displayed_message_is_kept by assumption. now apply messageAfter_shown.
  - reflexivity.
Qed.

(** X22. Over the life of the component the message is the first one that any
    of its successive property sets produced: while the canvas is shown an
    update is rendered like a first render, but once a message is shown the
    container is gone, the effect returns at once, and no later property
    set replaces or clears the message. *)
Theorem first_message_stays initial updates :
  messageAfter initial updates = firstMessage (initial :: updates).
Proof.
  revert initial. induction updates as [|p updates IH]; intros initial.
  - unfold messageAfter. simpl. now destruct (mountComponent initial).
  - rewrite messageAfter_cons. simpl. destruct (mountComponent initial); [reflexivity|].
    apply IH.
Qed.


Lemma dragged_fold {Coord} (moves : list (Coord * Coord)) (d : Pinning Coord) :
  let d' := fold_left (fun node move => dragged (fst move) (snd move) node) moves d in
  x d' = x d /\ y d' = y d
  /\ fx d' = match lastPointer moves with Some p => Some (fst p) | None => fx d end
  /\ fy d' = match lastPointer moves with Some p => Some (snd p) | None => fy d end.
Proof.
  revert d. induction moves as [|m moves IH]; intros d; simpl; [auto|].
  destruct (IH (dragged (fst m) (snd m) d)) as (Hx & Hy & Hfx & Hfy).
  unfold lastPointer in *. simpl in Hx, Hy, Hfx, Hfy.
  destruct moves as [|m' moves]; [simpl in *; auto|].
  change (list.last (m :: m' :: moves)) with (list.last (m' :: moves)).
  destruct (list.last (m' :: moves)) as [p|] eqn:Hlast.
  - auto.
  - exfalso. clear - Hlast. revert m' Hlast.
    induction moves as [|m'' moves IHm]; intros m' Hlast; [discriminate|].
    exact (IHm m'' Hlast).
Qed.

(** X20. A drag pins the node under the pointer and the release frees it: while
    dragging, the node is fixed at the last position of the pointer (at its
    own position before the first move) and the simulation is reheated;
    after the release it is fixed nowhere and the target of the simulation
    is back to zero.  The handlers never write the position of the node. *)
Theorem drag_pins_until_release (Coord : Type) (sim : Simulation)
    (d : Pinning Coord) (moves : list (Coord * Coord)) :
  let during := whileDragging sim d moves in
  let after := gesture sim d moves in
  fx (snd during) = match lastPointer moves with Some p => Some (fst p) | None => x d end
  /\ fy (snd during) = match lastPointer moves with Some p => Some (snd p) | None => y d end
  /\ alphaTarget (fst during) = 0.3%Q
  /\ fx (snd after) = None /\ fy (snd after) = None
  /\ alphaTarget (fst after) = 0%Q
  /\ x (snd during) = x d /\ y (snd during) = y d
  /\ x (snd after) = x d /\ y (snd after) = y d.
Proof.
  unfold gesture, whileDragging, dragstarted. simpl.
  destruct (dragged_fold moves {| x := x d; y := y d; fx := x d; fy := y d |})
    as (Hx & Hy & Hfx & Hfy).
  simpl in *. repeat split; assumption.
Qed.

(* ===================================================================== *)
(** ** The status of a service *)
(* ===================================================================== *)

Lemma optStrEqb_true a b : optStrEqb a b = true <-> a = b.
Proof.
  destruct a as [x|], b as [y|]; simpl; split; try congruence.
  - intros H. apply String.eqb_eq in H. now subst.
  - intros [= ->]. apply String.eqb_refl.
Qed.

Lemma optStrEqb_false a b : optStrEqb a b = false <-> a <> b.
Proof.
  rewrite <- optStrEqb_true. destruct (optStrEqb a b); split; congruence.
Qed.

Lemma statusFromCounts_running service :
  statusFromCounts service = running
  <-> Service.status service = Some "ACTIVE"
      /\ exists n, Service.runningCount service = Some n /\ (0 < n)%Z.
Proof.
  unfold statusFromCounts. destruct (bool_decide _) eqn:Hz.
  - apply bool_decide_eq_true in Hz. split; [discriminate|].
    intros (_ & n & Hn & Hpos). rewrite Hz in Hn. injection Hn as <-. lia.
  - destruct (optStrEqb _ _) eqn:Ha; simpl.
    + apply optStrEqb_true in Ha. destruct (Service.runningCount service) as [n|].
      * destruct (0 <? n)%Z eqn:Hpos.
        -- apply Z.ltb_lt in Hpos. split; eauto.
        -- apply Z.ltb_ge in Hpos. split; [discriminate|].
           intros (_ & m & [= <-] & Hm). lia.
      * split; [discriminate|]. now intros (_ & m & [=] & _).
    + apply optStrEqb_false in Ha. split; [discriminate|]. now intros [H _].
Qed.

Lemma statusFromCounts_stopped service :
  statusFromCounts service = stopped <-> Service.runningCount service = Some 0%Z.
Proof.
  unfold statusFromCounts. destruct (bool_decide _) eqn:Hz.
  - apply bool_decide_eq_true in Hz. tauto.
  - apply bool_decide_eq_false in Hz.
    destruct (_ && _); split; (discriminate || contradiction).
Qed.

Lemma statusFromCounts_not_terminated service : statusFromCounts service <> terminated.
Proof.
  unfold statusFromCounts. destruct (bool_decide _); [discriminate|].
  destruct (_ && _); discriminate.
Qed.

(** X1. The status given to a service.  Without deployments the function
    throws, unless the service is INACTIVE.  Otherwise the service is
    running exactly when it is ACTIVE with at least one running task and
    its primary deployment, if it has one, neither failed nor is rolling
    out; it is stopped exactly when it is INACTIVE, or its primary
    deployment failed, or (with no roll-out under way) it has no running
    task; it is never terminated.  In every other case it is pending: so a
    roll-out under way hides that no task is running. *)
Theorem service_status_is_characterised service :
  (determineECSServiceStatus service = None
   <-> Service.status service <> Some "INACTIVE" /\ Service.deployments service = None)
  /\ (determineECSServiceStatus service = Some running
      <-> exists deployments,
            Service.deployments service = Some deployments
            /\ settled deployments
            /\ Service.status service = Some "ACTIVE"
            /\ exists n, Service.runningCount service = Some n /\ (0 < n)%Z)
  /\ (determineECSServiceStatus service = Some stopped
      <-> Service.status service = Some "INACTIVE"
          \/ exists deployments,
               Service.deployments service = Some deployments
               /\ ((exists d, List.find isPrimary deployments = Some d
                              /\ Deployment.rolloutState d = Some "FAILED")
                   \/ (settled deployments
                       /\ Service.runningCount service = Some 0%Z)))
  /\ determineECSServiceStatus service <> Some terminated.
Proof.
  unfold determineECSServiceStatus, settled.
  destruct (optStrEqb (Service.status service) (Some "INACTIVE")) eqn:Hin.
  { apply optStrEqb_true in Hin. repeat split; try discriminate; auto.
    - now intros [H _].
    - intros (ds & _ & _ & Ha & _). rewrite Hin in Ha. discriminate. }
  apply optStrEqb_false in Hin.
  destruct (Service.deployments service) as [ds|] eqn:Hds.
  2:{ repeat split; try discriminate; auto.
      - now intros (ds & [=] & _).
      - intros [H|(ds & [=] & _)]. contradiction. }
  destruct (List.find isPrimary ds) as [d|] eqn:Hp.
  - destruct (optStrEqb (Deployment.rolloutState d) (Some "FAILED")) eqn:Hf.
    + apply optStrEqb_true in Hf. repeat split; try discriminate.
      * now intros [_ [=]].
      * intros (ds' & [= <-] & Hs & _). rewrite Hp in Hs.
        destruct (Hs d eq_refl) as [H _]. contradiction.
      * intros _. right. exists ds. split; [reflexivity|]. left. eauto.
    + apply optStrEqb_false in Hf. destruct (rollingOut d) eqn:Hr.
      * repeat split; try discriminate.
        -- now intros [_ [=]].
        -- intros (ds' & [= <-] & Hs & _). rewrite Hp in Hs.
           destruct (Hs d eq_refl) as [_ H]. congruence.
        -- intros [H|(ds' & [= <-] & [(d' & Hd' & Hfd)|[Hs _]])].
           ++ contradiction.
           ++ rewrite Hp in Hd'. injection Hd' as <-. contradiction.
           ++ rewrite Hp in Hs. destruct (Hs d eq_refl) as [_ H]. congruence.
      * assert (Hset : forall d0, Some d = Some d0 ->
                  Deployment.rolloutState d0 <> Some "FAILED" /\ rollingOut d0 = false).
        { intros d0 [= <-]. auto. }
        repeat split; try discriminate.
        -- now intros [_ [=]].
        -- intros [= H]. apply statusFromCounts_running in H.
           exists ds. rewrite Hp. auto.
        -- intros (ds' & [= <-] & _ & H). f_equal. now apply statusFromCounts_running.
        -- intros [= H]. apply statusFromCounts_stopped in H.
           right. exists ds. rewrite Hp. auto.
        -- intros [H|(ds' & [= <-] & [(d' & Hd' & Hfd)|[_ H]])].
           ++ contradiction.
           ++ rewrite Hp in Hd'. injection Hd' as <-. contradiction.
           ++ f_equal. now apply statusFromCounts_stopped.
        -- intros [= H]. now apply statusFromCounts_not_terminated in H.
  - assert (Hset : forall d0 : Deployment.t, None = Some d0 ->
              Deployment.rolloutState d0 <> Some "FAILED" /\ rollingOut d0 = false).
    { intros d0 [=]. }
    repeat split; try discriminate.
    + now intros [_ [=]].
    + intros [= H]. apply statusFromCounts_running in H. exists ds. rewrite Hp. auto.
    + intros (ds' & [= <-] & _ & H). f_equal. now apply statusFromCounts_running.
    + intros [= H]. apply statusFromCounts_stopped in H. right. exists ds. rewrite Hp. auto.
    + intros [H|(ds' & [= <-] & [(d' & Hd' & Hfd)|[_ H]])].
      * contradiction.
      * rewrite Hp in Hd'. discriminate.
      * f_equal. now apply statusFromCounts_stopped.
    + intros [= H]. now apply statusFromCounts_not_terminated in H.
Qed.

(* ===================================================================== *)
(** ** The health badges of a group and of its regions *)
(* ===================================================================== *)

Lemma filter_length_le {A} (p : A -> bool) l : length (List.filter p l) <= length l.
Proof. induction l as [|a l IH]; simpl; [lia|]. destruct (p a); simpl; lia. Qed.

Lemma filter_all_length {A} (p : A -> bool) l :
  length (List.filter p l) = length l <-> forall a, In a l -> p a = true.
Proof.
  induction l as [|a l IH]; simpl.
  - split; [intros _ b []|reflexivity].
  - pose proof (filter_length_le p l) as Hle. destruct (p a) eqn:Hp; simpl.
    + split.
      * intros H b [<-|Hb]; [assumption|]. apply IH; [lia|assumption].
      * intros H. f_equal. apply IH. auto.
    + split; [lia|]. intros H. rewrite (H a) in Hp; [discriminate|now left].
Qed.

Lemma hasStatus_true s r : hasStatus s r = true <-> status r = s.
Proof. unfold hasStatus. apply bool_decide_eq_true. Qed.

Lemma calculateHealthStatus_healthy resources :
  calculateHealthStatus resources = healthy
  <-> forall r, In r resources -> status r = running.
Proof.
  unfold calculateHealthStatus.
  destruct (_ =? _)%nat eqn:Hrun.
  - apply Nat.eqb_eq in Hrun. rewrite filter_all_length in Hrun. split; [|reflexivity].
    intros _ r Hr. now apply hasStatus_true, Hrun.
  - apply Nat.eqb_neq in Hrun. split.
    + destruct (_ =? _)%nat; discriminate.
    + intros H. exfalso. apply Hrun, filter_all_length. intros r Hr.
      now apply hasStatus_true, H.
Qed.

Lemma calculateHealthStatus_error resources :
  calculateHealthStatus resources = error
  <-> resources <> [] /\ forall r, In r resources -> status r = stopped.
Proof.
  unfold calculateHealthStatus.
  destruct (_ =? _)%nat eqn:Hrun.
  - apply Nat.eqb_eq in Hrun. rewrite filter_all_length in Hrun. split; [discriminate|].
    intros [Hne Hall]. destruct resources as [|r rest]; [contradiction|].
    assert (Hr : status r = running) by (apply hasStatus_true, Hrun; now left).
    rewrite (Hall r) in Hr; [discriminate|now left].
  - apply Nat.eqb_neq in Hrun. destruct (_ =? _)%nat eqn:Hstop.
    + apply Nat.eqb_eq in Hstop. rewrite filter_all_length in Hstop. split; [|reflexivity].
      intros _. split.
      * intros ->. now apply Hrun.
      * intros r Hr. now apply hasStatus_true, Hstop.
    + apply Nat.eqb_neq in Hstop. split; [discriminate|].
      intros [_ Hall]. exfalso. apply Hstop, filter_all_length.
      intros r Hr. now apply hasStatus_true, Hall.
Qed.

Lemma existsb_status s regions :
  existsb (fun region => existsb (hasStatus s) (Group.resources region)) regions = true
  <-> exists rg, In rg regions /\ holds s (Group.resources rg).
Proof.
  rewrite existsb_exists. split.
  - intros (rg & Hrg & H). apply existsb_exists in H as (r & Hr & H).
    apply hasStatus_true in H. exists rg. split; [assumption|]. now exists r.
  - intros (rg & Hrg & r & Hr & H). exists rg. split; [assumption|].
    apply existsb_exists. exists r. split; [assumption|]. now apply hasStatus_true.
Qed.

Lemma calculateOverallHealth_cases regions :
  (ResourceGroup.calculateOverallHealth regions = error
   <-> exists rg, In rg regions /\ holds stopped (Group.resources rg))
  /\ (ResourceGroup.calculateOverallHealth regions = healthy
      <-> forall rg r, In rg regions -> In r (Group.resources rg) ->
                       status r = running \/ status r = terminated).
Proof.
  unfold ResourceGroup.calculateOverallHealth.
  pose proof (existsb_status stopped regions) as He.
  pose proof (existsb_status pending regions) as Hw.
  destruct (existsb _ regions) eqn:Hs.
  - destruct He as [He _]. specialize (He eq_refl). split; [tauto|].
    split; [discriminate|]. intros H. destruct He as (rg & Hrg & r & Hr & Hst).
    destruct (H rg r Hrg Hr); congruence.
  - clear Hs. split.
    { split; [destruct (existsb _ regions); discriminate|].
      intros H. apply He in H. discriminate. }
    destruct (existsb _ regions) eqn:Hp.
    + destruct Hw as [Hw _]. specialize (Hw eq_refl).
      split; [discriminate|]. intros H. destruct Hw as (rg & Hrg & r & Hr & Hst).
      destruct (H rg r Hrg Hr); congruence.
    + split; [|reflexivity]. intros _ rg r Hrg Hr.
      destruct (status r) eqn:Hst; auto.
      * assert (false = true); [|discriminate]. apply He. exists rg. split; [assumption|].
        now exists r.
      * assert (false = true); [|discriminate]. apply Hw. exists rg. split; [assumption|].
        now exists r.
Qed.

(** X23. How the badge of a group relates to the badges of its regions.  When
    every region is healthy the group is healthy, and a region in error
    puts the group in error.  The group is in error as soon as one resource
    is stopped, whatever the badges of the regions.  A group shown healthy
    can still hold a region that is not: that region then holds a
    terminated resource, which the badge of the group does not count. *)
Theorem group_badge_and_region_badges regions :
  ((forall rg, In rg regions -> calculateHealthStatus (Group.resources rg) = healthy) ->
   ResourceGroup.calculateOverallHealth regions = healthy)
  /\ (forall rg, In rg regions -> calculateHealthStatus (Group.resources rg) = error ->
                 ResourceGroup.calculateOverallHealth regions = error)
  /\ (ResourceGroup.calculateOverallHealth regions = error
      <-> exists rg, In rg regions /\ holds stopped (Group.resources rg))
  /\ (forall rg, In rg regions ->
                 ResourceGroup.calculateOverallHealth regions = healthy ->
                 calculateHealthStatus (Group.resources rg) <> healthy ->
                 holds terminated (Group.resources rg)).
Proof.
  destruct (calculateOverallHealth_cases regions) as [Herr Hok].
  split; [|split; [|split; [exact Herr|]]].
  - intros Hall. apply Hok. intros rg r Hrg Hr. left.
    exact (proj1 (calculateHealthStatus_healthy _) (Hall rg Hrg) r Hr).
  - intros rg Hrg H. apply calculateHealthStatus_error in H as [Hne Hall].
    apply Herr. exists rg. split; [assumption|].
    destruct (Group.resources rg) as [|r rest] eqn:Hres; [contradiction|].
    exists r. split; [now left|]. apply Hall. now left.
  - intros rg Hrg Hgroup Hregion.
    assert (Hcases : forall r, In r (Group.resources rg) ->
                       status r = running \/ status r = terminated).
    { intros r Hr. exact (proj1 Hok Hgroup rg r Hrg Hr). }
    clear - Hcases Hregion. unfold holds.
    induction (Group.resources rg) as [|r rest IH].
    + exfalso. apply Hregion. now apply calculateHealthStatus_healthy.
    + destruct (Hcases r (or_introl eq_refl)) as [Hrun|Hterm].
      * destruct IH as (r' & Hr' & Hst).
        -- intros Hh. apply Hregion. apply calculateHealthStatus_healthy.
           intros x [<-|Hx]; [assumption|].
           now apply (proj1 (calculateHealthStatus_healthy rest)).
        -- intros x Hx. apply Hcases. now right.
        -- exists r'. split; [now right|assumption].
      * exists r. split; [now left|assumption].
Qed.

(* ===================================================================== *)
(** ** The answer of the route *)
(* ===================================================================== *)

Lemma focusResources_within allResources application :
  focusWithin allResources (Route.focusResources allResources application).
Proof.
  unfold Route.focusResources. destruct application as [a|]; simpl; [|exact I].
  destruct (truthy a); simpl; [|exact I].
  intros r Hr. now apply filter_In in Hr.
Qed.

Lemma response_ids_cover P allResources application i :
  In i (map id allResources) ->
  In i (map id (Route.resources (Route.respond P allResources application)
                ++ Route.externalResources (Route.respond P allResources application))).
Proof.
  unfold Route.respond. simpl.
  destruct (Route.focusResources allResources application) as [focus|]; simpl.
  2:{ now rewrite app_nil_r. }
  intros Hi. rewrite map_app. apply in_or_app.
  destruct (existsb (fun fr => String.eqb (id fr) i) focus) eqn:Hex.
  - left. apply existsb_exists in Hex as (fr & Hfr & Heq).
    apply String.eqb_eq in Heq. subst i. now apply in_map.
  - right. apply in_map_iff in Hi as (r & <- & Hr). apply in_map.
    apply filter_In. split; [assumption|]. now rewrite Hex.
Qed.

(** X4. The answer of the route holds what its relationships refer to.  Both
    ends of every relationship are ids of resources of the answer, listed
    under [resources] or under [externalResources], and one end is the id
    of a resource listed under [resources]; no id is listed on both sides;
    every id of the inventory is listed on one.  Without an application in
    the query, or with an empty one, the whole inventory is listed under
    [resources] and nothing as external. *)
Theorem answer_of_the_route_is_self_contained P allResources application :
  (forall e, In e (Route.relationships (Route.respond P allResources application)) ->
     let listed := map id (Route.resources (Route.respond P allResources application)
                           ++ Route.externalResources
                                (Route.respond P allResources application)) in
     In (sourceId e) listed /\ In (targetId e) listed
     /\ exists r, In r (Route.resources (Route.respond P allResources application))
                  /\ touches r e)
  /\ (forall r x,
        In r (Route.resources (Route.respond P allResources application)) ->
        In x (Route.externalResources (Route.respond P allResources application)) ->
        id r <> id x)
  /\ (forall r, In r allResources ->
        In (id r) (map id (Route.resources (Route.respond P allResources application)
                           ++ Route.externalResources
                                (Route.respond P allResources application))))
  /\ (truthyOpt application = false ->
      Route.resources (Route.respond P allResources application) = allResources
      /\ Route.externalResources (Route.respond P allResources application) = []).
Proof.
  split; [|split; [|split]].
  - intros e He. cbv zeta.
    pose proof (focusResources_within allResources application) as Hf.
    assert (He' := He). unfold Route.respond in He'. simpl in He'.
    destruct (discovered_resolved P allResources _ e Hf (deduplicate_In _ _ _ He'))
      as [Hs Ht].
    split; [now apply response_ids_cover|]. split; [now apply response_ids_cover|].
    apply returned_from_extractor in He' as (r & Hr & Hex).
    exists r. split; [exact Hr|]. now apply extract_sound in Hex.
  - unfold Route.respond. simpl.
    destruct (Route.focusResources allResources application) as [focus|]; simpl.
    + intros r x Hr Hx Heq. apply filter_In in Hx as [_ Hx].
      apply negb_true_iff in Hx.
      assert (Hex : existsb (fun fr => String.eqb (id fr) (id x)) focus = true).
      { apply existsb_exists. exists r. split; [assumption|]. now apply String.eqb_eq. }
      congruence.
    + intros r x _ [].
  - intros r Hr. apply response_ids_cover. now apply in_map.
  - intros Hfalsy. unfold Route.respond, Route.focusResources. simpl.
    destruct application as [a|]; simpl in *; [|auto]. rewrite Hfalsy. auto.
Qed.

Lemma getAllResources_mock fetch : In mockEcsService (getAllResources fetch).
Proof. unfold getAllResources. apply in_or_app. right. now left. Qed.

(** X3. The fixture is served whatever the regions and the provider answer.
    For the application 'test-app2' the mock service is always among the
    resources of the answer, also when every region fails.  And when the
    inventory lists a database instance named 'database-2-instance-1', the
    extractor of the mock service pushes its connects_to edge to the first
    such instance (tcp, port 3306), and the answer holds that edge or an
    earlier one with its key. *)
Theorem fixture_edge_is_always_served P fetch :
  In mockEcsService (Route.resources (Route.handler P fetch (Some "test-app2")))
  /\ (fixtureDatabaseListed (getAllResources fetch) ->
      exists db,
        List.find (fun r => typeEqb (type r) aurora_instance
                            && String.eqb (name r) "database-2-instance-1")
                  (getAllResources fetch) = Some db
        /\ In db (getAllResources fetch)
        /\ type db = aurora_instance /\ name db = "database-2-instance-1"
        /\ In (serviceToDatabaseEdge mockEcsService db)
              (discoveredRelationships P (getAllResources fetch)
                 (Route.focusResources (getAllResources fetch) (Some "test-app2")))
        /\ exists e,
             In e (Route.relationships (Route.handler P fetch (Some "test-app2")))
             /\ relationshipKey e
                = relationshipKey (serviceToDatabaseEdge mockEcsService db)).
Proof.
  set (S := getAllResources fetch).
  assert (Hfocus : In mockEcsService
                     (resourcesOfInterest S (Route.focusResources S (Some "test-app2")))).
  { simpl. apply filter_In. split; [apply getAllResources_mock|reflexivity]. }
  split; [exact Hfocus|].
  intros (db0 & Hin0 & Hty0 & Hnm0).
  destruct (List.find (fun r => typeEqb (type r) aurora_instance
                                && String.eqb (name r) "database-2-instance-1") S)
    as [db|] eqn:Hfind.
  2:{ exfalso. apply (List.find_none _ _ Hfind) in Hin0.
      rewrite Hty0, Hnm0 in Hin0. discriminate. }
  destruct (List.find_some _ _ Hfind) as [Hdb Hprop].
  apply andb_true_iff in Hprop as [Hty Hnm].
  apply bool_decide_eq_true in Hty. apply String.eqb_eq in Hnm.
  exists db. split; [reflexivity|].
  split; [exact Hdb|]. split; [exact Hty|]. split; [exact Hnm|].
  assert (Hpushed : In (serviceToDatabaseEdge mockEcsService db)
                       (fst (extract P S mockEcsService))).
  { unfold extract, ecsEdges. simpl.
    rewrite getSecurityGroupConnections_mock by reflexivity.
    unfold mockConnections. simpl. fold S. rewrite Hfind. now left. }
  split.
  - apply discoveredRelationships_In. eauto.
  - unfold Route.handler, Route.respond. simpl.
    apply extractor_key_returned with (r := mockEcsService); assumption.
Qed.

(** With every region failing the answer lists the mock service alone;
    with a region that lists the database, its edge is served. *)
Lemma fixture_edge_is_always_served_witness :
  Route.resources (Route.handler failingProvider (fun _ => None) (Some "test-app2"))
  = [mockEcsService]
  /\ In mockEcsService
        (Route.resources (Route.handler failingProvider (fun _ => None)
                                        (Some "test-app2")))
  /\ fixtureDatabaseListed (getAllResources fetchDatabase2)
  /\ exists e,
       In e (Route.relationships
               (Route.handler failingProvider fetchDatabase2 (Some "test-app2")))
       /\ relationshipKey e
          = relationshipKey (serviceToDatabaseEdge mockEcsService Database2).
Proof.
  split; [reflexivity|]. split.
  - exact (proj1 (fixture_edge_is_always_served failingProvider (fun _ => None))).
  - assert (H : fixtureDatabaseListed (getAllResources fetchDatabase2)).
    { exists Database2. split; [now left|]. split; reflexivity. }
    split; [exact H|].
    destruct (proj2 (fixture_edge_is_always_served failingProvider fetchDatabase2) H)
      as (db & Hfind & _ & _ & _ & _ & e & He & Hkey).
    vm_compute in Hfind. injection Hfind as <-. exists e. split; assumption.
Defined.

(* ===================================================================== *)
(** ** The external resources of a group and the graph it is given *)
(* ===================================================================== *)

Lemma noteExternal_elem app ext rel i :
  i ∈ ResourceGroup.noteExternal app ext rel
  <-> i ∈ ext \/ ((i ∉ app) /\ (i = sourceId rel \/ i = targetId rel)).
Proof.
  unfold ResourceGroup.noteExternal.
  destruct (bool_decide (sourceId rel ∈ app)) eqn:Hsa;
    [apply bool_decide_eq_true in Hsa | apply bool_decide_eq_false in Hsa];
  destruct (bool_decide (sourceId rel ∈ ext)) eqn:Hse;
    [apply bool_decide_eq_true in Hse | apply bool_decide_eq_false in Hse
    |apply bool_decide_eq_true in Hse | apply bool_decide_eq_false in Hse];
  simpl;
  destruct (bool_decide (targetId rel ∈ app)) eqn:Hta;
    try (apply bool_decide_eq_true in Hta); try (apply bool_decide_eq_false in Hta);
  simpl;
  match goal with
  | |- context [bool_decide (targetId rel ∈ ?X)] =>
      destruct (bool_decide (targetId rel ∈ X)) eqn:Hte;
      [apply bool_decide_eq_true in Hte | apply bool_decide_eq_false in Hte]
  | _ => idtac
  end;
  simpl; rewrite ?elem_of_union, ?elem_of_singleton in *;
  (split; [intros H | intros [H|[Hn [-> | ->]]]]); try tauto.
  all: try (destruct H as [H|H]; subst; tauto).
  all: try (destruct H as [[H|H]|H]; subst; tauto).
Qed.

Lemma externalResourceIds_fold app rels acc i :
  i ∈ fold_left (ResourceGroup.noteExternal app) rels acc
  <-> i ∈ acc \/ ((i ∉ app) /\ exists rel, In rel rels
                                         /\ (i = sourceId rel \/ i = targetId rel)).
Proof.
  revert acc. induction rels as [|rel rels IH]; intros acc; simpl.
  - split; [auto|]. intros [H|(_ & rel & [] & _)]. exact H.
  - rewrite IH, noteExternal_elem. split.
    + intros [[H|(Hn & H)]|(Hn & r & Hr & H)]; [now left|right|right];
        (split; [assumption|]); eauto.
    + intros [H|(Hn & r & [<-|Hr] & H)]; [now left; left| left; right; auto|].
      right. split; [assumption|]. eauto.
Qed.

Lemma externalResourceIds_elem appResources rels i :
  i ∈ ResourceGroup.externalResourceIds appResources rels
  <-> ~ In i (map id appResources)
      /\ exists rel, In rel rels /\ (i = sourceId rel \/ i = targetId rel).
Proof.
  unfold ResourceGroup.externalResourceIds. rewrite externalResourceIds_fold.
  rewrite resourceIdSet_In. split.
  - intros [H|H]; [|exact H]. now apply elem_of_empty in H.
  - auto.
Qed.

Lemma externalResources_In group allResources rels r :
  In r (ResourceGroup.externalResources group allResources rels)
  <-> In r allResources
      /\ ~ In (id r) (map id (ResourceGroup.appResources group))
      /\ exists rel, In rel rels /\ touches r rel.
Proof.
  unfold ResourceGroup.externalResources, touches. destruct rels as [|rel0 rels].
  - split; [intros []|]. intros (_ & _ & rel & [] & _).
  - rewrite filter_In, bool_decide_eq_true, externalResourceIds_elem.
    split.
    + intros (Hr & Hn & rel & Hrel & H). repeat split; auto.
      exists rel. split; [assumption|]. destruct H; auto.
    + intros (Hr & Hn & rel & Hrel & H). repeat split; auto.
      exists rel. split; [assumption|]. destruct H; auto.
Qed.

Lemma filter_is_sublist {A} (p : A -> bool) l : sublist (List.filter p l) l.
Proof.
  induction l as [|a l IH]; simpl; [constructor|].
  destruct (p a); [now apply sublist_skip|now apply sublist_cons].
Qed.

(** X24. The external resources of a group are the resources of the whole
    inventory, in its order, whose id is not the id of a resource of the
    group and is an end of one of the relationships; a resource of the
    group is never among them, and without relationships there is none. *)
Theorem external_resources_of_a_group group allResources relationships :
  (forall r, In r (ResourceGroup.externalResources group allResources relationships)
             <-> In r allResources
                 /\ ~ In (id r) (map id (ResourceGroup.appResources group))
                 /\ exists rel, In rel relationships /\ touches r rel)
  /\ sublist (ResourceGroup.externalResources group allResources relationships)
             allResources
  /\ ResourceGroup.externalResources group allResources [] = [].
Proof.
  split; [intros r; apply externalResources_In|]. split; [|reflexivity].
  unfold ResourceGroup.externalResources. destruct relationships; [apply sublist_nil_l|].
  apply filter_is_sublist.
Qed.

Lemma filter_all_id {A} (p : A -> bool) l :
  (forall a, In a l -> p a = true) -> List.filter p l = l.
Proof.
  induction l as [|a l IH]; simpl; intros H; [reflexivity|].
  rewrite (H a) by now left. f_equal. apply IH. intros b Hb. apply H. now right.
Qed.

Lemma reachesGroup_retained group allResources relationships rel :
  reachesGroup group allResources rel ->
  retained (ResourceGroup.graphProps group allResources relationships true) rel = true.
Proof.
  intros [(a & Ha & Htouch) _]. unfold retained. simpl.
  apply orb_true_iff.
  destruct Htouch as [H|H]; [left|right]; apply inView_true; simpl; rewrite H;
    now apply in_map.
Qed.

Lemma reachesGroup_supplied group allResources relationships rel :
  In rel relationships ->
  reachesGroup group allResources rel ->
  endsSupplied (ResourceGroup.graphProps group allResources relationships true) rel.
Proof.
  intros Hrel (_ & Hs & Ht).
  assert (Hend : forall x, x = sourceId rel \/ x = targetId rel ->
            knownId (ResourceGroup.appResources group ++ allResources) x ->
            In x (map id (ResourceGroup.appResources group))
            \/ In x (map id (ResourceGroup.externalResources group allResources
                               relationships))).
  { intros x Hx Hk.
    destruct (in_dec string_dec x (map id (ResourceGroup.appResources group)))
      as [Hin|Hout]; [now left|].
    unfold knownId in Hk. rewrite map_app in Hk. apply in_app_or in Hk as [Hk|Hk];
      [now left|].
    right. apply in_map_iff in Hk as (r & Hid & Hr). apply in_map_iff. exists r.
    split; [assumption|]. apply externalResources_In. split; [assumption|].
    split; [now rewrite Hid|]. exists rel. split; [assumption|].
    unfold touches. rewrite Hid. destruct Hx; auto. }
  split; simpl; apply Hend; auto.
Qed.

Lemma pageAfter_snoc initial updates props :
  pageAfter initial (updates ++ [props]) = effectOnPage props (pageAfter initial updates).
Proof. unfold pageAfter. rewrite app_comm_cons, fold_left_app. reflexivity. Qed.

Lemma drawn_when_both_sets_are_filled props content :
  graphResources props <> [] -> relevantRelationships props <> [] ->
  effectOnPage props (ContainerShown content)
  = ContainerShown (Some (GraphSvg (makeNodes props) (graphLinks props))).
Proof.
  intros Hn He. unfold effectOnPage, graphLinks.
  destruct (graphResources props); [contradiction|].
  destruct (relevantRelationships props); [contradiction|reflexivity].
Qed.

(** X25. What the graph of a group shows, with the external dependencies
    switched on: every relationship that has a resource of the group at one
    end, and whose ends are ids of resources of the group or of the
    inventory, is kept and has a link; its far end, when outside the
    group, is among the external resources handed to the graph.  The
    component draws the graph with that link when it is mounted with these
    properties, and when it is rendered with them after any history that
    left the canvas on the page; after a history that left a message, the
    message stays and nothing is drawn. *)
Theorem relationships_of_a_group_are_drawn group allResources relationships rel :
  In rel relationships ->
  reachesGroup group allResources rel ->
  In rel (relevantRelationships
            (ResourceGroup.graphProps group allResources relationships true))
  /\ (exists l,
        In l (graphLinks (ResourceGroup.graphProps group allResources relationships true))
        /\ linkRelationship l = rel)
  /\ pageAfter (ResourceGroup.graphProps group allResources relationships true) []
     = ContainerShown
         (Some (GraphSvg
                  (makeNodes (ResourceGroup.graphProps group allResources relationships true))
                  (graphLinks (ResourceGroup.graphProps group allResources relationships true))))
  /\ (forall earlier updates,
        pageMessage (pageAfter earlier updates) = None ->
        pageAfter earlier
                  (updates ++ [ResourceGroup.graphProps group allResources relationships true])
        = ContainerShown
            (Some (GraphSvg
                     (makeNodes (ResourceGroup.graphProps group allResources relationships true))
                     (graphLinks (ResourceGroup.graphProps group allResources relationships true)))))
  /\ (forall earlier updates m,
        pageAfter earlier updates = MessageShown m ->
        pageAfter earlier
                  (updates ++ [ResourceGroup.graphProps group allResources relationships true])
        = MessageShown m).
Proof.
  intros Hrel Hreach.
  set (props := ResourceGroup.graphProps group allResources relationships true).
  assert (Hkept : In rel (relevantRelationships props)).
  { unfold relevantRelationships, graphData. rewrite filterRelationships_kept.
    apply filter_In. split; [exact Hrel|]. now apply reachesGroup_retained. }
  assert (Hnodes : graphResources props <> []).
  { intros Hg. apply graphResources_empty_iff in Hg. simpl in Hg.
    destruct Hreach as [(a & Ha & _) _]. rewrite Hg in Ha. destruct Ha. }
  assert (Hedges : relevantRelationships props <> []).
  { intros He. rewrite He in Hkept. destruct Hkept. }
  split; [exact Hkept|]. split.
  { destruct (supplied_ends_make_link _ rel Hkept
                (reachesGroup_supplied group allResources relationships rel Hrel Hreach))
      as (l & Hl & Heq).
    exists l. split; [|exact Heq]. apply makeLinks_In. eauto. }
  split.
  { unfold pageAfter. simpl. fold props.
    now apply (drawn_when_both_sets_are_filled props None). }
  split.
  - intros earlier updates Hnone. rewrite pageAfter_snoc.
    destruct (pageAfter earlier updates) as [m|content]; [discriminate|].
    now apply drawn_when_both_sets_are_filled.
  - intros earlier updates m Hm. rewrite pageAfter_snoc, Hm. reflexivity.
Qed.

Lemma served_reaches_group P allResources group rel :
  truthy (Group.application group) = true ->
  groupOfInventory group allResources ->
  In rel (Route.relationships
            (Route.respond P allResources (Some (Group.application group)))) ->
  reachesGroup group allResources rel.
Proof.
  intros Htruthy Hgroup Hrel. unfold Route.respond in Hrel. simpl in Hrel.
  rewrite Htruthy in Hrel.
  assert (Hf : focusWithin allResources
                 (Some (List.filter (Route.ofApplication (Group.application group))
                                    allResources))).
  { intros r Hr. now apply filter_In in Hr. }
  destruct (discovered_resolved P allResources _ rel Hf (deduplicate_In _ _ _ Hrel))
    as [Hs Ht].
  apply returned_from_extractor in Hrel as (r & Hr & Hex). simpl in Hr.
  apply filter_In in Hr as [Hr Happ]. apply String.eqb_eq in Happ.
  apply extract_sound in Hex as [Htouch _].
  split; [|split].
  - exists r. split; [|exact Htouch]. apply Hgroup. auto.
  - unfold knownId in *. rewrite map_app. apply in_or_app. now right.
  - unfold knownId in *. rewrite map_app. apply in_or_app. now right.
Qed.

(** X26. From the route to the canvas.  For a group that holds the resources
    the inventory lists for its application (a non-empty name), and with
    the external dependencies switched on, the graph keeps every
    relationship that the route serves for that application and draws one
    link for each; and when the route serves at least one relationship, the
    graph is drawn rather than replaced by a message. *)
Theorem served_relationships_are_all_drawn P allResources group :
  truthy (Group.application group) = true ->
  groupOfInventory group allResources ->
  relevantRelationships
    (ResourceGroup.graphProps group allResources
       (Route.relationships (Route.respond P allResources (Some (Group.application group))))
       true)
  = Route.relationships (Route.respond P allResources (Some (Group.application group)))
  /\ length (graphLinks
               (ResourceGroup.graphProps group allResources
                  (Route.relationships
                     (Route.respond P allResources (Some (Group.application group))))
                  true))
     = length (Route.relationships
                 (Route.respond P allResources (Some (Group.application group))))
  /\ (Route.relationships (Route.respond P allResources (Some (Group.application group)))
      <> [] ->
      mountComponent
        (ResourceGroup.graphProps group allResources
           (Route.relationships
              (Route.respond P allResources (Some (Group.application group))))
           true)
      = None).
Proof.
  intros Htruthy Hgroup.
  set (served := Route.relationships
                   (Route.respond P allResources (Some (Group.application group)))).
  set (props := ResourceGroup.graphProps group allResources served true).
  assert (Hreach : forall rel, In rel served -> reachesGroup group allResources rel).
  { intros rel Hrel. now apply (served_reaches_group P). }
  assert (Hkept : relevantRelationships props = served).
  { unfold relevantRelationships, graphData. rewrite filterRelationships_kept.
    apply filter_all_id. intros rel Hrel. apply reachesGroup_retained. auto. }
  split; [exact Hkept|]. split.
  - unfold graphLinks. rewrite Hkept. apply makeLinks_length. intros rel Hrel.
    destruct (supplied_ends_make_link props rel) as (l & Hl & _); eauto.
    + now rewrite Hkept.
    + apply reachesGroup_supplied; auto.
  - intros Hne. rewrite mountComponent_unfold. unfold renderGraph.
    destruct (graphResources props) as [|g gs] eqn:Hg.
    + exfalso. apply graphResources_empty_iff in Hg. simpl in Hg.
      destruct served as [|rel rest] eqn:Hserved; [contradiction|].
      destruct (Hreach rel (or_introl eq_refl)) as [(a & Ha & _) _].
      rewrite Hg in Ha. destruct Ha.
    + rewrite Hkept. destruct served; [contradiction|reflexivity].
Qed.

(** The graph of the group of [D1] is drawn with the link to [D2] when
    it is mounted with the external dependencies shown. *)
Lemma relationships_of_a_group_are_drawn_witness :
  In (mkRel "d1" "d2" CONNECTS_TO None) [mkRel "d1" "d2" CONNECTS_TO None]
  /\ reachesGroup groupD [D1; D2] (mkRel "d1" "d2" CONNECTS_TO None)
  /\ (exists l,
        In l (graphLinks externalShown)
        /\ linkRelationship l = mkRel "d1" "d2" CONNECTS_TO None)
  /\ pageAfter externalShown []
     = ContainerShown (Some (GraphSvg (makeNodes externalShown) (graphLinks externalShown)))
  /\ map linkRelationship (graphLinks externalShown) = [mkRel "d1" "d2" CONNECTS_TO None].
Proof.
  assert (Hin : In (mkRel "d1" "d2" CONNECTS_TO None) [mkRel "d1" "d2" CONNECTS_TO None])
    by now left.
  assert (Hreach : reachesGroup groupD [D1; D2] (mkRel "d1" "d2" CONNECTS_TO None)).
  { split; [|split].
    - exists D1. split; [now left|]. now left.
    - unfold knownId. simpl. auto.
    - unfold knownId. simpl. auto. }
  split; [exact Hin|]. split; [exact Hreach|].
  destruct (relationships_of_a_group_are_drawn groupD [D1; D2]
              [mkRel "d1" "d2" CONNECTS_TO None] _ Hin Hreach)
    as (_ & Hlink & Hpage & _).
  split; [exact Hlink|]. split; [exact Hpage|]. reflexivity.
Defined.

Lemma served_relationships_are_all_drawn_witness :
  truthy (Group.application groupD) = true
  /\ groupOfInventory groupD [D1; D2]
  /\ length (graphLinks
               (ResourceGroup.graphProps groupD [D1; D2]
                  (Route.relationships
                     (Route.respond pairedProvider [D1; D2]
                                    (Some (Group.application groupD))))
                  true))
     = length (Route.relationships
                 (Route.respond pairedProvider [D1; D2]
                                (Some (Group.application groupD)))).
Proof.
  assert (Htruthy : truthy (Group.application groupD) = true) by reflexivity.
  assert (Hgroup : groupOfInventory groupD [D1; D2]).
  { intros r. simpl. split.
    - intros [<-|[]]. split; [now left|reflexivity].
    - intros [[<-|[<-|[]]] Happ]; [now left|discriminate Happ]. }
  split; [exact Htruthy|]. split; [exact Hgroup|].
  exact (proj1 (proj2 (served_relationships_are_all_drawn pairedProvider [D1; D2] groupD
                         Htruthy Hgroup))).
Defined.

(* ===================================================================== *)
(** ** The groups of the dashboard *)
(* ===================================================================== *)

Lemma filter_snoc {A} (p : A -> bool) l x :
  List.filter p (l ++ [x]) = List.filter p l ++ (if p x then [x] else []).
Proof. rewrite List.filter_app. reflexivity. Qed.

Lemma addToRegions_names x regs :
  map Group.region (App.addToRegions x regs)
  = if existsb (fun rg => String.eqb (Group.region rg) (region x)) regs
    then map Group.region regs
    else map Group.region regs ++ [region x].
Proof.
  induction regs as [|rg rest IH]; simpl; [reflexivity|].
  destruct (String.eqb (Group.region rg) (region x)); simpl; [reflexivity|].
  rewrite IH. now destruct (existsb _ rest).
Qed.

Lemma existsb_region regs rn :
  existsb (fun rg => String.eqb (Group.region rg) rn) regs = true
  <-> In rn (map Group.region regs).
Proof.
  rewrite existsb_exists, in_map_iff. split.
  - intros (rg & Hrg & H). apply String.eqb_eq in H. eauto.
  - intros (rg & H & Hrg). exists rg. split; [assumption|]. now apply String.eqb_eq.
Qed.

Lemma addToRegions_NoDup x regs :
  List.NoDup (map Group.region regs) ->
  List.NoDup (map Group.region (App.addToRegions x regs)).
Proof.
  intros Hnd. rewrite addToRegions_names.
  destruct (existsb _ regs) eqn:Hex; [assumption|].
  apply NoDup_snoc; [assumption|].
  intros Hx. apply existsb_region in Hx. congruence.
Qed.

Lemma addToRegions_covers x regs :
  In (region x) (map Group.region (App.addToRegions x regs))
  /\ forall rn, In rn (map Group.region regs) ->
                In rn (map Group.region (App.addToRegions x regs)).
Proof.
  rewrite addToRegions_names. destruct (existsb _ regs) eqn:Hex.
  - apply existsb_region in Hex. auto.
  - split; [apply in_or_app; right; now left|]. intros rn H. apply in_or_app. now left.
Qed.

Lemma regionFilled_other a l x rg :
  inRegion a (Group.region rg) x = false ->
  regionFilled a l rg -> regionFilled a (l ++ [x]) rg.
Proof.
  intros Hx [Hne Heq]. split; [assumption|].
  rewrite filter_snoc, Hx, app_nil_r. exact Heq.
Qed.

Lemma addToRegions_filled a l x regs :
  application x = a ->
  List.NoDup (map Group.region regs) ->
  (forall r, In r l -> application r = a -> region r = region x ->
             In (region x) (map Group.region regs)) ->
  (forall rg, In rg regs -> regionFilled a l rg) ->
  forall rg, In rg (App.addToRegions x regs) -> regionFilled a (l ++ [x]) rg.
Proof.
  intros Happ. induction regs as [|rg0 rest IH]; simpl; intros Hnd Hcov Hfilled rg Hrg.
  - destruct Hrg as [<-|[]]. split; simpl; [discriminate|].
    rewrite filter_snoc. unfold inRegion at 2. rewrite Happ, !String.eqb_refl. simpl.
    replace (List.filter (inRegion a (region x)) l) with (@nil AWSResource);
      [reflexivity|].
    symmetry. clear - Hcov. induction l as [|r l IHl]; simpl; [reflexivity|].
    destruct (inRegion a (region x) r) eqn:Hr.
    + exfalso. apply andb_true_iff in Hr as [H1 H2].
      apply String.eqb_eq in H1, H2. exact (Hcov r (or_introl eq_refl) H1 H2).
    + apply IHl. intros r' Hr'. apply Hcov. now right.
  - inversion Hnd as [|n ns Hnotin Hnd']. subst.
    destruct (String.eqb (Group.region rg0) (region x)) eqn:Heq.
    + apply String.eqb_eq in Heq. destruct Hrg as [<-|Hrg].
      * destruct (Hfilled rg0 (or_introl eq_refl)) as [Hne Hres].
        split; simpl.
        -- intros H. now apply app_eq_nil in H as [_ H].
        -- rewrite filter_snoc. unfold inRegion at 2.
           rewrite Heq, !String.eqb_refl. simpl. now rewrite Hres, Heq.
      * apply regionFilled_other; [|apply Hfilled; now right].
        unfold inRegion. apply andb_false_iff. right. apply String.eqb_neq.
        intros Hx. apply Hnotin. rewrite Heq, Hx. now apply in_map.
    + apply String.eqb_neq in Heq. destruct Hrg as [<-|Hrg].
      * apply regionFilled_other; [|apply Hfilled; now left].
        unfold inRegion. apply andb_false_iff. right. apply String.eqb_neq. congruence.
      * apply IH; auto.
        intros r Hr Ha Hreg. destruct (Hcov r Hr Ha Hreg) as [H|H]; [congruence|exact H].
Qed.

Lemma groupByApplication_snoc l x :
  App.groupByApplication (l ++ [x])
  = match App.groupByApplication l with
    | Some groups => App.addResource groups x
    | None => None
    end.
Proof. unfold App.groupByApplication. now rewrite fold_left_app. Qed.

Lemma addToRegions_nonempty x regs : App.addToRegions x regs <> [].
Proof. destruct regs as [|rg rest]; simpl; [|destruct (String.eqb _ _)]; discriminate. Qed.

Lemma groupFilled_other a l x g :
  application x <> a -> groupFilled a l g -> groupFilled a (l ++ [x]) g.
Proof.
  intros Hx (Happ & Hinh & Hregs & Hnd & Hfilled & Hcov).
  split; [assumption|]. split; [assumption|]. split; [assumption|].
  split; [assumption|]. split.
  - intros rg Hrg. apply regionFilled_other; [|now apply Hfilled].
    unfold inRegion. apply andb_false_iff. left. now apply String.eqb_neq.
  - intros r Hr Ha. apply in_app_or in Hr as [Hr|[<-|[]]]; [now apply Hcov|].
    contradiction.
Qed.

Lemma addResource_grouped l acc x acc' :
  grouped l acc -> App.addResource acc x = Some acc' -> grouped (l ++ [x]) acc'.
Proof.
  intros Hg Hadd a. unfold App.addResource in Hadd.
  pose proof (Hg (application x)) as Hx.
  destruct (decide (a = application x)) as [->|Hne].
  - destruct (acc !! application x) as [g|] eqn:Hlook.
    + injection Hadd as <-. rewrite lookup_insert_eq.
      destruct Hx as (Happ & Hinh & _ & Hnd & Hfilled & Hcov).
      split; [exact Happ|]. split; [exact Hinh|]. simpl.
      split; [apply addToRegions_nonempty|].
      split; [now apply addToRegions_NoDup|]. split.
      * apply addToRegions_filled; auto.
        intros r Hr Ha Hreg. rewrite <- Hreg. now apply Hcov.
      * intros r Hr Ha. apply in_app_or in Hr as [Hr|[<-|[]]].
        -- apply (proj2 (addToRegions_covers x (Group.regions g))). now apply Hcov.
        -- exact (proj1 (addToRegions_covers x (Group.regions g))).
    + destruct (arrIncludes App.inheritedNames (application x)) eqn:Hinh; [discriminate|].
      injection Hadd as <-. rewrite lookup_insert_eq.
      split; [reflexivity|]. split; [exact Hinh|].
      split; [apply (addToRegions_nonempty x [])|].
      split; [apply (addToRegions_NoDup x []); constructor|]. split.
      * apply (addToRegions_filled (application x) l x []); auto.
        -- constructor.
        -- intros r Hr Ha _. exfalso. exact (Hx r Hr Ha).
        -- intros rg [].
      * intros r Hr Ha. apply in_app_or in Hr as [Hr|[<-|[]]].
        -- exfalso. exact (Hx r Hr Ha).
        -- now left.
  - assert (Hlook : acc' !! a = acc !! a).
    { destruct (acc !! application x) as [g|].
      - injection Hadd as <-. now rewrite lookup_insert_ne.
      - destruct (arrIncludes _ _); [discriminate|]. injection Hadd as <-.
        now rewrite lookup_insert_ne. }
    rewrite Hlook. specialize (Hg a). destruct (acc !! a) as [g|].
    + apply groupFilled_other; auto.
    + intros r Hr. apply in_app_or in Hr as [Hr|[<-|[]]]; auto.
Qed.

Lemma groupByApplication_grouped l acc :
  App.groupByApplication l = Some acc -> grouped l acc.
Proof.
  revert acc. induction l as [|x l IH] using rev_ind; intros acc H.
  - injection H as <-. intros a. rewrite lookup_empty. intros r [].
  - rewrite groupByApplication_snoc in H.
    destruct (App.groupByApplication l) as [groups|]; [|discriminate].
    apply addResource_grouped with (acc := groups); auto.
Qed.

Lemma groupByApplication_throws l :
  App.groupByApplication l = None
  <-> exists r, In r l /\ arrIncludes App.inheritedNames (application r) = true.
Proof.
  induction l as [|x l IH] using rev_ind.
  - split; [discriminate|]. intros (r & [] & _).
  - rewrite groupByApplication_snoc.
    destruct (App.groupByApplication l) as [groups|] eqn:Hl.
    + pose proof (groupByApplication_grouped l groups Hl (application x)) as Hx.
      assert (Hnone : forall r, In r l ->
                        arrIncludes App.inheritedNames (application r) = false).
      { intros r Hr. destruct (arrIncludes _ _) eqn:Hinh; [|reflexivity].
        assert (H : Some groups = None); [|discriminate]. apply IH. eauto. }
      unfold App.addResource. destruct (groups !! application x) as [g|].
      * destruct Hx as (_ & Hinh & _). split; [discriminate|].
        intros (r & Hr & Hr'). apply in_app_or in Hr as [Hr|[<-|[]]].
        -- rewrite (Hnone r Hr) in Hr'. discriminate.
        -- congruence.
      * destruct (arrIncludes App.inheritedNames (application x)) eqn:Hinh.
        -- split; [|reflexivity]. intros _. exists x. split; [|assumption].
           apply in_or_app. right. now left.
        -- split; [discriminate|].
           intros (r & Hr & Hr'). apply in_app_or in Hr as [Hr|[<-|[]]].
           ++ rewrite (Hnone r Hr) in Hr'. discriminate.
           ++ congruence.
    + split; [|reflexivity]. intros _. destruct (proj1 IH eq_refl) as (r & Hr & Hinh).
      exists r. split; [|assumption]. apply in_or_app. now left.
Qed.

Lemma groupFilled_of_inventory a l g : groupFilled a l g -> groupOfInventory g l.
Proof.
  intros (Happ & _ & _ & _ & Hfilled & Hcov) r. unfold ResourceGroup.appResources.
  rewrite in_flat_map, Happ. split.
  - intros (rg & Hrg & Hr). destruct (Hfilled rg Hrg) as [_ Heq].
    rewrite Heq in Hr. apply filter_In in Hr as [Hr Hin].
    apply andb_true_iff in Hin as [Ha _]. apply String.eqb_eq in Ha. auto.
  - intros [Hr Ha]. pose proof (Hcov r Hr Ha) as Hreg.
    apply in_map_iff in Hreg as (rg & Hname & Hrg). exists rg. split; [assumption|].
    destruct (Hfilled rg Hrg) as [_ Heq]. rewrite Heq. apply filter_In.
    split; [assumption|]. unfold inRegion. rewrite Ha, Hname, !String.eqb_refl.
    reflexivity.
Qed.

(** X27. The groups of the dashboard.  Grouping throws exactly when one of the
    resources belongs to an application that bears a name inherited from
    [Object.prototype] (such as 'constructor').  Otherwise there is one
    group for each application that has a resource, and none for the
    others; the regions of a group bear pairwise distinct names, none is
    empty, and each holds the resources of its application and region in
    the order of the list; so a group holds exactly the resources that the
    list has for its application. *)
Theorem groups_partition_the_resources filtered :
  (App.groupByApplication filtered = None
   <-> exists r, In r filtered /\ arrIncludes App.inheritedNames (application r) = true)
  /\ forall acc, App.groupByApplication filtered = Some acc ->
       (forall a, acc !! a = None <-> forall r, In r filtered -> application r <> a)
       /\ forall a g, acc !! a = Some g ->
            Group.application g = a
            /\ List.NoDup (map Group.region (Group.regions g))
            /\ (forall rg, In rg (Group.regions g) -> regionFilled a filtered rg)
            /\ groupOfInventory g filtered.
Proof.
  split; [apply groupByApplication_throws|].
  intros acc Hacc. pose proof (groupByApplication_grouped filtered acc Hacc) as Hg.
  split.
  - intros a. specialize (Hg a). destruct (acc !! a) as [g|] eqn:Hlook.
    + split; [discriminate|]. intros Hnone. exfalso.
      destruct Hg as (Happ & _ & Hregs & _ & Hfilled & Hcov).
      destruct (Group.regions g) as [|rg rest]; [contradiction|].
      destruct (Hfilled rg (or_introl eq_refl)) as [Hne Heq].
      destruct (Group.resources rg) as [|r rs] eqn:Hres; [contradiction|].
      assert (Hr : In r (List.filter (inRegion a (Group.region rg)) filtered)).
      { rewrite <- Heq. now left. }
      apply filter_In in Hr as [Hr Hin]. apply andb_true_iff in Hin as [Ha _].
      apply String.eqb_eq in Ha. exact (Hnone r Hr Ha).
    + split; [intros _; exact Hg|reflexivity].
  - intros a g Hlook. specialize (Hg a). rewrite Hlook in Hg.
    pose proof (groupFilled_of_inventory a filtered g Hg) as Hinv.
    destruct Hg as (Happ & _ & _ & Hnd & Hfilled & _). auto.
Qed.

(* ===================================================================== *)
(** ** The legend of the graph *)
(* ===================================================================== *)

Lemma returned_not_part_of P S F e :
  In e (discoverResourceRelationships P S F) -> relType e <> PART_OF.
Proof.
  intros He Hty. apply returned_from_extractor in He as (r & Hr & He).
  destruct (extract_wellTyped P S (r :: S) [r] r e) as [Hwt _];
    [intros x Hx; now right | now left | now left | assumption |].
  unfold edgeWellTyped in Hwt. now rewrite Hty in Hwt.
Qed.

Lemma makeLink_type nodes rel l : makeLink nodes rel = Some l -> linkType l = relType rel.
Proof.
  unfold makeLink. destruct (List.find _ nodes); [|discriminate].
  destruct (List.find _ nodes); [|discriminate]. now intros [= <-].
Qed.

(** X18. The legend explains every arrow drawn for relationships that the
    discovery returned: the type of every link has an entry in the legend
    and a marker of its own, and no other entry of the legend has the
    colour of the link.  The one type without an entry, part_of, is never
    returned. *)
Theorem legend_explains_every_link P S F props l :
  relationships props = discoverResourceRelationships P S F ->
  In l (graphLinks props) ->
  In (linkType l) (map fst legendRelationshipTypes)
  /\ In (linkType l) relationshipTypes
  /\ linkMarkerEnd l = "url(#" +:+ markerId (linkType l) +:+ ")"
  /\ forall entry, In entry legendRelationshipTypes ->
                   getRelationshipColor (fst entry) = linkStroke l ->
                   fst entry = linkType l.
Proof.
  intros Hrels Hl. unfold graphLinks in Hl. apply makeLinks_In in Hl as (rel & Hrel & Hmk).
  unfold relevantRelationships, graphData in Hrel.
  rewrite filterRelationships_kept in Hrel. apply filter_In in Hrel as [Hrel _].
  rewrite Hrels in Hrel. apply returned_not_part_of in Hrel.
  rewrite <- (makeLink_type _ _ _ Hmk) in Hrel.
  split; [|split; [|split]].
  - destruct (linkType l); simpl; auto 10.
  - destruct (linkType l); simpl; auto 10.
  - unfold linkMarkerEnd, markerId. destruct (linkType l); reflexivity.
  - intros entry _. unfold linkStroke.
    destruct (fst entry), (linkType l); simpl; intros H; (reflexivity || discriminate H).
Qed.

Lemma legend_explains_every_link_witness :
  relationships
    (ResourceGroup.graphProps groupD [D1; D2]
       (discoverResourceRelationships pairedProvider [D1; D2] (Some [D1])) true)
  = discoverResourceRelationships pairedProvider [D1; D2] (Some [D1])
  /\ exists l,
       In l (graphLinks
               (ResourceGroup.graphProps groupD [D1; D2]
                  (discoverResourceRelationships pairedProvider [D1; D2] (Some [D1]))
                  true))
       /\ In (linkType l) (map fst legendRelationshipTypes).
Proof.
  split; [reflexivity|].
  destruct (graphLinks
              (ResourceGroup.graphProps groupD [D1; D2]
                 (discoverResourceRelationships pairedProvider [D1; D2] (Some [D1]))
                 true)) as [|l ls] eqn:Hlinks; [vm_compute in Hlinks; discriminate|].
  exists l. split; [now left|].
  refine (proj1 (legend_explains_every_link pairedProvider [D1; D2] (Some [D1])
                   (ResourceGroup.graphProps groupD [D1; D2]
                      (discoverResourceRelationships pairedProvider [D1; D2] (Some [D1]))
                      true)
                   l eq_refl _)).
  rewrite Hlinks. now left.
Defined.

(* ===================================================================== *)
(** ** Ids matched inside a longer string *)
(* ===================================================================== *)

Lemma startsWith_spec s p : startsWith s p = true <-> exists b, s = p +:+ b.
Proof.
  revert s. induction p as [|c p IH]; intros s.
  - split; [intros _; now exists s|]. intros _. now destruct s.
  - destruct s as [|d s]; simpl.
    + split; [discriminate|]. intros (b & H). discriminate H.
    + rewrite andb_true_iff, IH. split.
      * intros (Hc & b & ->). apply Ascii.eqb_eq in Hc. subst d. now exists b.
      * intros (b & H). change (String d s = String c (p +:+ b)) in H.
        injection H as -> ->. split; [apply Ascii.eqb_refl|now exists b].
Qed.

Lemma includes_spec s sub : includes s sub = true <-> exists a b, s = a +:+ sub +:+ b.
Proof.
  induction s as [|d s IH].
  - change (includes EmptyString sub) with (startsWith EmptyString sub || false).
    rewrite orb_false_r, startsWith_spec. split.
    + intros (b & H). now exists EmptyString, b.
    + intros (a & b & H). destruct a as [|x a]; [now exists b|discriminate H].
  - change (includes (String d s) sub)
      with (startsWith (String d s) sub || includes s sub).
    rewrite orb_true_iff, startsWith_spec, IH. split.
    + intros [(b & H)|(a & b & H)].
      * now exists EmptyString, b.
      * exists (String d a), b. now rewrite H.
    + intros (a & b & H). destruct a as [|x a].
      * left. now exists b.
      * right. change (String d s = String x (a +:+ sub +:+ b)) in H.
        injection H as -> ->. now exists a, b.
Qed.

Lemma includes_trans u y x :
  includes u y = true -> includes y x = true -> includes u x = true.
Proof.
  rewrite !includes_spec. intros (a & b & ->) (c & d & ->).
  exists (a +:+ c), (d +:+ b). now rewrite !append_assoc_string.
Qed.

Lemma find_before {A} (p : A -> bool) pre x rest r :
  p x = true -> List.find p (pre ++ x :: rest) = Some r -> In r (pre ++ [x]).
Proof.
  intros Hx. induction pre as [|a pre IH]; simpl.
  - rewrite Hx. intros [= <-]. now left.
  - destruct (p a); [intros [= <-]; now left|]. intros H. right. now apply IH.
Qed.

Lemma ids_before_differ pre a mid b post r :
  List.NoDup (map id (pre ++ a :: mid ++ b :: post)) ->
  In r (pre ++ [a]) -> id r <> id b.
Proof.
  intros Hnd Hr Heq.
  replace (pre ++ a :: mid ++ b :: post) with ((pre ++ a :: mid) ++ b :: post) in Hnd
    by now rewrite <- app_assoc.
  rewrite map_app in Hnd. simpl in Hnd.
  apply List.NoDup_remove in Hnd as [_ Hnotin]. apply Hnotin.
  apply in_or_app. left. rewrite <- Heq. apply in_map.
  apply in_app_or in Hr as [Hr|[<-|[]]]; apply in_or_app; [now left|right; now left].
Qed.

Lemma substring_match_skips_longer_id S a b (p : AWSResource -> bool) r :
  List.NoDup (map id S) -> listedBefore S a b ->
  (p b = true -> p a = true) ->
  List.find p S = Some r -> id r <> id b.
Proof.
  intros Hnd (pre & mid & post & ->) Himp Hfind Heq.
  destruct (List.find_some _ _ Hfind) as [Hr Hpr].
  assert (Hrb : r = b).
  { apply (NoDup_map_inj id) with (l := pre ++ a :: mid ++ b :: post); auto.
    apply in_or_app. right. right. apply in_or_app. right. now left. }
  subst r. apply (ids_before_differ pre a mid b post b Hnd); [|reflexivity].
  apply (find_before p pre a (mid ++ b :: post)); auto.
Qed.

Lemma eventBridgeLoop_found all g targets e :
  In e (fst (eventBridgeLoop all g targets)) ->
  exists arn r, List.find (fun r => includes arn (id r)) all = Some r
                /\ targetId e = id r.
Proof.
  induction targets as [|t targets IH]; simpl; [intros []|].
  destruct (Arn t) as [arn|].
  - destruct (eventBridgeLoop all g targets) as [more completion]. simpl in *.
    rewrite in_app_iff. intros [H|H]; [|auto].
    destruct (List.find _ all) as [tr|] eqn:Hf; [|destruct H].
    destruct H as [<-|[]]. exists arn, tr. auto.
  - destruct all; [assumption | intros []].
Qed.

(** X11. A resource whose id holds the id of a resource listed before it
    (a function named after another one, 'handler-v2' after 'handler') is
    never the target of an edge pushed for a gateway or for an event rule:
    these look an id up inside a longer string and take the first resource
    of the inventory whose id occurs in it, so the resource listed before
    takes the edge. *)
Theorem longer_id_gets_no_trigger P S a b g e :
  List.NoDup (map id S) ->
  listedBefore S a b ->
  includes (id b) (id a) = true ->
  matchesBySubstring g a ->
  In e (fst (extract P S g)) ->
  targetId e <> id b.
Proof.
  intros Hnd Hbefore Hsub Hg He. unfold extract in He.
  destruct Hg as [[Hg Ha]|Hg]; rewrite Hg in He; simpl in He.
  - unfold apiGatewayEdges in He. apply in_flat_map in He as (integration & _ & He).
    destruct (List.find _ S) as [r|] eqn:Hfind; [|destruct He].
    destruct He as [<-|[]]. simpl.
    refine (substring_match_skips_longer_id S a b _ r Hnd Hbefore _ Hfind).
    rewrite Ha. rewrite !andb_true_iff. intros [_ Hb]. split; [reflexivity|].
    now apply includes_trans with (y := id b).
  - apply eventBridgeLoop_found in He as (arn & r & Hfind & ->).
    refine (substring_match_skips_longer_id S a b _ r Hnd Hbefore _ Hfind).
    intros Hb. now apply includes_trans with (y := id b).
Qed.

Lemma longer_id_gets_no_trigger_witness :
  List.NoDup (map id [Gateway; Handler; HandlerV2])
  /\ listedBefore [Gateway; Handler; HandlerV2] Handler HandlerV2
  /\ includes (id HandlerV2) (id Handler) = true
  /\ matchesBySubstring Gateway Handler
  /\ In (mkRel "abc123" (id Handler) TRIGGERS (Some (MdMethodPath "GET" "/orders")))
        (fst (extract gatewayV2Provider [Gateway; Handler; HandlerV2] Gateway))
  /\ id Handler <> id HandlerV2.
Proof.
  assert (Hnd : List.NoDup (map id [Gateway; Handler; HandlerV2])).
  { simpl. repeat constructor; simpl; intros H; repeat destruct H as [H|H];
      try discriminate H; exact H. }
  assert (Hbefore : listedBefore [Gateway; Handler; HandlerV2] Handler HandlerV2).
  { exists [Gateway], [], []. reflexivity. }
  assert (Hsub : includes (id HandlerV2) (id Handler) = true) by reflexivity.
  assert (Hg : matchesBySubstring Gateway Handler) by (left; split; reflexivity).
  assert (He : In (mkRel "abc123" (id Handler) TRIGGERS (Some (MdMethodPath "GET" "/orders")))
                  (fst (extract gatewayV2Provider [Gateway; Handler; HandlerV2] Gateway))).
  { vm_compute. now left. }
  repeat (split; [assumption|]).
  exact (longer_id_gets_no_trigger gatewayV2Provider [Gateway; Handler; HandlerV2]
           Handler HandlerV2 Gateway _ Hnd Hbefore Hsub Hg He).
Defined.

(* ===================================================================== *)
(** ** The edges of a compute instance *)
(* ===================================================================== *)

(** X12. The extractor of compute instances rebuilds every connection of
    the resolver as an edge from the instance to the target of the
    connection, without the rule: every edge it pushes starts at the
    instance.  So a connection that comes into the instance (as the
    connections of its inbound rules do) is pushed as an edge from the
    instance to itself, and the resource at the far end is not named; the
    returned list holds that self-edge (or an earlier edge with its key). *)
Theorem inbound_connection_of_compute_instance_gives_a_self_edge P S F r c :
  type r = ec2 ->
  In r (resourcesOfInterest S F) ->
  In c (getSecurityGroupConnections P r S) ->
  targetId c = id r ->
  emittedAndReturned P S F
    (mkRel (id r) (id r) CONNECTS_TO (Some (MdProtocolPort None None)))
  /\ forall e, In e (fst (extract P S r)) ->
               sourceId e = id r /\ relType e = CONNECTS_TO
               /\ metadata e = Some (MdProtocolPort None None).
Proof.
  intros Hty Hr Hc Htarget. split.
  - apply emitted_is_returned with (r := r); [assumption|].
    unfold extract. rewrite Hty. simpl. unfold ec2Edges. apply in_map_iff.
    exists c. split; [|assumption]. now rewrite Htarget.
  - intros e He. unfold extract in He. rewrite Hty in He. simpl in He.
    unfold ec2Edges in He. apply in_map_iff in He as (c' & <- & _). auto.
Qed.

Lemma inbound_connection_of_compute_instance_witness :
  type R2 = ec2
  /\ In R2 (resourcesOfInterest [R1; R2] None)
  /\ In (mkRel "r1" "r2" CONNECTS_TO
           (Some (MdSecurityGroups ["sg-1"] ["sg-2"]
                    [ {| protocol := Some "tcp"; fromPort := Some 3306%Z;
                         toPort := Some 3306%Z; securityGroupId := "sg-1";
                         direction := inbound |} ])))
        (getSecurityGroupConnections groupProvider R2 [R1; R2])
  /\ emittedAndReturned groupProvider [R1; R2] None
       (mkRel (id R2) (id R2) CONNECTS_TO (Some (MdProtocolPort None None))).
Proof.
  assert (Hty : type R2 = ec2) by reflexivity.
  assert (Hr : In R2 (resourcesOfInterest [R1; R2] None)) by (right; now left).
  assert (Hc : In (mkRel "r1" "r2" CONNECTS_TO
                     (Some (MdSecurityGroups ["sg-1"] ["sg-2"]
                              [ {| protocol := Some "tcp"; fromPort := Some 3306%Z;
                                   toPort := Some 3306%Z; securityGroupId := "sg-1";
                                   direction := inbound |} ])))
                  (getSecurityGroupConnections groupProvider R2 [R1; R2])).
  { vm_compute. now left. }
  repeat (split; [assumption|]).
  exact (proj1 (inbound_connection_of_compute_instance_gives_a_self_edge
                  groupProvider [R1; R2] None R2 _ Hty Hr Hc eq_refl)).
Defined.

(* ===================================================================== *)
(** ** Connections of an instance, repeated at its cluster *)
(* ===================================================================== *)

(** X13. When a cluster has no security groups of its own, every
    connection that the resolver finds for one of its instances which has
    some is pushed a second time for the cluster, with the id of the
    instance replaced by the id of the cluster: with both under
    consideration, the connection is emitted at the instance and at the
    cluster, and the edge of the cluster has the cluster at one end. *)
Theorem instance_connections_are_repeated_at_the_cluster P S F c i x :
  lendsItsConnections S c i ->
  In c (resourcesOfInterest S F) ->
  In i (resourcesOfInterest S F) ->
  In x (getSecurityGroupConnections P i S) ->
  emittedAndReturned P S F x
  /\ emittedAndReturned P S F (retarget i c x)
  /\ touches c (retarget i c x).
Proof.
  intros (Hty & Hnone & Hi & g & ids & Hsg) Hc Hiroi Hx.
  assert (Hity : type i = aurora_instance).
  { unfold clusterInstances in Hi. apply filter_In in Hi as [_ H].
    apply andb_true_iff in H as [H _]. now apply bool_decide_eq_true in H. }
  split; [|split].
  - apply emitted_is_returned with (r := i); [assumption|].
    unfold extract. rewrite Hity. simpl. apply in_or_app. now right.
  - apply emitted_is_returned with (r := c); [assumption|].
    unfold extract. rewrite Hty. simpl. apply in_or_app. right.
    unfold auroraConnectionEdges. rewrite Hnone. simpl.
    apply in_flat_map. exists i. split.
    + apply filter_In. split; [assumption|]. now rewrite Hsg.
    + now apply in_map.
  - apply (retarget_sound S i c x).
    + now apply clusterInstances_In in Hi.
    + now apply getSecurityGroupConnections_anchored in Hx.
Qed.

Lemma instance_connections_are_repeated_witness :
  lendsItsConnections [ClusterOfD; InstanceOfD; D2] ClusterOfD InstanceOfD
  /\ In ClusterOfD (resourcesOfInterest [ClusterOfD; InstanceOfD; D2] None)
  /\ In InstanceOfD (resourcesOfInterest [ClusterOfD; InstanceOfD; D2] None)
  /\ In (mkRel "d1" "d2" CONNECTS_TO
           (Some (MdSecurityGroups ["sg-a"] ["sg-b"]
                    [ {| protocol := Some "tcp"; fromPort := Some 5432%Z;
                         toPort := Some 5432%Z; securityGroupId := "sg-b";
                         direction := outbound |} ])))
        (getSecurityGroupConnections pairedProvider InstanceOfD
           [ClusterOfD; InstanceOfD; D2])
  /\ emittedAndReturned pairedProvider [ClusterOfD; InstanceOfD; D2] None
       (mkRel "cd" "d2" CONNECTS_TO
          (Some (MdSecurityGroups ["sg-a"] ["sg-b"]
                   [ {| protocol := Some "tcp"; fromPort := Some 5432%Z;
                        toPort := Some 5432%Z; securityGroupId := "sg-b";
                        direction := outbound |} ]))).
Proof.
  assert (Hl : lendsItsConnections [ClusterOfD; InstanceOfD; D2] ClusterOfD InstanceOfD).
  { split; [reflexivity|]. split; [reflexivity|]. split.
    - vm_compute. now left.
    - exists "sg-a", []. reflexivity. }
  assert (Hc : In ClusterOfD (resourcesOfInterest [ClusterOfD; InstanceOfD; D2] None))
    by now left.
  assert (Hi : In InstanceOfD (resourcesOfInterest [ClusterOfD; InstanceOfD; D2] None))
    by (right; now left).
  assert (Hx : In (mkRel "d1" "d2" CONNECTS_TO
                     (Some (MdSecurityGroups ["sg-a"] ["sg-b"]
                              [ {| protocol := Some "tcp"; fromPort := Some 5432%Z;
                                   toPort := Some 5432%Z; securityGroupId := "sg-b";
                                   direction := outbound |} ])))
                  (getSecurityGroupConnections pairedProvider InstanceOfD
                     [ClusterOfD; InstanceOfD; D2])).
  { vm_compute. now left. }
  repeat (split; [assumption|]).
  exact (proj1 (proj2 (instance_connections_are_repeated_at_the_cluster
                         pairedProvider [ClusterOfD; InstanceOfD; D2] None
                         ClusterOfD InstanceOfD _ Hl Hc Hi Hx))).
Defined.

(* ===================================================================== *)
(** ** The page of the component *)
(* ===================================================================== *)







(** X29. The links of the graph: every link stands for a kept
    relationship and joins the two nodes that carry its source and target
    ids; a relationship with an end that is the id of no node has no link,
    and the render goes on without it; every other kept relationship has
    a link. *)
Theorem unresolvable_relationships_have_no_link props : linksResolved props.
Proof.
  unfold linksResolved, graphLinks. split; [|split].
  - intros l H. apply makeLinks_In in H as (rel & Hin & H).
    apply makeLink_Some in H as (-> & Hs & Ht & Hsid & Htid). auto.
  - intros rel Habsent l Hl Heq.
    apply makeLinks_In in Hl as (rel' & Hin & H).
    apply makeLink_Some in H as (Hrel & Hs & Ht & Hsid & Htid).
    rewrite Heq in Hrel. subst rel'.
    destruct Habsent as [Ha|Ha]; apply Ha; [rewrite <- Hsid | rewrite <- Htid];
      now apply in_map.
  - intros rel Hin Hs Ht.
    apply find_nodeId_In in Hs as (s & Hs). apply find_nodeId_In in Ht as (t & Ht).
    eexists. split.
    + apply makeLinks_In. exists rel. split; [assumption|].
      unfold makeLink. rewrite Hs, Ht. reflexivity.
    + reflexivity.
Qed.
